(** * Wall distance of the DG-FEM mesh: [CMeshFEM_DG::ComputeWall_Distance]

    Shallow embedding of [Common/src/fem_wall_distance.cpp].

    Conventions of the embedding.
    - [unsigned short] and [unsigned long] values are numbers in [N].  A value
      that the source stores into an [unsigned short] local after arithmetic
      is wrapped with [ushort]; the [unsigned long] accumulator [nIntPoints]
      is wrapped with [ulong] (LP64).  Loop counters that are compared with a
      bound of their own type, and [nVertex_SolidWall], which never exceeds
      [meshPoints.size()], cannot wrap and are left as they are.
    - A [std::vector] or array is a [list]; [v[i]] is [nth i v d] and
      [v[i] = x] is [<[i:=x]> v].  Reading or writing out of range is
      undefined behaviour in the source; here a read yields the default and a
      write does nothing.
    - [su2double] is a type parameter with the literal [0.0] and the two
      operations the routine uses ([+=] and [*]); the source itself takes it
      from a build-dependent typedef.
    - A pointer into one of the three result vectors, [v.data() + n], is the
      offset [n].
    - The alternating digital tree ([su2_adtElemClass]) is declared in
      adt_structure.hpp: its constructor and the two methods the routine
      calls are section parameters.  Every call of [DetermineNearestElement]
      and every store into a result vector is recorded in a trace. *)

From Stdlib Require Import NArith Lia.
From stdpp Require Import base list numbers.

Local Open Scope N_scope.

(** ** Machine integers *)

Definition USHRT_RANGE : N := 65536.
Definition ULONG_RANGE : N := 18446744073709551616.

Definition ushort (x : N) : N := x mod USHRT_RANGE.
Definition ulong (x : N) : N := x mod ULONG_RANGE.

(** [for (i = 0; i < n; ++i) s = body i s]. *)
Definition for_loop {S : Type} (n : N) (body : N -> S -> S) (s : S) : S :=
  fold_left (fun acc i => body (N.of_nat i) acc) (seq 0 (N.to_nat n)) s.

(** [v[i]] for an index held in an unsigned integer. *)
Definition at_ {A : Type} (v : list A) (i : N) (d : A) : A := nth (N.to_nat i) v d.

(** The values [0 .. n-1] a loop counter takes. *)
Definition Nseq (n : N) : list N := map N.of_nat (seq 0 (N.to_nat n)).

(** Who asked for a wall distance: a volume element, an internal matching
    face or a boundary face of a marker (the second component is [l]). *)
Inductive Consumer : Type :=
  | VolumeElement (l : N)
  | MatchingFace (l : N)
  | BoundaryFace (iMarker l : N).

Section WallDistance.

Variable su2double : Type.
Variable zero : su2double.
Variables add mul : su2double -> su2double -> su2double.

(** Boundary-condition tags of option_structure.hpp. *)
Variables HEAT_FLUX ISOTHERMAL : N.

(** The search tree of adt_structure.hpp. *)
Variable su2_adtElemClass : Type.
Variable su2_adtElemClass_new :
  N -> list su2double -> list N -> list N -> list N -> list N -> su2_adtElemClass.
Variable IsEmpty : su2_adtElemClass -> bool.
Variable DetermineNearestElement : su2_adtElemClass -> list su2double -> su2double.

(** ** Data model *)

Record CConfig : Type := { GetMarker_All_KindBC : N -> N }.

Record CPointFEM : Type := { coor : list su2double }.

(** Standard elements: only the getters the routine calls. *)
Record FEMStandardElementClass : Type := {
  elem_GetNIntegration : N;
  GetBasisFunctionsIntegration : list su2double }.

Record FEMStandardInternalFaceClass : Type := {
  face_GetNIntegration : N;
  GetNDOFsFaceSide0 : N;
  GetBasisFaceIntegrationSide0 : list su2double }.

Record FEMStandardBoundaryFaceClass : Type := {
  GetVTK_Type : N;
  GetNSubFaces : N;
  GetNDOFsPerSubFace : N;
  GetSubFaceConn : list N;
  GetNIntegration : N;
  GetBasisFaceIntegration : list su2double }.

Record CVolumeElementFEM : Type := {
  vol_indStandardElement : N;
  vol_nDOFsGrid : N;
  nodeIDsGrid : list N;
  vol_wallDistance : option N }.

Record CInternalFaceElementFEM : Type := {
  face_indStandardElement : N;
  DOFsGridFaceSide0 : list N;
  face_wallDistance : option N }.

Record CSurfaceElementFEM : Type := {
  indStandardElement : N;
  nDOFsGrid : N;
  DOFsGridFace : list N;
  wallDistance : option N }.

Record CBoundaryFEM : Type := {
  periodicBoundary : bool;
  surfElem : list CSurfaceElementFEM;
  VecWallDistanceBoundaryFaces : list su2double }.

Record CMeshFEM_DG : Type := {
  nDim : N;
  meshPoints : list CPointFEM;
  boundaries : list CBoundaryFEM;
  standardElementsGrid : list FEMStandardElementClass;
  standardMatchingFacesGrid : list FEMStandardInternalFaceClass;
  standardBoundaryFacesGrid : list FEMStandardBoundaryFaceClass;
  nVolElemOwned : N;
  volElem : list CVolumeElementFEM;
  matchingFaces : list CInternalFaceElementFEM;
  VecWallDistanceElements : list su2double;
  VecWallDistanceInternalMatchingFaces : list su2double }.

Definition noPoint : CPointFEM := {| coor := [] |}.
Definition noStandardElement : FEMStandardElementClass :=
  {| elem_GetNIntegration := 0; GetBasisFunctionsIntegration := [] |}.
Definition noStandardInternalFace : FEMStandardInternalFaceClass :=
  {| face_GetNIntegration := 0; GetNDOFsFaceSide0 := 0;
     GetBasisFaceIntegrationSide0 := [] |}.
Definition noStandardBoundaryFace : FEMStandardBoundaryFaceClass :=
  {| GetVTK_Type := 0; GetNSubFaces := 0; GetNDOFsPerSubFace := 0;
     GetSubFaceConn := []; GetNIntegration := 0; GetBasisFaceIntegration := [] |}.

(** ** Step 1: the linear sub-elements of the viscous walls (lines 54-121) *)

(** The vectors local to the routine. *)
Record Locals : Type := {
  meshToSurface : list N;
  surfaceConn : list N;
  elemIDs : list N;
  VTK_TypeElem : list N;
  markerIDs : list N;
  surfaceCoor : list su2double;
  nVertex_SolidWall : N }.

(** The routine's view of memory during step 1: the mesh object and the
    locals. *)
Record Frame : Type := { this : CMeshFEM_DG; locals : Locals }.

Definition set_locals (f : Locals -> Locals) (fr : Frame) : Frame :=
  {| this := this fr; locals := f (locals fr) |}.

Definition viscousWall (config : CConfig) (iMarker : N) : bool :=
  (GetMarker_All_KindBC config iMarker =? HEAT_FLUX)
  || (GetMarker_All_KindBC config iMarker =? ISOTHERMAL).

(** [meshToSurface[g] = 1]. *)
Definition flag_point (g : N) (loc : Locals) : Locals :=
  {| meshToSurface := <[N.to_nat g := 1]> (meshToSurface loc);
     surfaceConn := surfaceConn loc; elemIDs := elemIDs loc;
     VTK_TypeElem := VTK_TypeElem loc; markerIDs := markerIDs loc;
     surfaceCoor := surfaceCoor loc;
     nVertex_SolidWall := nVertex_SolidWall loc |}.

(** The three [push_back]s that open a sub-face. *)
Definition push_subface (iMarker VTK_Type i : N) (loc : Locals) : Locals :=
  {| meshToSurface := meshToSurface loc;
     surfaceConn := surfaceConn loc;
     elemIDs := elemIDs loc ++ [i];
     VTK_TypeElem := VTK_TypeElem loc ++ [VTK_Type];
     markerIDs := markerIDs loc ++ [iMarker];
     surfaceCoor := surfaceCoor loc;
     nVertex_SolidWall := nVertex_SolidWall loc |}.

(** [surfaceConn.push_back(g)]. *)
Definition push_conn (g : N) (loc : Locals) : Locals :=
  {| meshToSurface := meshToSurface loc;
     surfaceConn := surfaceConn loc ++ [g];
     elemIDs := elemIDs loc; VTK_TypeElem := VTK_TypeElem loc;
     markerIDs := markerIDs loc; surfaceCoor := surfaceCoor loc;
     nVertex_SolidWall := nVertex_SolidWall loc |}.

(** Lines 95-96: the inner loop over the DOFs of one sub-face; [ii] is an
    [unsigned short] that runs on across the sub-faces. *)
Definition subface_conn (s : CSurfaceElementFEM) (connSubFaces : list N)
    (nDOFsPerFace : N) (st : N * Frame) : N * Frame :=
  for_loop nDOFsPerFace
    (fun _ '(ii, fr) =>
       (ushort (ii + 1),
        set_locals (push_conn (at_ (DOFsGridFace s) (at_ connSubFaces ii 0) 0)) fr))
    st.

(** Lines 75-97: one surface element [surfElem[i]] of a wall marker. *)
Definition extract_surfElem (iMarker i : N) (s : CSurfaceElementFEM)
    (fr : Frame) : Frame :=
  let fr1 :=
    for_loop (nDOFsGrid s)
      (fun j => set_locals (flag_point (at_ (DOFsGridFace s) j 0))) fr in
  let ind := indStandardElement s in
  let sf := at_ (standardBoundaryFacesGrid (this fr1)) ind noStandardBoundaryFace in
  let VTK_Type := GetVTK_Type sf in
  let nSubFaces := GetNSubFaces sf in
  let nDOFsPerFace := GetNDOFsPerSubFace sf in
  let connSubFaces := GetSubFaceConn sf in
  snd (for_loop nSubFaces
         (fun _ '(ii, fr') =>
            subface_conn s connSubFaces nDOFsPerFace
              (ii, set_locals (push_subface iMarker VTK_Type i) fr'))
         (0, fr1)).

(** Lines 73-98: the loop over the surface elements of one marker. *)
Fixpoint extract_surfElems (iMarker i : N) (elems : list CSurfaceElementFEM)
    (fr : Frame) : Frame :=
  match elems with
  | [] => fr
  | s :: rest => extract_surfElems iMarker (i + 1) rest (extract_surfElem iMarker i s fr)
  end.

(** Lines 65-100: the body of the marker loop. *)
Definition extract_marker (config : CConfig) (iMarker : N) (b : CBoundaryFEM)
    (fr : Frame) : Frame :=
  if negb (periodicBoundary b) then
    if viscousWall config iMarker then extract_surfElems iMarker 0 (surfElem b) fr
    else fr
  else fr.

(** Lines 64-101.  [iMarker] is an [unsigned short] compared with
    [boundaries.size()]: the loop ends only when there are at most 65535
    markers, which [ComputeWall_Distance] below checks. *)
Fixpoint extract_markers (config : CConfig) (iMarker : N) (bs : list CBoundaryFEM)
    (fr : Frame) : Frame :=
  match bs with
  | [] => fr
  | b :: rest => extract_markers config (iMarker + 1) rest (extract_marker config iMarker b fr)
  end.

(** Lines 110-115: mesh point [i] gets the next local number when flagged. *)
Definition number_point (nDim_ : N) (i : nat) (p : CPointFEM) (loc : Locals) : Locals :=
  if nth i (meshToSurface loc) 0 =? 0 then loc
  else
    {| meshToSurface := <[i := nVertex_SolidWall loc]> (meshToSurface loc);
       surfaceConn := surfaceConn loc; elemIDs := elemIDs loc;
       VTK_TypeElem := VTK_TypeElem loc; markerIDs := markerIDs loc;
       surfaceCoor :=
         for_loop nDim_ (fun k sc => sc ++ [at_ (coor p) k zero]) (surfaceCoor loc);
       nVertex_SolidWall := nVertex_SolidWall loc + 1 |}.

(** Lines 109-116. *)
Fixpoint number_points (nDim_ : N) (i : nat) (pts : list CPointFEM) (fr : Frame) : Frame :=
  match pts with
  | [] => fr
  | p :: rest => number_points nDim_ (S i) rest (set_locals (number_point nDim_ i p) fr)
  end.

(** Lines 120-121: [surfaceConn[i] = meshToSurface[surfaceConn[i]]]. *)
Definition remap_conn (loc : Locals) : Locals :=
  {| meshToSurface := meshToSurface loc;
     surfaceConn := map (fun g => at_ (meshToSurface loc) g 0) (surfaceConn loc);
     elemIDs := elemIDs loc; VTK_TypeElem := VTK_TypeElem loc;
     markerIDs := markerIDs loc; surfaceCoor := surfaceCoor loc;
     nVertex_SolidWall := nVertex_SolidWall loc |}.

(** Line 54 and lines 58-61, 106-107: the locals as declared. *)
Definition init_locals (m : CMeshFEM_DG) : Locals :=
  {| meshToSurface := replicate (length (meshPoints m)) 0;
     surfaceConn := []; elemIDs := []; VTK_TypeElem := []; markerIDs := [];
     surfaceCoor := []; nVertex_SolidWall := 0 |}.

(** Lines 64-101: the first pass, flags and unmapped connectivity. *)
Definition Step1_collect (config : CConfig) (fr : Frame) : Frame :=
  extract_markers config 0 (boundaries (this fr)) fr.

(** Lines 54-121. *)
Definition Step1 (config : CConfig) (m : CMeshFEM_DG) : Frame :=
  let fr0 := {| this := m; locals := init_locals m |} in
  let fr1 := Step1_collect config fr0 in
  let fr2 := number_points (nDim (this fr1)) 0 (meshPoints (this fr1)) fr1 in
  set_locals remap_conn fr2.

(** ** Steps 3-5: wall distances of the integration points (lines 150-363) *)

(** What the routine does to the outside, in order: a call of
    [WallADT.DetermineNearestElement] with the coordinates passed, and a
    store [wallDistance[i] = dist] into a result vector. *)
Inductive Event : Type :=
  | Query (who : Consumer) (i : N) (coor_ : list su2double)
  | Store (who : Consumer) (i : N) (dist : su2double).

(** [v.resize(n)]: the first [n] entries are kept, new entries are
    value-initialised. *)
Definition resize (n : N) (v : list su2double) : list su2double :=
  take (N.to_nat n) v ++ replicate (N.to_nat n - length v)%nat zero.

(** Lines 191-198 (and 261-268, 342-349): the coordinates of integration
    point [i], from the basis functions [lag] and the grid DOFs of the
    entity.  [jj] is an [unsigned short]: the product [i*nDOFs], computed in
    [int], is reduced modulo 65536 when it is stored.  [kk] is never used. *)
Definition integration_point_coor (m : CMeshFEM_DG) (lag : list su2double)
    (nDOFs : N) (DOFs : list N) (i : N) : list su2double :=
  let jj := ushort (i * nDOFs) in
  for_loop (nDim m)
    (fun j coor_ =>
       coor_ ++
       [for_loop nDOFs
          (fun k c =>
             add c (mul (at_ lag (jj + k) zero)
                        (at_ (coor (at_ (meshPoints m) (at_ DOFs k 0) noPoint)) j zero)))
          zero])
    [].

(** Lines 177-178 (and 248-249, 328-329): [wallDistance[i] = 0.0]. *)
Definition zero_distances (who : Consumer) (wallDistance_ nInt : N)
    (st : list su2double * list Event) : list su2double * list Event :=
  for_loop nInt
    (fun i '(vec, trace) =>
       (<[N.to_nat (wallDistance_ + i) := zero]> vec, trace ++ [Store who i zero]))
    st.

(** Lines 188-208 (and 258-278, 339-359): one query per integration point. *)
Definition query_distances (WallADT : su2_adtElemClass) (who : Consumer)
    (m : CMeshFEM_DG) (lag : list su2double) (nDOFs : N) (DOFs : list N)
    (wallDistance_ nInt : N) (st : list su2double * list Event) :
    list su2double * list Event :=
  for_loop nInt
    (fun i '(vec, trace) =>
       let coor_ := integration_point_coor m lag nDOFs DOFs i in
       let dist := DetermineNearestElement WallADT coor_ in
       (<[N.to_nat (wallDistance_ + i) := dist]> vec,
        trace ++ [Query who i coor_; Store who i dist]))
    st.

(** The three loops over the entities of a category have one shape: the
    entity gets its pointer [data() + nIntPoints], the counter advances by
    the entity's number of integration points, and the distances of the
    entity are stored. *)
Section EntityLoop.

Variable E : Type.
Variable nInt_of : E -> N.
Variable set_pointer : N -> E -> E.
Variable distances :
  N -> E -> N -> list su2double * list Event -> list su2double * list Event.

(** The counting loops (lines 150-154, 220-224, 294-299). *)
Definition count_nIntPoints (elems : list E) : N :=
  fold_left (fun nIntPoints e => ulong (nIntPoints + nInt_of e)) elems 0.

Fixpoint entity_loop (l : N) (elems : list E) (nIntPoints : N)
    (st : list su2double * list Event) : list E * (list su2double * list Event) :=
  match elems with
  | [] => ([], st)
  | e :: rest =>
      let e' := set_pointer nIntPoints e in
      let st' := distances l e nIntPoints st in
      let '(rest', out) := entity_loop (l + 1) rest (ulong (nIntPoints + nInt_of e)) st' in
      (e' :: rest', out)
  end.

End EntityLoop.

(** *** Step 3: the owned volume elements *)

Definition vol_standardElement (m : CMeshFEM_DG) (e : CVolumeElementFEM) :
    FEMStandardElementClass :=
  at_ (standardElementsGrid m) (vol_indStandardElement e) noStandardElement.

Definition vol_nInt (m : CMeshFEM_DG) (e : CVolumeElementFEM) : N :=
  elem_GetNIntegration (vol_standardElement m e).

Definition set_vol_wallDistance (p : N) (e : CVolumeElementFEM) : CVolumeElementFEM :=
  {| vol_indStandardElement := vol_indStandardElement e;
     vol_nDOFsGrid := vol_nDOFsGrid e;
     nodeIDsGrid := nodeIDsGrid e;
     vol_wallDistance := Some p |}.

(** Lines 173-209. *)
Definition vol_distances (WallADT : su2_adtElemClass) (m : CMeshFEM_DG)
    (l : N) (e : CVolumeElementFEM) (wallDistance_ : N)
    (st : list su2double * list Event) : list su2double * list Event :=
  let nInt := vol_nInt m e in
  let lag := GetBasisFunctionsIntegration (vol_standardElement m e) in
  if IsEmpty WallADT then zero_distances (VolumeElement l) wallDistance_ nInt st
  else
    let nDOFs := vol_nDOFsGrid e in
    let DOFs := nodeIDsGrid e in
    query_distances WallADT (VolumeElement l) m lag nDOFs DOFs wallDistance_ nInt st.

(** Lines 162-210. *)
Definition volElem_loop (WallADT : su2_adtElemClass) (m : CMeshFEM_DG) :=
  entity_loop CVolumeElementFEM (vol_nInt m) set_vol_wallDistance
    (vol_distances WallADT m).

(** *** Step 4: the owned internal matching faces *)

Definition face_standardElement (m : CMeshFEM_DG) (f : CInternalFaceElementFEM) :
    FEMStandardInternalFaceClass :=
  at_ (standardMatchingFacesGrid m) (face_indStandardElement f) noStandardInternalFace.

Definition face_nInt (m : CMeshFEM_DG) (f : CInternalFaceElementFEM) : N :=
  face_GetNIntegration (face_standardElement m f).

Definition set_face_wallDistance (p : N) (f : CInternalFaceElementFEM) :
    CInternalFaceElementFEM :=
  {| face_indStandardElement := face_indStandardElement f;
     DOFsGridFaceSide0 := DOFsGridFaceSide0 f;
     face_wallDistance := Some p |}.

(** Lines 244-279. *)
Definition face_distances (WallADT : su2_adtElemClass) (m : CMeshFEM_DG)
    (l : N) (f : CInternalFaceElementFEM) (wallDistance_ : N)
    (st : list su2double * list Event) : list su2double * list Event :=
  let nInt := face_nInt m f in
  let nDOFs := GetNDOFsFaceSide0 (face_standardElement m f) in
  let lag := GetBasisFaceIntegrationSide0 (face_standardElement m f) in
  if IsEmpty WallADT then zero_distances (MatchingFace l) wallDistance_ nInt st
  else
    let DOFs := DOFsGridFaceSide0 f in
    query_distances WallADT (MatchingFace l) m lag nDOFs DOFs wallDistance_ nInt st.

(** Lines 232-280. *)
Definition matchingFaces_loop (WallADT : su2_adtElemClass) (m : CMeshFEM_DG) :=
  entity_loop CInternalFaceElementFEM (face_nInt m) set_face_wallDistance
    (face_distances WallADT m).

(** *** Step 5: the boundary faces of the markers that are not periodic *)

Definition surf_standardElement (m : CMeshFEM_DG) (s : CSurfaceElementFEM) :
    FEMStandardBoundaryFaceClass :=
  at_ (standardBoundaryFacesGrid m) (indStandardElement s) noStandardBoundaryFace.

Definition surf_nInt (m : CMeshFEM_DG) (s : CSurfaceElementFEM) : N :=
  GetNIntegration (surf_standardElement m s).

Definition set_wallDistance (p : N) (s : CSurfaceElementFEM) : CSurfaceElementFEM :=
  {| indStandardElement := indStandardElement s;
     nDOFsGrid := nDOFsGrid s;
     DOFsGridFace := DOFsGridFace s;
     wallDistance := Some p |}.

(** Lines 323-360. *)
Definition surf_distances (WallADT : su2_adtElemClass) (m : CMeshFEM_DG)
    (isViscousWall : bool) (iMarker l : N) (s : CSurfaceElementFEM)
    (wallDistance_ : N) (st : list su2double * list Event) :
    list su2double * list Event :=
  let nInt := surf_nInt m s in
  let nDOFs := nDOFsGrid s in
  let lag := GetBasisFaceIntegration (surf_standardElement m s) in
  if IsEmpty WallADT || isViscousWall
  then zero_distances (BoundaryFace iMarker l) wallDistance_ nInt st
  else
    let DOFs := DOFsGridFace s in
    query_distances WallADT (BoundaryFace iMarker l) m lag nDOFs DOFs wallDistance_ nInt st.

(** Lines 311-361. *)
Definition surfElem_loop (WallADT : su2_adtElemClass) (m : CMeshFEM_DG)
    (isViscousWall : bool) (iMarker : N) :=
  entity_loop CSurfaceElementFEM (surf_nInt m) set_wallDistance
    (surf_distances WallADT m isViscousWall iMarker).

(** Lines 291-362: the body of the marker loop. *)
Definition boundary_marker (WallADT : su2_adtElemClass) (config : CConfig)
    (m : CMeshFEM_DG) (iMarker : N) (b : CBoundaryFEM) (trace : list Event) :
    CBoundaryFEM * list Event :=
  if negb (periodicBoundary b) then
    let nIntPoints := count_nIntPoints CSurfaceElementFEM (surf_nInt m) (surfElem b) in
    let vec := resize nIntPoints (VecWallDistanceBoundaryFaces b) in
    let '(elems', (vec', trace')) :=
      surfElem_loop WallADT m (viscousWall config iMarker) iMarker 0 (surfElem b) 0
        (vec, trace) in
    ({| periodicBoundary := periodicBoundary b;
        surfElem := elems';
        VecWallDistanceBoundaryFaces := vec' |}, trace')
  else (b, trace).

(** Lines 290-363. *)
Fixpoint boundary_markers (WallADT : su2_adtElemClass) (config : CConfig)
    (m : CMeshFEM_DG) (iMarker : N) (bs : list CBoundaryFEM) (trace : list Event) :
    list CBoundaryFEM * list Event :=
  match bs with
  | [] => ([], trace)
  | b :: rest =>
      let '(b', trace') := boundary_marker WallADT config m iMarker b trace in
      let '(rest', out) := boundary_markers WallADT config m (iMarker + 1) rest trace' in
      (b' :: rest', out)
  end.

(** ** The routine *)

(** Line 131: the tree is built from the locals of step 1.  Lines 136-140
    then release these vectors, which nothing reads afterwards. *)
Definition build_WallADT (m : CMeshFEM_DG) (loc : Locals) : su2_adtElemClass :=
  su2_adtElemClass_new (nDim m) (surfaceCoor loc) (surfaceConn loc)
    (VTK_TypeElem loc) (markerIDs loc) (elemIDs loc).

(** The volume elements the routine visits: [volElem[l]], [l < nVolElemOwned]
    (the source reads out of range when [nVolElemOwned > volElem.size()]). *)
Definition ownedVolElem (m : CMeshFEM_DG) : list CVolumeElementFEM :=
  take (N.to_nat (nVolElemOwned m)) (volElem m).

(** Steps 3 to 5 on the mesh [m], given the tree. *)
Definition populate (WallADT : su2_adtElemClass) (config : CConfig)
    (m : CMeshFEM_DG) : CMeshFEM_DG * list Event :=
  let '(owned', (vecElements, trace3)) :=
    volElem_loop WallADT m 0 (ownedVolElem m) 0
      (resize (count_nIntPoints CVolumeElementFEM (vol_nInt m) (ownedVolElem m))
         (VecWallDistanceElements m), []) in
  let '(faces', (vecFaces, trace4)) :=
    matchingFaces_loop WallADT m 0 (matchingFaces m) 0
      (resize (count_nIntPoints CInternalFaceElementFEM (face_nInt m) (matchingFaces m))
         (VecWallDistanceInternalMatchingFaces m), trace3) in
  let '(boundaries', trace5) :=
    boundary_markers WallADT config m 0 (boundaries m) trace4 in
  ({| nDim := nDim m;
      meshPoints := meshPoints m;
      boundaries := boundaries';
      standardElementsGrid := standardElementsGrid m;
      standardMatchingFacesGrid := standardMatchingFacesGrid m;
      standardBoundaryFacesGrid := standardBoundaryFacesGrid m;
      nVolElemOwned := nVolElemOwned m;
      volElem := owned' ++ drop (N.to_nat (nVolElemOwned m)) (volElem m);
      matchingFaces := faces';
      VecWallDistanceElements := vecElements;
      VecWallDistanceInternalMatchingFaces := vecFaces |}, trace5).

(** [ComputeWall_Distance(config)] on the mesh [m]: the mesh afterwards and
    what the routine did, or [None] when the [unsigned short] marker loops
    cannot end. *)
Definition ComputeWall_Distance (config : CConfig) (m : CMeshFEM_DG) :
    option (CMeshFEM_DG * list Event) :=
  if N.of_nat (length (boundaries m)) <? USHRT_RANGE then
    let fr := Step1 config m in
    Some (populate (build_WallADT (this fr) (locals fr)) config (this fr))
  else None.

(** ** Closed forms used in the statements *)

(** The integration points of a list of entities, without wrap-around. *)
Definition total_nInt {E : Type} (nInt_of : E -> N) (elems : list E) : N :=
  foldr (fun e acc => nInt_of e + acc) 0 elems.

(** The counter [nIntPoints] after the entities [elems], started at [n]. *)
Definition offset_after {E : Type} (nInt_of : E -> N) (n : N) (elems : list E) : N :=
  fold_left (fun nIntPoints e => ulong (nIntPoints + nInt_of e)) elems n.

(** The stores of one entity: [wallDistance[i] = v i] for [i < n]. *)
Definition store_loop (wallDistance_ n : N) (v : N -> su2double)
    (vec : list su2double) : list su2double :=
  for_loop n (fun i vec' => <[N.to_nat (wallDistance_ + i) := v i]> vec') vec.

(** The coordinates of integration point [i] as the table of basis functions
    defines them: in each dimension [j], the sum over the grid nodes [k] of
    [lag[i*nDOFs+k]] times the [j]-th coordinate of node [k], with the index
    [i*nDOFs+k] not wrapped. *)
Definition interpolated_coor (m : CMeshFEM_DG) (lag : list su2double)
    (nDOFs : N) (DOFs : list N) (i : N) : list su2double :=
  map
    (fun j =>
       fold_left
         (fun c k =>
            add c (mul (at_ lag (i * nDOFs + k) zero)
                       (at_ (coor (at_ (meshPoints m) (at_ DOFs k 0) noPoint)) j zero)))
         (Nseq nDOFs) zero)
    (Nseq (nDim m)).

(** The distance stored for integration point [i] of an entity; [quiet]
    is the test of lines 174, 245 and 325. *)
Definition stored_distance (quiet : bool) (WallADT : su2_adtElemClass)
    (m : CMeshFEM_DG) (lag : list su2double) (nDOFs : N) (DOFs : list N) (i : N) :
    su2double :=
  if quiet then zero
  else DetermineNearestElement WallADT (integration_point_coor m lag nDOFs DOFs i).

(** The events of one entity. *)
Definition entity_events (quiet : bool) (WallADT : su2_adtElemClass) (who : Consumer)
    (m : CMeshFEM_DG) (lag : list su2double) (nDOFs : N) (DOFs : list N) (nInt : N) :
    list Event :=
  if quiet then map (fun i => Store who i zero) (Nseq nInt)
  else
    flat_map
      (fun i =>
         [Query who i (integration_point_coor m lag nDOFs DOFs i);
          Store who i
            (DetermineNearestElement WallADT (integration_point_coor m lag nDOFs DOFs i))])
      (Nseq nInt).

(** The distances and the events of a volume element, of a matching face
    and of a boundary face. *)
Definition vol_value (WallADT : su2_adtElemClass) (m : CMeshFEM_DG)
    (e : CVolumeElementFEM) : N -> su2double :=
  stored_distance (IsEmpty WallADT) WallADT m
    (GetBasisFunctionsIntegration (vol_standardElement m e))
    (vol_nDOFsGrid e) (nodeIDsGrid e).

Definition vol_events (WallADT : su2_adtElemClass) (m : CMeshFEM_DG)
    (l : N) (e : CVolumeElementFEM) : list Event :=
  entity_events (IsEmpty WallADT) WallADT (VolumeElement l) m
    (GetBasisFunctionsIntegration (vol_standardElement m e))
    (vol_nDOFsGrid e) (nodeIDsGrid e) (vol_nInt m e).

Definition face_value (WallADT : su2_adtElemClass) (m : CMeshFEM_DG)
    (f : CInternalFaceElementFEM) : N -> su2double :=
  stored_distance (IsEmpty WallADT) WallADT m
    (GetBasisFaceIntegrationSide0 (face_standardElement m f))
    (GetNDOFsFaceSide0 (face_standardElement m f)) (DOFsGridFaceSide0 f).

Definition face_events (WallADT : su2_adtElemClass) (m : CMeshFEM_DG)
    (l : N) (f : CInternalFaceElementFEM) : list Event :=
  entity_events (IsEmpty WallADT) WallADT (MatchingFace l) m
    (GetBasisFaceIntegrationSide0 (face_standardElement m f))
    (GetNDOFsFaceSide0 (face_standardElement m f)) (DOFsGridFaceSide0 f)
    (face_nInt m f).

Definition surf_value (WallADT : su2_adtElemClass) (m : CMeshFEM_DG)
    (isViscousWall : bool) (s : CSurfaceElementFEM) : N -> su2double :=
  stored_distance (IsEmpty WallADT || isViscousWall) WallADT m
    (GetBasisFaceIntegration (surf_standardElement m s))
    (nDOFsGrid s) (DOFsGridFace s).

Definition surf_events (WallADT : su2_adtElemClass) (m : CMeshFEM_DG)
    (isViscousWall : bool) (iMarker l : N) (s : CSurfaceElementFEM) : list Event :=
  entity_events (IsEmpty WallADT || isViscousWall) WallADT (BoundaryFace iMarker l) m
    (GetBasisFaceIntegration (surf_standardElement m s))
    (nDOFsGrid s) (DOFsGridFace s) (surf_nInt m s).

(** Step 1 on one surface element, in closed form: the mesh points it
    flags, the connectivity entries it appends (global mesh-point numbers,
    before the remap of lines 120-121) and the flags after it. *)
Definition flagged_of (s : CSurfaceElementFEM) : list N :=
  map (fun j => at_ (DOFsGridFace s) j 0) (Nseq (nDOFsGrid s)).

Definition raw_conn_of (m : CMeshFEM_DG) (s : CSurfaceElementFEM) : list N :=
  let sf := at_ (standardBoundaryFacesGrid m) (indStandardElement s)
              noStandardBoundaryFace in
  map (fun t => at_ (DOFsGridFace s) (at_ (GetSubFaceConn sf) (ushort t) 0) 0)
    (Nseq (GetNSubFaces sf * GetNDOFsPerSubFace sf)).

Definition flag_points (gs : list N) (flags : list N) : list N :=
  fold_left (fun acc g => <[N.to_nat g := 1]> acc) gs flags.

Definition extract_surfElem_locals (m : CMeshFEM_DG) (iMarker i : N)
    (s : CSurfaceElementFEM) (loc : Locals) : Locals :=
  let sf := at_ (standardBoundaryFacesGrid m) (indStandardElement s)
              noStandardBoundaryFace in
  let n := N.to_nat (GetNSubFaces sf) in
  {| meshToSurface := flag_points (flagged_of s) (meshToSurface loc);
     surfaceConn := surfaceConn loc ++ raw_conn_of m s;
     elemIDs := elemIDs loc ++ replicate n i;
     VTK_TypeElem := VTK_TypeElem loc ++ replicate n (GetVTK_Type sf);
     markerIDs := markerIDs loc ++ replicate n iMarker;
     surfaceCoor := surfaceCoor loc;
     nVertex_SolidWall := nVertex_SolidWall loc |}.

(** The test of lines 65-69. *)
Definition wall_marker (config : CConfig) (iMarker : N) (b : CBoundaryFEM) : bool :=
  negb (periodicBoundary b) && viscousWall config iMarker.

(** The (marker, element) pairs of the sub-elements, in the order in which
    [markerIDs] and [elemIDs] receive them. *)
Fixpoint surfElems_ids (m : CMeshFEM_DG) (iMarker i : N)
    (elems : list CSurfaceElementFEM) : list (N * N) :=
  match elems with
  | [] => []
  | s :: rest =>
      replicate (N.to_nat (GetNSubFaces (surf_standardElement m s))) (iMarker, i)
      ++ surfElems_ids m iMarker (i + 1) rest
  end.

Fixpoint markers_ids (config : CConfig) (m : CMeshFEM_DG) (iMarker : N)
    (bs : list CBoundaryFEM) : list (N * N) :=
  match bs with
  | [] => []
  | b :: rest =>
      (if wall_marker config iMarker b
       then surfElems_ids m iMarker 0 (surfElem b) else [])
      ++ markers_ids config m (iMarker + 1) rest
  end.

(** A sub-element of surface element [i] of marker [iMarker] is among the
    extracted ones. *)
Definition emitted (loc : Locals) (iMarker i : N) : Prop :=
  exists k : nat, markerIDs loc !! k = Some iMarker /\ elemIDs loc !! k = Some i.

(** A wall surface element agrees with its standard element and with the
    mesh: the local node numbers of its sub-faces are below [nDOFsGrid], and
    its grid DOFs are mesh points. *)
Definition surfElem_okb (m : CMeshFEM_DG) (s : CSurfaceElementFEM) : bool :=
  let sf := surf_standardElement m s in
  forallb (fun t => at_ (GetSubFaceConn sf) (ushort t) 0 <? nDOFsGrid s)
    (Nseq (GetNSubFaces sf * GetNDOFsPerSubFace sf))
  && forallb (fun j => at_ (DOFsGridFace s) j 0 <? N.of_nat (length (meshPoints m)))
       (Nseq (nDOFsGrid s)).

(** Every local node of the element is a corner of one of its sub-faces. *)
Definition surfElem_coveredb (m : CMeshFEM_DG) (s : CSurfaceElementFEM) : bool :=
  let sf := surf_standardElement m s in
  forallb
    (fun j =>
       existsb (fun t => at_ (GetSubFaceConn sf) (ushort t) 0 =? j)
         (Nseq (GetNSubFaces sf * GetNDOFsPerSubFace sf)))
    (Nseq (nDOFsGrid s)).

(** [P] holds of every surface element of every wall marker. *)
Fixpoint wall_faces_all (P : CSurfaceElementFEM -> bool) (config : CConfig)
    (iMarker : N) (bs : list CBoundaryFEM) : bool :=
  match bs with
  | [] => true
  | b :: rest =>
      (if wall_marker config iMarker b then forallb P (surfElem b) else true)
      && wall_faces_all P config (iMarker + 1) rest
  end.

Definition wall_faces_ok (config : CConfig) (m : CMeshFEM_DG) : bool :=
  wall_faces_all (surfElem_okb m) config 0 (boundaries m).

Definition wall_faces_covered (config : CConfig) (m : CMeshFEM_DG) : bool :=
  wall_faces_all (surfElem_coveredb m) config 0 (boundaries m).

(** The coordinates pushed for one mesh point (lines 113-114). *)
Definition point_coor (nDim_ : N) (p : CPointFEM) : list su2double :=
  map (fun k => at_ (coor p) k zero) (Nseq nDim_).

(** The flagged mesh points among [i, i + len), in increasing order. *)
Definition wall_nodes (flags : list N) (i len : nat) : list nat :=
  filter (fun g => nth g flags 0 <> 0) (seq i len).

(** The connectivity as the first pass leaves it: global mesh-point numbers. *)
Definition raw_surfaceConn (config : CConfig) (m : CMeshFEM_DG) : list N :=
  surfaceConn (locals (Step1_collect config {| this := m; locals := init_locals m |})).

(** What the first pass keeps true of the flags and the connectivity. *)
Definition flags_sound (npts : nat) (loc : Locals) : Prop :=
  length (meshToSurface loc) = npts /\
  Forall (fun v => v = 0 \/ v = 1) (meshToSurface loc) /\
  forall g, g ∈ surfaceConn loc ->
    (N.to_nat g < npts)%nat /\ nth (N.to_nat g) (meshToSurface loc) 0 = 1.

Definition flags_complete (loc : Locals) : Prop :=
  forall g : nat, nth g (meshToSurface loc) 0 = 1 -> N.of_nat g ∈ surfaceConn loc.

(** The ranges of a category: the vector has one entry per integration
    point of the entities, and entity [k] points at the entry whose index is
    the number of integration points of the entities before it. *)
Definition assigned_ranges {E : Type} (pointer : E -> option N) (nInt_of : E -> N)
    (before after : list E) (vec : list su2double) : Prop :=
  N.of_nat (length vec) = total_nInt nInt_of before /\
  length after = length before /\
  forall (k : nat) e', after !! k = Some e' ->
    exists e, before !! k = Some e /\ nInt_of e' = nInt_of e /\
      pointer e' = Some (total_nInt nInt_of (take k before)).

(** Every entry of the vector lies in the range of exactly one entity. *)
Definition exact_tiling {E : Type} (pointer : E -> option N) (nInt_of : E -> N)
    (after : list E) (vec : list su2double) : Prop :=
  forall s : nat, (s < length vec)%nat ->
    exists! k : nat, exists e' p,
      after !! k = Some e' /\ pointer e' = Some p /\
      p <= N.of_nat s < p + nInt_of e'.

(** Who an event is about. *)
Definition event_consumer (ev : Event) : Consumer :=
  match ev with
  | Query who _ _ => who
  | Store who _ _ => who
  end.

(** The events of the whole pass over the mesh [m]: those of the owned
    volume elements, of the matching faces, and of the boundary faces of the
    markers that are not periodic. *)
Definition run_event (WallADT : su2_adtElemClass) (config : CConfig)
    (m : CMeshFEM_DG) (ev : Event) : Prop :=
  (exists (l : nat) e,
      ownedVolElem m !! l = Some e /\ ev ∈ vol_events WallADT m (N.of_nat l) e)
  \/ (exists (l : nat) f,
      matchingFaces m !! l = Some f /\ ev ∈ face_events WallADT m (N.of_nat l) f)
  \/ (exists (iMarker : nat) b (l : nat) s,
      boundaries m !! iMarker = Some b /\ periodicBoundary b = false /\
      surfElem b !! l = Some s /\
      ev ∈ surf_events WallADT m (viscousWall config (N.of_nat iMarker))
             (N.of_nat iMarker) (N.of_nat l) s).

(** *** The pass in closed form *)

(** The events of the entities [elems], numbered from [l], in loop order. *)
Fixpoint events_of {E : Type} (events : N -> E -> list Event) (l : N)
    (elems : list E) : list Event :=
  match elems with
  | [] => []
  | e :: rest => events l e ++ events_of events (l + 1) rest
  end.

(** The events of one marker (none when it is periodic) and of the markers
    from [iMarker] on. *)
Definition marker_events (WallADT : su2_adtElemClass) (config : CConfig)
    (m : CMeshFEM_DG) (iMarker : N) (b : CBoundaryFEM) : list Event :=
  if periodicBoundary b then []
  else events_of (surf_events WallADT m (viscousWall config iMarker) iMarker) 0
         (surfElem b).

Fixpoint markers_events (WallADT : su2_adtElemClass) (config : CConfig)
    (m : CMeshFEM_DG) (iMarker : N) (bs : list CBoundaryFEM) : list Event :=
  match bs with
  | [] => []
  | b :: rest =>
      marker_events WallADT config m iMarker b
      ++ markers_events WallADT config m (iMarker + 1) rest
  end.

(** Steps 3, 4 and 5, one after the other. *)
Definition run_trace (WallADT : su2_adtElemClass) (config : CConfig)
    (m : CMeshFEM_DG) : list Event :=
  events_of (vol_events WallADT m) 0 (ownedVolElem m)
  ++ events_of (face_events WallADT m) 0 (matchingFaces m)
  ++ markers_events WallADT config m 0 (boundaries m).

(** The entities with their pointers when the counter does not wrap: each
    entity points [nInt_of] entries after the one before it. *)
Fixpoint pointed {E : Type} (set_pointer : N -> E -> E) (nInt_of : E -> N) (n : N)
    (elems : list E) : list E :=
  match elems with
  | [] => []
  | e :: rest => set_pointer n e :: pointed set_pointer nInt_of (n + nInt_of e) rest
  end.

(** The distances of the entities, one block of [nInt_of e] values per
    entity. *)
Definition values_of {E : Type} (nInt_of : E -> N) (value : E -> N -> su2double)
    (elems : list E) : list su2double :=
  flat_map (fun e => map (value e) (Nseq (nInt_of e))) elems.

(** No counter of steps 3 to 5 wraps: the integration points of the owned
    volume elements, of the matching faces and of each marker that is not
    periodic are fewer than 2^64. *)
Definition counts_fit (m : CMeshFEM_DG) : bool :=
  (total_nInt (vol_nInt m) (ownedVolElem m) <? ULONG_RANGE)
  && (total_nInt (face_nInt m) (matchingFaces m) <? ULONG_RANGE)
  && forallb
       (fun b => periodicBoundary b
                 || (total_nInt (surf_nInt m) (surfElem b) <? ULONG_RANGE))
       (boundaries m).

(** A marker and the mesh after the pass, when no counter wraps. *)
Definition populated_marker (WallADT : su2_adtElemClass) (config : CConfig)
    (m : CMeshFEM_DG) (iMarker : N) (b : CBoundaryFEM) : CBoundaryFEM :=
  if periodicBoundary b then b
  else
    {| periodicBoundary := false;
       surfElem := pointed set_wallDistance (surf_nInt m) 0 (surfElem b);
       VecWallDistanceBoundaryFaces :=
         values_of (surf_nInt m)
           (surf_value WallADT m (viscousWall config iMarker)) (surfElem b) |}.

Fixpoint populated_markers (WallADT : su2_adtElemClass) (config : CConfig)
    (m : CMeshFEM_DG) (iMarker : N) (bs : list CBoundaryFEM) : list CBoundaryFEM :=
  match bs with
  | [] => []
  | b :: rest =>
      populated_marker WallADT config m iMarker b
      :: populated_markers WallADT config m (iMarker + 1) rest
  end.

Definition populated (WallADT : su2_adtElemClass) (config : CConfig)
    (m : CMeshFEM_DG) : CMeshFEM_DG :=
  {| nDim := nDim m;
     meshPoints := meshPoints m;
     boundaries := populated_markers WallADT config m 0 (boundaries m);
     standardElementsGrid := standardElementsGrid m;
     standardMatchingFacesGrid := standardMatchingFacesGrid m;
     standardBoundaryFacesGrid := standardBoundaryFacesGrid m;
     nVolElemOwned := nVolElemOwned m;
     volElem :=
       pointed set_vol_wallDistance (vol_nInt m) 0 (ownedVolElem m)
       ++ drop (N.to_nat (nVolElemOwned m)) (volElem m);
     matchingFaces := pointed set_face_wallDistance (face_nInt m) 0 (matchingFaces m);
     VecWallDistanceElements :=
       values_of (vol_nInt m) (vol_value WallADT m) (ownedVolElem m);
     VecWallDistanceInternalMatchingFaces :=
       values_of (face_nInt m) (face_value WallADT m) (matchingFaces m) |}.

(** What the routine reads of an element, a face, a surface element and a
    marker: everything but the wall-distance pointer and vector. *)
Definition vol_data (e : CVolumeElementFEM) : N * N * list N :=
  (vol_indStandardElement e, vol_nDOFsGrid e, nodeIDsGrid e).

Definition face_data (f : CInternalFaceElementFEM) : N * list N :=
  (face_indStandardElement f, DOFsGridFaceSide0 f).

Definition surf_data (s : CSurfaceElementFEM) : N * N * list N :=
  (indStandardElement s, nDOFsGrid s, DOFsGridFace s).

Definition marker_data (b : CBoundaryFEM) : bool * list (N * N * list N) :=
  (periodicBoundary b, map surf_data (surfElem b)).

(** Two meshes that differ at most in wall-distance pointers and vectors. *)
Definition same_data (m1 m2 : CMeshFEM_DG) : Prop :=
  nDim m1 = nDim m2 /\
  meshPoints m1 = meshPoints m2 /\
  standardElementsGrid m1 = standardElementsGrid m2 /\
  standardMatchingFacesGrid m1 = standardMatchingFacesGrid m2 /\
  standardBoundaryFacesGrid m1 = standardBoundaryFacesGrid m2 /\
  nVolElemOwned m1 = nVolElemOwned m2 /\
  map vol_data (volElem m1) = map vol_data (volElem m2) /\
  map face_data (matchingFaces m1) = map face_data (matchingFaces m2) /\
  map marker_data (boundaries m1) = map marker_data (boundaries m2).

(** Queries and stores in a trace. *)
Definition is_Query (ev : Event) : bool :=
  match ev with Query _ _ _ => true | Store _ _ _ => false end.

Definition count_queries (trace : list Event) : N :=
  N.of_nat (length (List.filter is_Query trace)).

Definition count_stores (trace : list Event) : N :=
  N.of_nat (length (List.filter (fun ev => negb (is_Query ev)) trace)).

(** The integration point an event is about, and what identifies an event
    up to the value it carries. *)
Definition event_index (ev : Event) : N :=
  match ev with
  | Query _ i _ => i
  | Store _ i _ => i
  end.

Definition event_key (ev : Event) : bool * Consumer * N :=
  (is_Query ev, event_consumer ev, event_index ev).

(** [i] is an integration point of the entity [who], and [who] is one the
    pass handles: an owned volume element, a matching face, or a boundary
    face of a marker that is not periodic. *)
Definition handled_point (m : CMeshFEM_DG) (who : Consumer) (i : N) : Prop :=
  match who with
  | VolumeElement l =>
      exists (l' : nat) e,
        l = N.of_nat l' /\ ownedVolElem m !! l' = Some e /\ i < vol_nInt m e
  | MatchingFace l =>
      exists (l' : nat) f,
        l = N.of_nat l' /\ matchingFaces m !! l' = Some f /\ i < face_nInt m f
  | BoundaryFace iMarker l =>
      exists (k l' : nat) b s,
        iMarker = N.of_nat k /\ l = N.of_nat l' /\
        boundaries m !! k = Some b /\ periodicBoundary b = false /\
        surfElem b !! l' = Some s /\ i < surf_nInt m s
  end.

(** A handled point that does not lie on a viscous wall (second test of
    line 325). *)
Definition searched_point (config : CConfig) (m : CMeshFEM_DG) (who : Consumer)
    (i : N) : Prop :=
  handled_point m who i /\
  match who with
  | BoundaryFace iMarker _ => viscousWall config iMarker = false
  | _ => True
  end.

(** The integration points the pass handles, and those for which it
    searches the tree (test of lines 174, 245 and 325). *)
Fixpoint markers_points (quiet : N -> bool) (m : CMeshFEM_DG) (iMarker : N)
    (bs : list CBoundaryFEM) : N :=
  match bs with
  | [] => 0
  | b :: rest =>
      (if periodicBoundary b || quiet iMarker then 0
       else total_nInt (surf_nInt m) (surfElem b))
      + markers_points quiet m (iMarker + 1) rest
  end.

Definition handled_points (m : CMeshFEM_DG) : N :=
  total_nInt (vol_nInt m) (ownedVolElem m)
  + total_nInt (face_nInt m) (matchingFaces m)
  + markers_points (fun _ => false) m 0 (boundaries m).

Definition queried_points (WallADT : su2_adtElemClass) (config : CConfig)
    (m : CMeshFEM_DG) : N :=
  if IsEmpty WallADT then 0
  else
    total_nInt (vol_nInt m) (ownedVolElem m)
    + total_nInt (face_nInt m) (matchingFaces m)
    + markers_points (viscousWall config) m 0 (boundaries m).

(** A trace in which every store is [0.0] without a query, or the answer to
    the query just before it for the same integration point. *)
Inductive answered (WallADT : su2_adtElemClass) : list Event -> Prop :=
  | answered_nil : answered WallADT []
  | answered_zero who i t :
      answered WallADT t -> answered WallADT (Store who i zero :: t)
  | answered_query who i coor_ t :
      answered WallADT t ->
      answered WallADT
        (Query who i coor_
         :: Store who i (DetermineNearestElement WallADT coor_) :: t).

(** *** Step 1 in terms of the wall surface elements *)

(** No marker passes the test of lines 65-69. *)
Fixpoint no_wall_marker (config : CConfig) (iMarker : N) (bs : list CBoundaryFEM) :
    bool :=
  match bs with
  | [] => true
  | b :: rest =>
      negb (wall_marker config iMarker b) && no_wall_marker config (iMarker + 1) rest
  end.

(** The sub-elements in the order of extraction, each with its marker, its
    surface element and the VTK type of the element's standard face. *)
Fixpoint surfElems_subs (m : CMeshFEM_DG) (iMarker i : N)
    (elems : list CSurfaceElementFEM) : list (N * N * N) :=
  match elems with
  | [] => []
  | s :: rest =>
      replicate (N.to_nat (GetNSubFaces (surf_standardElement m s)))
        (iMarker, i, GetVTK_Type (surf_standardElement m s))
      ++ surfElems_subs m iMarker (i + 1) rest
  end.

Fixpoint markers_subs (config : CConfig) (m : CMeshFEM_DG) (iMarker : N)
    (bs : list CBoundaryFEM) : list (N * N * N) :=
  match bs with
  | [] => []
  | b :: rest =>
      (if wall_marker config iMarker b
       then surfElems_subs m iMarker 0 (surfElem b) else [])
      ++ markers_subs config m (iMarker + 1) rest
  end.

(** The connectivity of the sub-elements of the wall markers, in global
    mesh-point numbers. *)
Fixpoint markers_conn (config : CConfig) (m : CMeshFEM_DG) (iMarker : N)
    (bs : list CBoundaryFEM) : list N :=
  match bs with
  | [] => []
  | b :: rest =>
      (if wall_marker config iMarker b
       then flat_map (raw_conn_of m) (surfElem b) else [])
      ++ markers_conn config m (iMarker + 1) rest
  end.

(** The grid DOFs of the surface elements of the wall markers (the mesh
    points flagged at lines 76-77), and the mesh points among them in
    increasing order. *)
Fixpoint markers_flagged (config : CConfig) (iMarker : N) (bs : list CBoundaryFEM) :
    list N :=
  match bs with
  | [] => []
  | b :: rest =>
      (if wall_marker config iMarker b then flat_map flagged_of (surfElem b) else [])
      ++ markers_flagged config (iMarker + 1) rest
  end.

Definition wall_surfElem_nodes (config : CConfig) (m : CMeshFEM_DG) : list nat :=
  filter (fun g => N.of_nat g ∈ markers_flagged config 0 (boundaries m))
    (seq 0 (length (meshPoints m))).

(** The sum of [f] over the surface elements of the wall markers. *)
Fixpoint wall_total (f : CSurfaceElementFEM -> N) (config : CConfig) (iMarker : N)
    (bs : list CBoundaryFEM) : N :=
  match bs with
  | [] => 0
  | b :: rest =>
      (if wall_marker config iMarker b
       then foldr (fun s acc => f s + acc) 0 (surfElem b) else 0)
      + wall_total f config (iMarker + 1) rest
  end.

(** ** Loops *)

Lemma for_loop_0 {S : Type} (body : N -> S -> S) (s : S) : for_loop 0 body s = s.
Proof. reflexivity. Qed.

Lemma for_loop_succ {S : Type} (n : N) (body : N -> S -> S) (s : S) :
  for_loop (N.succ n) body s = body n (for_loop n body s).
Proof.
  unfold for_loop. rewrite N2Nat.inj_succ, seq_S, fold_left_app. simpl.
  by rewrite N2Nat.id.
Qed.

(** Loop invariants: [P i s] holds of the state before iteration [i]. *)
Lemma for_loop_inv {S : Type} (P : N -> S -> Prop) (n : N) (body : N -> S -> S) (s : S) :
  P 0 s ->
  (forall i s', i < n -> P i s' -> P (N.succ i) (body i s')) ->
  P n (for_loop n body s).
Proof.
  intros H0 Hstep.
  assert (forall k, k <= n -> P k (for_loop k body s)) as Hall.
  { intros k. induction k as [|k IH] using N.peano_ind; intros Hk.
    - by rewrite for_loop_0.
    - rewrite for_loop_succ. apply Hstep; [lia|]. apply IH. lia. }
  apply Hall. lia.
Qed.

Lemma for_loop_snoc {B : Type} (n : N) (h : N -> list B) (l : list B) :
  for_loop n (fun i acc => acc ++ h i) l = l ++ flat_map h (Nseq n).
Proof.
  induction n as [|n IH] using N.peano_ind.
  - rewrite for_loop_0. simpl. by rewrite app_nil_r.
  - rewrite for_loop_succ, IH. unfold Nseq.
    rewrite N2Nat.inj_succ, seq_S, map_app, flat_map_app. simpl.
    by rewrite N2Nat.id, app_nil_r, app_assoc.
Qed.

Lemma for_loop_pair {A B : Type} (n : N) (f : N -> A -> A) (g : N -> B -> B)
    (st : A * B) :
  for_loop n (fun i '(a, b) => (f i a, g i b)) st
  = (for_loop n f (fst st), for_loop n g (snd st)).
Proof.
  induction n as [|n IH] using N.peano_ind.
  - rewrite !for_loop_0. by destruct st.
  - by rewrite !for_loop_succ, IH.
Qed.

Lemma flat_map_singleton {A B : Type} (f : A -> B) (l : list A) :
  flat_map (fun x => [f x]) l = map f l.
Proof. induction l as [|x l IH]; simpl; [done|]. by rewrite IH. Qed.

Lemma Nseq_succ n : Nseq (N.succ n) = Nseq n ++ [n].
Proof.
  unfold Nseq. rewrite N2Nat.inj_succ, seq_S, map_app. simpl. by rewrite N2Nat.id.
Qed.

Lemma length_Nseq n : length (Nseq n) = N.to_nat n.
Proof. unfold Nseq. by rewrite length_map, length_seq. Qed.

Lemma elem_of_Nseq n i : i ∈ Nseq n <-> i < n.
Proof.
  unfold Nseq. rewrite list_elem_of_fmap. split.
  - intros (k & -> & Hk). apply elem_of_seq in Hk. lia.
  - intros Hi. exists (N.to_nat i). split; [by rewrite N2Nat.id|].
    apply elem_of_seq. lia.
Qed.

(** ** Machine integers *)

Lemma ushort_small x : x < USHRT_RANGE -> ushort x = x.
Proof. unfold ushort. apply N.mod_small. Qed.

Lemma ushort_add_l a b : ushort (ushort a + b) = ushort (a + b).
Proof. unfold ushort. by rewrite N.Div0.add_mod_idemp_l. Qed.

Lemma ulong_lt x : ulong x < ULONG_RANGE.
Proof. unfold ulong, ULONG_RANGE. apply N.mod_lt. lia. Qed.

Lemma ulong_small x : x < ULONG_RANGE -> ulong x = x.
Proof. unfold ulong. apply N.mod_small. Qed.

Lemma ulong_le x : ulong x <= x.
Proof. unfold ulong. apply N.Div0.mod_le. Qed.

(** ** Step 1 leaves the mesh alone *)

Lemma this_set_locals f fr : this (set_locals f fr) = this fr.
Proof. reflexivity. Qed.

Lemma this_subface_conn s conn n st :
  this (snd (subface_conn s conn n st)) = this (snd st).
Proof.
  unfold subface_conn.
  apply (for_loop_inv (fun _ st' => this (snd st') = this (snd st))); [done|].
  intros i [ii fr] _ IH. simpl in *. done.
Qed.

Lemma this_extract_surfElem iMarker i s fr :
  this (extract_surfElem iMarker i s fr) = this fr.
Proof.
  unfold extract_surfElem.
  set (fr1 := for_loop (nDOFsGrid s) _ fr).
  assert (this fr1 = this fr) as H1.
  { subst fr1. by apply (for_loop_inv (fun _ fr' => this fr' = this fr)). }
  rewrite <- H1.
  apply (for_loop_inv (fun _ st' => this (snd st') = this fr1)); [done|].
  intros j [ii fr'] _ IH. simpl in IH. by rewrite this_subface_conn.
Qed.

Lemma this_extract_surfElems iMarker elems : forall i fr,
  this (extract_surfElems iMarker i elems fr) = this fr.
Proof.
  induction elems as [|s rest IH]; intros i fr; simpl; [done|].
  by rewrite IH, this_extract_surfElem.
Qed.

Lemma this_extract_marker config iMarker b fr :
  this (extract_marker config iMarker b fr) = this fr.
Proof.
  unfold extract_marker.
  destruct (negb (periodicBoundary b)); [|done].
  destruct (viscousWall config iMarker); [|done].
  apply this_extract_surfElems.
Qed.

Lemma this_extract_markers config bs : forall iMarker fr,
  this (extract_markers config iMarker bs fr) = this fr.
Proof.
  induction bs as [|b rest IH]; intros iMarker fr; simpl; [done|].
  by rewrite IH, this_extract_marker.
Qed.

Lemma this_number_points nDim_ pts : forall i fr,
  this (number_points nDim_ i pts fr) = this fr.
Proof.
  induction pts as [|p rest IH]; intros i fr; simpl; [done|].
  by rewrite IH.
Qed.

Lemma this_Step1_collect config fr : this (Step1_collect config fr) = this fr.
Proof. apply this_extract_markers. Qed.

Lemma this_Step1 config m : this (Step1 config m) = m.
Proof.
  unfold Step1. rewrite this_set_locals, this_number_points.
  apply this_Step1_collect.
Qed.

(** ** The stores of one entity *)

Lemma store_loop_spec wallDistance_ n v vec :
  length (store_loop wallDistance_ n v vec) = length vec /\
  forall s : nat,
    store_loop wallDistance_ n v vec !! s =
    if decide (N.to_nat wallDistance_ <= s < N.to_nat wallDistance_ + N.to_nat n
               /\ s < length vec)%nat
    then Some (v (N.of_nat s - wallDistance_)) else vec !! s.
Proof.
  unfold store_loop.
  pose (P := fun (i : N) (vec' : list su2double) =>
    length vec' = length vec /\
    forall s : nat, vec' !! s =
      if decide (N.to_nat wallDistance_ <= s < N.to_nat wallDistance_ + N.to_nat i
                 /\ s < length vec)%nat
      then Some (v (N.of_nat s - wallDistance_)) else vec !! s).
  change (P n (for_loop n
    (fun i vec' => <[N.to_nat (wallDistance_ + i) := v i]> vec') vec)).
  apply for_loop_inv; unfold P.
  - split; [done|]. intros s. case_decide; [lia|done].
  - intros i vec' Hi [Hlen Hlook]. split; [by rewrite length_insert|].
    intros s. destruct (decide (s = N.to_nat (wallDistance_ + i))) as [->|Hne].
    + destruct (decide (N.to_nat (wallDistance_ + i) < length vec)%nat) as [Hin|Hout].
      * rewrite list_lookup_insert_eq by lia.
        rewrite decide_True by lia. f_equal. f_equal. lia.
      * rewrite list_insert_ge by lia. rewrite Hlook.
        rewrite !decide_False by lia. done.
    + rewrite list_lookup_insert_ne by done. rewrite Hlook.
      repeat case_decide; try done; lia.
Qed.

Lemma length_store_loop wallDistance_ n v vec :
  length (store_loop wallDistance_ n v vec) = length vec.
Proof. apply store_loop_spec. Qed.

Lemma zero_distances_eq who wallDistance_ nInt st :
  zero_distances who wallDistance_ nInt st
  = (store_loop wallDistance_ nInt (fun _ => zero) (fst st),
     snd st ++ map (fun i => Store who i zero) (Nseq nInt)).
Proof.
  unfold zero_distances, store_loop.
  rewrite (for_loop_pair nInt
    (fun i vec => <[N.to_nat (wallDistance_ + i) := zero]> vec)
    (fun i trace => trace ++ [Store who i zero])).
  by rewrite for_loop_snoc, flat_map_singleton.
Qed.

Lemma query_distances_eq WallADT who m lag nDOFs DOFs wallDistance_ nInt st :
  query_distances WallADT who m lag nDOFs DOFs wallDistance_ nInt st
  = (store_loop wallDistance_ nInt
       (stored_distance false WallADT m lag nDOFs DOFs) (fst st),
     snd st ++ entity_events false WallADT who m lag nDOFs DOFs nInt).
Proof.
  unfold query_distances, store_loop, entity_events, stored_distance.
  rewrite (for_loop_pair nInt
    (fun i vec => <[N.to_nat (wallDistance_ + i) :=
        DetermineNearestElement WallADT (integration_point_coor m lag nDOFs DOFs i)]> vec)
    (fun i trace => trace ++
       [Query who i (integration_point_coor m lag nDOFs DOFs i);
        Store who i
          (DetermineNearestElement WallADT (integration_point_coor m lag nDOFs DOFs i))])).
  by rewrite for_loop_snoc.
Qed.

(** ** The loop over the entities of a category *)

Lemma length_resize n v : length (resize n v) = N.to_nat n.
Proof. unfold resize. rewrite length_app, length_take, length_replicate. lia. Qed.

Section EntityLoopFacts.

Variable E : Type.
Variable nInt_of : E -> N.
Variable set_pointer : N -> E -> E.
Variable distances :
  N -> E -> N -> list su2double * list Event -> list su2double * list Event.
Variable value : N -> E -> N -> su2double.
Variable events : N -> E -> list Event.

Hypothesis distances_eq : forall l e p st,
  distances l e p st
  = (store_loop p (nInt_of e) (value l e) (fst st), snd st ++ events l e).

Local Abbreviation loop := (entity_loop E nInt_of set_pointer distances).

Lemma offset_after_lt elems : forall n,
  n < ULONG_RANGE -> offset_after nInt_of n elems < ULONG_RANGE.
Proof.
  induction elems as [|e rest IH]; intros n Hn; simpl; [done|].
  apply IH, ulong_lt.
Qed.

Lemma offset_after_le elems : forall n,
  offset_after nInt_of n elems <= n + total_nInt nInt_of elems.
Proof.
  induction elems as [|e rest IH]; intros n; simpl; [lia|].
  specialize (IH (ulong (n + nInt_of e))).
  pose proof (ulong_le (n + nInt_of e)). lia.
Qed.

Lemma offset_after_exact elems : forall n,
  n + total_nInt nInt_of elems < ULONG_RANGE ->
  offset_after nInt_of n elems = n + total_nInt nInt_of elems.
Proof.
  induction elems as [|e rest IH]; intros n Hn; simpl in *; [lia|].
  rewrite ulong_small by lia. rewrite IH; lia.
Qed.

Lemma count_nIntPoints_eq elems :
  count_nIntPoints E nInt_of elems = offset_after nInt_of 0 elems.
Proof. reflexivity. Qed.

Lemma total_nInt_take_le k elems :
  total_nInt nInt_of (take k elems) <= total_nInt nInt_of elems.
Proof.
  revert k. induction elems as [|e rest IH]; intros [|k]; simpl; try lia.
  specialize (IH k). lia.
Qed.

Lemma total_nInt_take_S k elems e :
  elems !! k = Some e ->
  total_nInt nInt_of (take (S k) elems) = total_nInt nInt_of (take k elems) + nInt_of e.
Proof.
  revert k. induction elems as [|e0 rest IH]; intros [|k] Hk; simpl in *; try done.
  - injection Hk as ->. lia.
  - rewrite (IH k Hk). simpl. lia.
Qed.

(** The entity [k] gets the counter as it stands after the entities before it. *)
Lemma entity_loop_elems elems : forall l n st k,
  fst (loop l elems n st) !! k
  = set_pointer (offset_after nInt_of n (take k elems)) <$> elems !! k.
Proof.
  induction elems as [|e rest IH]; intros l n st k; simpl; [done|].
  destruct (loop (l + 1) rest (ulong (n + nInt_of e)) (distances l e n st))
    as [rest' out] eqn:Hrec.
  destruct k as [|k]; simpl; [done|].
  specialize (IH (l + 1) (ulong (n + nInt_of e)) (distances l e n st) k).
  by rewrite Hrec in IH.
Qed.

Lemma entity_loop_length elems : forall l n st,
  length (fst (loop l elems n st)) = length elems.
Proof.
  induction elems as [|e rest IH]; intros l n st; simpl; [done|].
  destruct (loop (l + 1) rest (ulong (n + nInt_of e)) (distances l e n st))
    as [rest' out] eqn:Hrec.
  simpl. specialize (IH (l + 1) (ulong (n + nInt_of e)) (distances l e n st)).
  rewrite Hrec in IH. simpl in IH. lia.
Qed.

(** The result vector keeps its length. *)
Lemma entity_loop_length_vec elems : forall l n st,
  length (fst (snd (loop l elems n st))) = length (fst st).
Proof.
  induction elems as [|e rest IH]; intros l n st; simpl; [done|].
  destruct (loop (l + 1) rest (ulong (n + nInt_of e)) (distances l e n st))
    as [rest' out] eqn:Hrec.
  simpl. specialize (IH (l + 1) (ulong (n + nInt_of e)) (distances l e n st)).
  rewrite Hrec in IH. simpl in IH. rewrite IH, distances_eq. simpl.
  apply length_store_loop.
Qed.

(** The events of the loop are those of its entities. *)
Lemma entity_loop_trace elems : forall l n st ev,
  ev ∈ snd (snd (loop l elems n st)) <->
  ev ∈ snd st \/ exists k e, elems !! k = Some e /\ ev ∈ events (l + N.of_nat k) e.
Proof.
  induction elems as [|e rest IH]; intros l n st ev; simpl.
  - split; [by left|]. intros [H|(k & e & Hk & _)]; [done|]. by destruct k.
  - destruct (loop (l + 1) rest (ulong (n + nInt_of e)) (distances l e n st))
      as [rest' out] eqn:Hrec.
    simpl. specialize (IH (l + 1) (ulong (n + nInt_of e)) (distances l e n st) ev).
    rewrite Hrec in IH. simpl in IH. rewrite IH, distances_eq. simpl.
    rewrite elem_of_app. split.
    + intros [[H|H]|(k & e' & Hk & H)].
      * by left.
      * right. exists 0%nat, e. split; [done|]. by rewrite N.add_0_r.
      * right. exists (S k), e'. split; [done|].
        by replace (l + N.of_nat (S k)) with (l + 1 + N.of_nat k) by lia.
    + intros [H|(k & e' & Hk & H)]; [by left; left|].
      destruct k as [|k]; simpl in Hk.
      * injection Hk as ->. left; right. by rewrite N.add_0_r in H.
      * right. exists k, e'. split; [done|].
        by replace (l + 1 + N.of_nat k) with (l + N.of_nat (S k)) by lia.
Qed.

(** When every stored value is [0.0], each entry of the result vector is
    [0.0] or an old entry outside the ranges of the entities; this needs no
    assumption on the counter, which may wrap. *)
Lemma entity_loop_zero elems : forall l n st,
  (forall l' e i, value l' e i = zero) ->
  N.of_nat (length (fst st)) < ULONG_RANGE ->
  forall (s : nat) x,
    fst (snd (loop l elems n st)) !! s = Some x ->
    x = zero \/
    (fst st !! s = Some x /\
     ~ (n <= N.of_nat s < n + total_nInt nInt_of elems)).
Proof.
  induction elems as [|e rest IH]; intros l n st Hzero Hlen s x; simpl.
  - intros H. right. split; [done|lia].
  - destruct (loop (l + 1) rest (ulong (n + nInt_of e)) (distances l e n st))
      as [rest' out] eqn:Hrec.
    simpl. intros Hx.
    specialize (IH (l + 1) (ulong (n + nInt_of e)) (distances l e n st) Hzero).
    rewrite Hrec in IH. simpl in IH.
    rewrite distances_eq in IH. simpl in IH.
    rewrite length_store_loop in IH.
    destruct (IH Hlen s x Hx) as [->|[Hs Hout]]; [by left|].
    destruct (store_loop_spec n (nInt_of e) (value l e) (fst st)) as [_ Hlook].
    rewrite Hlook in Hs. case_decide as Hin.
    + left. injection Hs as <-. apply Hzero.
    + right. split; [done|].
      apply lookup_lt_Some in Hs.
      destruct (decide (n + nInt_of e < ULONG_RANGE)) as [Hfit|Hwrap].
      * rewrite ulong_small in Hout by done. lia.
      * lia.
Qed.

(** Hence after [resize] to the counted length the vector holds only [0.0]. *)
Lemma entity_loop_all_zero elems l old trace :
  (forall l' e i, value l' e i = zero) ->
  Forall (fun x => x = zero)
    (fst (snd (loop l elems 0
       (resize (count_nIntPoints E nInt_of elems) old, trace)))).
Proof.
  intros Hzero. apply Forall_lookup. intros s x Hx.
  pose proof (offset_after_lt elems 0 ltac:(unfold ULONG_RANGE; lia)) as Hlt.
  pose proof (offset_after_le elems 0) as Hle.
  rewrite <- count_nIntPoints_eq in Hlt, Hle.
  assert (N.of_nat (length (resize (count_nIntPoints E nInt_of elems) old))
          < ULONG_RANGE) as Hlen.
  { rewrite length_resize. lia. }
  destruct (entity_loop_zero elems l 0
              (resize (count_nIntPoints E nInt_of elems) old, trace)
              Hzero Hlen s x Hx) as [->|[Hs Hout]]; [done|].
  apply lookup_lt_Some in Hs. simpl in Hs. rewrite length_resize in Hs. lia.
Qed.

(** Without wrap-around the pointers are the running sums. *)
Variable pointer : E -> option N.
Hypothesis pointer_set : forall p e, pointer (set_pointer p e) = Some p.
Hypothesis nInt_of_set : forall p e, nInt_of (set_pointer p e) = nInt_of e.

Lemma entity_loop_assigned elems l old trace :
  total_nInt nInt_of elems < ULONG_RANGE ->
  let out := loop l elems 0 (resize (count_nIntPoints E nInt_of elems) old, trace) in
  assigned_ranges pointer nInt_of elems (fst out) (fst (snd out)).
Proof.
  intros Hfit out. subst out. split; [|split].
  - rewrite entity_loop_length_vec. simpl. rewrite length_resize, N2Nat.id.
    rewrite count_nIntPoints_eq, offset_after_exact; [lia|]. by rewrite N.add_0_l.
  - apply entity_loop_length.
  - intros k e' Hk. rewrite entity_loop_elems in Hk.
    destruct (elems !! k) as [e|] eqn:He; simpl in Hk; [|done].
    injection Hk as <-. exists e. split; [done|].
    rewrite nInt_of_set, pointer_set. split; [done|].
    f_equal. rewrite offset_after_exact; [lia|].
    pose proof (total_nInt_take_le k elems). lia.
Qed.

Lemma total_nInt_take_mono (k k' : nat) elems :
  (k <= k')%nat ->
  total_nInt nInt_of (take k elems) <= total_nInt nInt_of (take k' elems).
Proof.
  intros Hk. replace (take k elems) with (take k (take k' elems)).
  - apply total_nInt_take_le.
  - rewrite take_take. f_equal. lia.
Qed.

Lemma total_nInt_cover elems : forall s,
  s < total_nInt nInt_of elems ->
  exists (k : nat) e, elems !! k = Some e /\
    total_nInt nInt_of (take k elems) <= s
      < total_nInt nInt_of (take k elems) + nInt_of e.
Proof.
  induction elems as [|e rest IH]; intros s Hs; simpl in Hs; [lia|].
  destruct (decide (s < nInt_of e)) as [Hin|Hout].
  - exists 0%nat, e. simpl. split; [done|lia].
  - destruct (IH (s - nInt_of e)) as (k & e' & Hk & Hr); [lia|].
    exists (S k), e'. simpl. split; [done|lia].
Qed.

Lemma assigned_ranges_tiling before after vec :
  assigned_ranges pointer nInt_of before after vec ->
  exact_tiling pointer nInt_of after vec.
Proof.
  intros (Hlen & Hlen' & Hptr) s Hs.
  destruct (total_nInt_cover before (N.of_nat s)) as (k & e & Hk & Hr); [lia|].
  assert (is_Some (after !! k)) as [e' He'].
  { apply lookup_lt_is_Some. rewrite Hlen'. by apply lookup_lt_Some in Hk. }
  destruct (Hptr k e' He') as (e0 & He0 & Hn & Hp).
  assert (e0 = e) as -> by congruence.
  exists k. split.
  - exists e', (total_nInt nInt_of (take k before)). rewrite Hn. done.
  - intros k2 (e2' & p2 & He2' & Hp2 & Hr2).
    destruct (Hptr k2 e2' He2') as (e2 & He2 & Hn2 & Hp2').
    rewrite Hp2 in Hp2'. injection Hp2' as ->. rewrite Hn2 in Hr2.
    destruct (Nat.lt_trichotomy k k2) as [Hlt|[Heq|Hgt]]; [|done|].
    + pose proof (total_nInt_take_mono (S k) k2 before ltac:(lia)) as Hm.
      rewrite (total_nInt_take_S k before e Hk) in Hm. lia.
    + pose proof (total_nInt_take_mono (S k2) k before ltac:(lia)) as Hm.
      rewrite (total_nInt_take_S k2 before e2 He2) in Hm. lia.
Qed.

End EntityLoopFacts.

(** ** The three categories *)

Lemma vol_distances_eq WallADT m l e p st :
  vol_distances WallADT m l e p st
  = (store_loop p (vol_nInt m e) (vol_value WallADT m e) (fst st),
     snd st ++ vol_events WallADT m l e).
Proof.
  unfold vol_distances, vol_value, vol_events, stored_distance, entity_events.
  destruct (IsEmpty WallADT).
  - apply zero_distances_eq.
  - apply query_distances_eq.
Qed.

Lemma face_distances_eq WallADT m l f p st :
  face_distances WallADT m l f p st
  = (store_loop p (face_nInt m f) (face_value WallADT m f) (fst st),
     snd st ++ face_events WallADT m l f).
Proof.
  unfold face_distances, face_value, face_events, stored_distance, entity_events.
  destruct (IsEmpty WallADT).
  - apply zero_distances_eq.
  - apply query_distances_eq.
Qed.

Lemma surf_distances_eq WallADT m isViscousWall iMarker l s p st :
  surf_distances WallADT m isViscousWall iMarker l s p st
  = (store_loop p (surf_nInt m s) (surf_value WallADT m isViscousWall s) (fst st),
     snd st ++ surf_events WallADT m isViscousWall iMarker l s).
Proof.
  unfold surf_distances, surf_value, surf_events, stored_distance, entity_events.
  destruct (IsEmpty WallADT || isViscousWall).
  - apply zero_distances_eq.
  - apply query_distances_eq.
Qed.

(** The events of a quiet entity are stores of [0.0]. *)
Lemma entity_events_quiet WallADT who m lag nDOFs DOFs nInt ev :
  ev ∈ entity_events true WallADT who m lag nDOFs DOFs nInt ->
  exists i, i < nInt /\ ev = Store who i zero.
Proof.
  unfold entity_events. rewrite list_elem_of_fmap.
  intros (i & -> & Hi). apply elem_of_Nseq in Hi. eauto.
Qed.

(** The events of any entity name that entity. *)
Lemma entity_events_who quiet WallADT who m lag nDOFs DOFs nInt ev :
  ev ∈ entity_events quiet WallADT who m lag nDOFs DOFs nInt ->
  exists i, i < nInt /\
    (ev = Store who i (stored_distance quiet WallADT m lag nDOFs DOFs i) \/
     (quiet = false /\ ev = Query who i (integration_point_coor m lag nDOFs DOFs i))).
Proof.
  unfold entity_events, stored_distance. destruct quiet.
  - rewrite list_elem_of_fmap. intros (i & -> & Hi).
    apply elem_of_Nseq in Hi. eauto.
  - rewrite list_elem_of_In, in_flat_map. intros (i & Hi & Hev).
    apply list_elem_of_In, elem_of_Nseq in Hi.
    exists i. split; [done|]. simpl in Hev.
    destruct Hev as [<-|[<-|[]]]; eauto.
Qed.

(** ** The marker loop of step 5 *)

Lemma boundary_marker_periodic WallADT config m iMarker b trace :
  periodicBoundary b = true ->
  boundary_marker WallADT config m iMarker b trace = (b, trace).
Proof. unfold boundary_marker. by intros ->. Qed.

Lemma boundary_marker_handled WallADT config m iMarker b trace :
  periodicBoundary b = false ->
  let out :=
    surfElem_loop WallADT m (viscousWall config iMarker) iMarker 0 (surfElem b) 0
      (resize (count_nIntPoints CSurfaceElementFEM (surf_nInt m) (surfElem b))
         (VecWallDistanceBoundaryFaces b), trace) in
  boundary_marker WallADT config m iMarker b trace
  = ({| periodicBoundary := false;
        surfElem := fst out;
        VecWallDistanceBoundaryFaces := fst (snd out) |}, snd (snd out)).
Proof.
  intros Hb. unfold boundary_marker. rewrite Hb. simpl.
  by destruct (surfElem_loop _ _ _ _ _ _ _ _) as [elems' [vec' trace']].
Qed.

Lemma boundary_marker_flag WallADT config m iMarker b trace :
  periodicBoundary (fst (boundary_marker WallADT config m iMarker b trace))
  = periodicBoundary b.
Proof.
  destruct (periodicBoundary b) eqn:Hb.
  - by rewrite boundary_marker_periodic.
  - by rewrite boundary_marker_handled.
Qed.

Lemma boundary_marker_trace WallADT config m iMarker b trace ev :
  ev ∈ snd (boundary_marker WallADT config m iMarker b trace) <->
  ev ∈ trace \/
  (periodicBoundary b = false /\
   exists (l : nat) s, surfElem b !! l = Some s /\
     ev ∈ surf_events WallADT m (viscousWall config iMarker) iMarker (N.of_nat l) s).
Proof.
  destruct (periodicBoundary b) eqn:Hb.
  - rewrite boundary_marker_periodic by done. simpl.
    split; [by left|]. by intros [H|[H _]].
  - rewrite boundary_marker_handled by done. simpl.
    unfold surfElem_loop.
    rewrite (entity_loop_trace _ _ _ _ _ _
               (surf_distances_eq WallADT m (viscousWall config iMarker) iMarker)).
    simpl. split.
    + intros [H|(l & s & Hl & H)]; [by left|]. right. split; [done|].
      exists l, s. by rewrite N.add_0_l in H.
    + intros [H|(_ & l & s & Hl & H)]; [by left|]. right.
      exists l, s. by rewrite N.add_0_l.
Qed.

Lemma boundary_markers_lookup WallADT config m bs : forall iMarker trace (k : nat) b,
  bs !! k = Some b ->
  exists trace_k,
    fst (boundary_markers WallADT config m iMarker bs trace) !! k
    = Some (fst (boundary_marker WallADT config m (iMarker + N.of_nat k) b trace_k)).
Proof.
  induction bs as [|b0 rest IH]; intros iMarker trace k b Hk; simpl in *; [done|].
  destruct (boundary_marker WallADT config m iMarker b0 trace) as [b' trace'] eqn:Hb.
  destruct (boundary_markers WallADT config m (iMarker + 1) rest trace')
    as [rest' out] eqn:Hrec.
  destruct k as [|k]; simpl in *.
  - injection Hk as ->. exists trace. by rewrite N.add_0_r, Hb.
  - destruct (IH (iMarker + 1) trace' k b Hk) as [trace_k Htk].
    exists trace_k. rewrite Hrec in Htk. simpl in Htk.
    by replace (iMarker + N.of_nat (S k)) with (iMarker + 1 + N.of_nat k) by lia.
Qed.

Lemma boundary_markers_length WallADT config m bs : forall iMarker trace,
  length (fst (boundary_markers WallADT config m iMarker bs trace)) = length bs.
Proof.
  induction bs as [|b0 rest IH]; intros iMarker trace; simpl; [done|].
  destruct (boundary_marker WallADT config m iMarker b0 trace) as [b' trace'].
  specialize (IH (iMarker + 1) trace').
  destruct (boundary_markers WallADT config m (iMarker + 1) rest trace')
    as [rest' out].
  simpl in *. lia.
Qed.

Lemma boundary_markers_trace WallADT config m bs : forall iMarker trace ev,
  ev ∈ snd (boundary_markers WallADT config m iMarker bs trace) <->
  ev ∈ trace \/
  exists (k : nat) b (l : nat) s,
    bs !! k = Some b /\ periodicBoundary b = false /\ surfElem b !! l = Some s /\
    ev ∈ surf_events WallADT m (viscousWall config (iMarker + N.of_nat k))
           (iMarker + N.of_nat k) (N.of_nat l) s.
Proof.
  induction bs as [|b0 rest IH]; intros iMarker trace ev; simpl.
  - split; [by left|]. intros [H|(k & b & _ & _ & Hk & _)]; [done|]. by destruct k.
  - destruct (boundary_marker WallADT config m iMarker b0 trace) as [b' trace'] eqn:Hb.
    specialize (IH (iMarker + 1) trace' ev).
    destruct (boundary_markers WallADT config m (iMarker + 1) rest trace')
      as [rest' out].
    simpl in *. rewrite IH.
    pose proof (boundary_marker_trace WallADT config m iMarker b0 trace ev) as Hm.
    rewrite Hb in Hm. simpl in Hm. rewrite Hm. split.
    + intros [[H|(Hp & l & s & Hl & H)]|(k & b & l & s & Hk & Hp & Hl & H)].
      * by left.
      * right. exists 0%nat, b0, l, s. by rewrite N.add_0_r.
      * right. exists (S k), b, l, s.
        by replace (iMarker + N.of_nat (S k)) with (iMarker + 1 + N.of_nat k) by lia.
    + intros [H|(k & b & l & s & Hk & Hp & Hl & H)]; [by left; left|].
      destruct k as [|k]; simpl in Hk.
      * injection Hk as ->. left; right. split; [done|].
        exists l, s. by rewrite N.add_0_r in H.
      * right. exists k, b, l, s.
        by replace (iMarker + 1 + N.of_nat k) with (iMarker + N.of_nat (S k)) by lia.
Qed.

(** ** The whole pass *)

Lemma populate_trace WallADT config m ev :
  ev ∈ snd (populate WallADT config m) <-> run_event WallADT config m ev.
Proof.
  unfold populate, run_event.
  destruct (volElem_loop _ _ _ _ _ _) as [owned' [vecElements trace3]] eqn:H3.
  destruct (matchingFaces_loop _ _ _ _ _ _) as [faces' [vecFaces trace4]] eqn:H4.
  destruct (boundary_markers _ _ _ _ _ _) as [boundaries' trace5] eqn:H5.
  simpl.
  pose proof (boundary_markers_trace WallADT config m (boundaries m) 0 trace4 ev) as E5.
  rewrite H5 in E5. simpl in E5. rewrite E5.
  pose proof (entity_loop_trace CInternalFaceElementFEM (face_nInt m)
                set_face_wallDistance (face_distances WallADT m)
                (fun _ => face_value WallADT m) (face_events WallADT m)
                (face_distances_eq WallADT m)
                (matchingFaces m) 0 0
                (resize (count_nIntPoints CInternalFaceElementFEM (face_nInt m)
                           (matchingFaces m))
                   (VecWallDistanceInternalMatchingFaces m), trace3) ev) as E4.
  unfold matchingFaces_loop in H4. rewrite H4 in E4. simpl in E4. rewrite E4.
  pose proof (entity_loop_trace CVolumeElementFEM (vol_nInt m)
                set_vol_wallDistance (vol_distances WallADT m)
                (fun _ => vol_value WallADT m) (vol_events WallADT m)
                (vol_distances_eq WallADT m)
                (ownedVolElem m) 0 0
                (resize (count_nIntPoints CVolumeElementFEM (vol_nInt m)
                           (ownedVolElem m))
                   (VecWallDistanceElements m), []) ev) as E3.
  unfold volElem_loop in H3. rewrite H3 in E3. simpl in E3. rewrite E3.
  rewrite elem_of_nil. tauto.
Qed.

Lemma populate_VecWallDistanceElements WallADT config m :
  VecWallDistanceElements (fst (populate WallADT config m))
  = fst (snd (volElem_loop WallADT m 0 (ownedVolElem m) 0
      (resize (count_nIntPoints CVolumeElementFEM (vol_nInt m) (ownedVolElem m))
         (VecWallDistanceElements m), []))).
Proof.
  unfold populate.
  destruct (volElem_loop _ _ _ _ _ _) as [owned' [vecElements trace3]].
  destruct (matchingFaces_loop _ _ _ _ _ _) as [faces' [vecFaces trace4]].
  by destruct (boundary_markers _ _ _ _ _ _) as [boundaries' trace5].
Qed.

Lemma populate_volElem WallADT config m :
  volElem (fst (populate WallADT config m))
  = fst (volElem_loop WallADT m 0 (ownedVolElem m) 0
      (resize (count_nIntPoints CVolumeElementFEM (vol_nInt m) (ownedVolElem m))
         (VecWallDistanceElements m), []))
    ++ drop (N.to_nat (nVolElemOwned m)) (volElem m).
Proof.
  unfold populate.
  destruct (volElem_loop _ _ _ _ _ _) as [owned' [vecElements trace3]].
  destruct (matchingFaces_loop _ _ _ _ _ _) as [faces' [vecFaces trace4]].
  by destruct (boundary_markers _ _ _ _ _ _) as [boundaries' trace5].
Qed.

Lemma populate_matchingFaces WallADT config m :
  exists trace3,
    matchingFaces (fst (populate WallADT config m))
    = fst (matchingFaces_loop WallADT m 0 (matchingFaces m) 0
        (resize (count_nIntPoints CInternalFaceElementFEM (face_nInt m)
                   (matchingFaces m))
           (VecWallDistanceInternalMatchingFaces m), trace3)) /\
    VecWallDistanceInternalMatchingFaces (fst (populate WallADT config m))
    = fst (snd (matchingFaces_loop WallADT m 0 (matchingFaces m) 0
        (resize (count_nIntPoints CInternalFaceElementFEM (face_nInt m)
                   (matchingFaces m))
           (VecWallDistanceInternalMatchingFaces m), trace3))).
Proof.
  unfold populate.
  destruct (volElem_loop _ _ _ _ _ _) as [owned' [vecElements trace3]].
  exists trace3.
  destruct (matchingFaces_loop _ _ _ _ _ _) as [faces' [vecFaces trace4]].
  by destruct (boundary_markers _ _ _ _ _ _) as [boundaries' trace5].
Qed.

Lemma populate_boundaries WallADT config m :
  exists trace4,
    boundaries (fst (populate WallADT config m))
    = fst (boundary_markers WallADT config m 0 (boundaries m) trace4).
Proof.
  unfold populate.
  destruct (volElem_loop _ _ _ _ _ _) as [owned' [vecElements trace3]].
  destruct (matchingFaces_loop _ _ _ _ _ _) as [faces' [vecFaces trace4]].
  exists trace4.
  by destruct (boundary_markers _ _ _ _ _ _) as [boundaries' trace5].
Qed.

(** The marker [iMarker] after the pass is the loop body applied to it. *)
Lemma populate_boundary WallADT config m (iMarker : nat) b :
  boundaries m !! iMarker = Some b ->
  exists trace_k,
    boundaries (fst (populate WallADT config m)) !! iMarker
    = Some (fst (boundary_marker WallADT config m (N.of_nat iMarker) b trace_k)).
Proof.
  intros Hb. destruct (populate_boundaries WallADT config m) as [trace4 ->].
  destruct (boundary_markers_lookup WallADT config m (boundaries m) 0 trace4
              iMarker b Hb) as [trace_k Hk].
  exists trace_k. by rewrite N.add_0_l in Hk.
Qed.

(** The routine ends exactly when the marker count fits [unsigned short],
    and then it is step 1 followed by the pass over the same mesh. *)
Lemma ComputeWall_Distance_runs config m :
  N.of_nat (length (boundaries m)) < USHRT_RANGE ->
  ComputeWall_Distance config m
  = Some (populate (build_WallADT m (locals (Step1 config m))) config m).
Proof.
  intros Hfit. unfold ComputeWall_Distance.
  apply N.ltb_lt in Hfit. rewrite Hfit. by rewrite this_Step1.
Qed.

Lemma ComputeWall_Distance_is_Some config m :
  is_Some (ComputeWall_Distance config m) <->
  N.of_nat (length (boundaries m)) < USHRT_RANGE.
Proof.
  unfold ComputeWall_Distance.
  destruct (N.ltb_spec (N.of_nat (length (boundaries m))) USHRT_RANGE) as [H|H].
  - split; [done|]. by eexists.
  - split; [|lia]. by intros [x Hx].
Qed.

Lemma viscousWall_true config iMarker :
  viscousWall config iMarker = true <->
  GetMarker_All_KindBC config iMarker = HEAT_FLUX \/
  GetMarker_All_KindBC config iMarker = ISOTHERMAL.
Proof. unfold viscousWall. rewrite orb_true_iff, !N.eqb_eq. done. Qed.

Lemma vol_events_consumer WallADT m l e ev :
  ev ∈ vol_events WallADT m l e -> event_consumer ev = VolumeElement l.
Proof.
  intros H. apply entity_events_who in H as (i & _ & [->|[_ ->]]); done.
Qed.

Lemma face_events_consumer WallADT m l f ev :
  ev ∈ face_events WallADT m l f -> event_consumer ev = MatchingFace l.
Proof.
  intros H. apply entity_events_who in H as (i & _ & [->|[_ ->]]); done.
Qed.

Lemma surf_events_consumer WallADT m isViscousWall iMarker l s ev :
  ev ∈ surf_events WallADT m isViscousWall iMarker l s ->
  event_consumer ev = BoundaryFace iMarker l.
Proof.
  intros H. apply entity_events_who in H as (i & _ & [->|[_ ->]]); done.
Qed.

(** The events about the faces of marker [iMarker] come from that marker,
    which is then not periodic. *)
Lemma run_event_marker WallADT config m ev (iMarker : nat) l :
  run_event WallADT config m ev ->
  event_consumer ev = BoundaryFace (N.of_nat iMarker) l ->
  exists b (l' : nat) s,
    boundaries m !! iMarker = Some b /\ periodicBoundary b = false /\
    surfElem b !! l' = Some s /\ l = N.of_nat l' /\
    ev ∈ surf_events WallADT m (viscousWall config (N.of_nat iMarker))
           (N.of_nat iMarker) l s.
Proof.
  intros [(k & e & _ & H)|[(k & f & _ & H)|(k & b & l' & s & Hk & Hp & Hl & H)]] Hwho.
  - apply vol_events_consumer in H. congruence.
  - apply face_events_consumer in H. congruence.
  - pose proof (surf_events_consumer _ _ _ _ _ _ _ H) as Hc.
    rewrite Hwho in Hc. injection Hc as Hk' Hl'.
    apply Nat2N.inj in Hk'. subst k l. eauto 10.
Qed.

(** ** Step 1 in closed form *)

Lemma Nseq_add a b : Nseq (a + b) = Nseq a ++ map (N.add a) (Nseq b).
Proof.
  induction b as [|b IH] using N.peano_ind.
  - rewrite N.add_0_r. simpl. by rewrite app_nil_r.
  - rewrite N.add_succ_r, !Nseq_succ, IH, map_app, app_assoc. done.
Qed.

Lemma Locals_eta loc :
  loc = {| meshToSurface := meshToSurface loc; surfaceConn := surfaceConn loc;
           elemIDs := elemIDs loc; VTK_TypeElem := VTK_TypeElem loc;
           markerIDs := markerIDs loc; surfaceCoor := surfaceCoor loc;
           nVertex_SolidWall := nVertex_SolidWall loc |}.
Proof. by destruct loc. Qed.

Lemma Frame_eta fr : fr = {| this := this fr; locals := locals fr |}.
Proof. by destruct fr. Qed.

(** Lines 76-77. *)
Lemma flag_loop_locals s fr :
  locals (for_loop (nDOFsGrid s)
            (fun j => set_locals (flag_point (at_ (DOFsGridFace s) j 0))) fr)
  = {| meshToSurface := flag_points (flagged_of s) (meshToSurface (locals fr));
       surfaceConn := surfaceConn (locals fr); elemIDs := elemIDs (locals fr);
       VTK_TypeElem := VTK_TypeElem (locals fr); markerIDs := markerIDs (locals fr);
       surfaceCoor := surfaceCoor (locals fr);
       nVertex_SolidWall := nVertex_SolidWall (locals fr) |}.
Proof.
  unfold flagged_of.
  induction (nDOFsGrid s) as [|n IH] using N.peano_ind.
  - rewrite for_loop_0. apply Locals_eta.
  - rewrite for_loop_succ. simpl. rewrite IH. unfold flag_point. simpl.
    rewrite Nseq_succ, map_app. unfold flag_points.
    by rewrite fold_left_app.
Qed.

(** Lines 95-96, started with [ii = ushort t0]. *)
Lemma subface_conn_spec s conn nDOFsPerFace t0 fr :
  subface_conn s conn nDOFsPerFace (ushort t0, fr)
  = (ushort (t0 + nDOFsPerFace),
     set_locals (fun loc =>
       {| meshToSurface := meshToSurface loc;
          surfaceConn := surfaceConn loc ++
            map (fun k => at_ (DOFsGridFace s) (at_ conn (ushort (t0 + k)) 0) 0)
              (Nseq nDOFsPerFace);
          elemIDs := elemIDs loc; VTK_TypeElem := VTK_TypeElem loc;
          markerIDs := markerIDs loc; surfaceCoor := surfaceCoor loc;
          nVertex_SolidWall := nVertex_SolidWall loc |}) fr).
Proof.
  unfold subface_conn.
  induction nDOFsPerFace as [|n IH] using N.peano_ind.
  - rewrite for_loop_0, N.add_0_r. f_equal. unfold set_locals. simpl.
    rewrite app_nil_r, <- Locals_eta. apply Frame_eta.
  - rewrite for_loop_succ, IH. simpl. f_equal.
    + rewrite ushort_add_l. f_equal. lia.
    + unfold set_locals, push_conn. simpl.
      by rewrite Nseq_succ, map_app, app_assoc.
Qed.

(** Lines 75-97. *)
Lemma extract_surfElem_spec iMarker i s fr :
  extract_surfElem iMarker i s fr
  = {| this := this fr;
       locals := extract_surfElem_locals (this fr) iMarker i s (locals fr) |}.
Proof.
  unfold extract_surfElem.
  set (fr1 := for_loop (nDOFsGrid s) _ fr).
  assert (this fr1 = this fr) as Hthis.
  { subst fr1. by apply (for_loop_inv (fun _ fr' => this fr' = this fr)). }
  assert (locals fr1 = _) as Hloc by apply (flag_loop_locals s fr).
  rewrite Hthis. clearbody fr1.
  set (sf := at_ (standardBoundaryFacesGrid (this fr)) (indStandardElement s)
               noStandardBoundaryFace).
  unfold extract_surfElem_locals, raw_conn_of. fold sf.
  set (g := fun t => at_ (DOFsGridFace s) (at_ (GetSubFaceConn sf) (ushort t) 0) 0).
  assert (forall n,
    for_loop n
      (fun _ '(ii, fr') =>
         subface_conn s (GetSubFaceConn sf) (GetNDOFsPerSubFace sf)
           (ii, set_locals (push_subface iMarker (GetVTK_Type sf) i) fr'))
      (0, fr1)
    = (ushort (n * GetNDOFsPerSubFace sf),
       {| this := this fr;
          locals :=
            {| meshToSurface := meshToSurface (locals fr1);
               surfaceConn := surfaceConn (locals fr1) ++
                 map g (Nseq (n * GetNDOFsPerSubFace sf));
               elemIDs := elemIDs (locals fr1) ++ replicate (N.to_nat n) i;
               VTK_TypeElem := VTK_TypeElem (locals fr1) ++
                 replicate (N.to_nat n) (GetVTK_Type sf);
               markerIDs := markerIDs (locals fr1) ++ replicate (N.to_nat n) iMarker;
               surfaceCoor := surfaceCoor (locals fr1);
               nVertex_SolidWall := nVertex_SolidWall (locals fr1) |} |})) as Hloop.
  { intros n. induction n as [|n IH] using N.peano_ind.
    - rewrite for_loop_0. simpl. rewrite !app_nil_r, <- Locals_eta, <- Hthis.
      f_equal. apply Frame_eta.
    - rewrite for_loop_succ, IH. rewrite subface_conn_spec.
      f_equal; [f_equal; lia|].
      unfold set_locals, push_subface. simpl. f_equal.
      rewrite N2Nat.inj_succ, !replicate_S_end, <- !app_assoc.
      f_equal.
      replace (N.succ n * GetNDOFsPerSubFace sf)
        with (n * GetNDOFsPerSubFace sf + GetNDOFsPerSubFace sf) by lia.
      rewrite Nseq_add, map_app, map_map. done. }
  rewrite Hloop. simpl. rewrite Hloc. simpl. done.
Qed.

(** *** The marker and element IDs of the sub-elements *)

Lemma wall_marker_true config iMarker b :
  wall_marker config iMarker b = true <->
  periodicBoundary b = false /\
  (GetMarker_All_KindBC config iMarker = HEAT_FLUX \/
   GetMarker_All_KindBC config iMarker = ISOTHERMAL).
Proof.
  unfold wall_marker. rewrite andb_true_iff, negb_true_iff.
  unfold viscousWall. rewrite orb_true_iff, !N.eqb_eq. done.
Qed.

Lemma extract_marker_wall config iMarker b fr :
  extract_marker config iMarker b fr
  = if wall_marker config iMarker b
    then extract_surfElems iMarker 0 (surfElem b) fr else fr.
Proof.
  unfold extract_marker, wall_marker.
  by destruct (periodicBoundary b), (viscousWall config iMarker).
Qed.

Lemma extract_surfElems_ids iMarker elems : forall i fr,
  markerIDs (locals (extract_surfElems iMarker i elems fr))
  = markerIDs (locals fr) ++ map fst (surfElems_ids (this fr) iMarker i elems) /\
  elemIDs (locals (extract_surfElems iMarker i elems fr))
  = elemIDs (locals fr) ++ map snd (surfElems_ids (this fr) iMarker i elems).
Proof.
  induction elems as [|s rest IH]; intros i fr; simpl.
  - by rewrite !app_nil_r.
  - destruct (IH (i + 1) (extract_surfElem iMarker i s fr)) as [-> ->].
    rewrite extract_surfElem_spec. simpl.
    rewrite !map_app, !app_assoc. unfold surf_standardElement.
    split; f_equal; f_equal; symmetry; apply fmap_replicate.
Qed.

Lemma extract_markers_ids config bs : forall iMarker fr,
  markerIDs (locals (extract_markers config iMarker bs fr))
  = markerIDs (locals fr) ++ map fst (markers_ids config (this fr) iMarker bs) /\
  elemIDs (locals (extract_markers config iMarker bs fr))
  = elemIDs (locals fr) ++ map snd (markers_ids config (this fr) iMarker bs).
Proof.
  induction bs as [|b rest IH]; intros iMarker fr; simpl.
  - by rewrite !app_nil_r.
  - destruct (IH (iMarker + 1) (extract_marker config iMarker b fr)) as [-> ->].
    rewrite this_extract_marker, extract_marker_wall.
    destruct (wall_marker config iMarker b).
    + destruct (extract_surfElems_ids iMarker (surfElem b) 0 fr) as [-> ->].
      by rewrite !map_app, !app_assoc.
    + done.
Qed.

Lemma number_points_ids nDim_ pts : forall i fr,
  markerIDs (locals (number_points nDim_ i pts fr)) = markerIDs (locals fr) /\
  elemIDs (locals (number_points nDim_ i pts fr)) = elemIDs (locals fr) /\
  surfaceConn (locals (number_points nDim_ i pts fr)) = surfaceConn (locals fr).
Proof.
  induction pts as [|p rest IH]; intros i fr; simpl; [done|].
  destruct (IH (S i) (set_locals (number_point nDim_ i p) fr)) as (-> & -> & ->).
  unfold number_point. simpl.
  by destruct (nth i (meshToSurface (locals fr)) 0 =? 0).
Qed.

Lemma Step1_ids config m :
  markerIDs (locals (Step1 config m)) = map fst (markers_ids config m 0 (boundaries m)) /\
  elemIDs (locals (Step1 config m)) = map snd (markers_ids config m 0 (boundaries m)).
Proof.
  unfold Step1. simpl.
  destruct (number_points_ids
              (nDim (this (Step1_collect config
                             {| this := m; locals := init_locals m |}))) 
              (meshPoints (this (Step1_collect config
                             {| this := m; locals := init_locals m |}))) 0
              (Step1_collect config {| this := m; locals := init_locals m |}))
    as (-> & -> & _).
  unfold Step1_collect. simpl.
  by destruct (extract_markers_ids config (boundaries m) 0
                 {| this := m; locals := init_locals m |}) as [-> ->].
Qed.

Lemma elem_of_surfElems_ids m iMarker elems : forall i0 M i,
  (M, i) ∈ surfElems_ids m iMarker i0 elems <->
  M = iMarker /\
  exists (k : nat) s, elems !! k = Some s /\ i = i0 + N.of_nat k /\
    0 < GetNSubFaces (surf_standardElement m s).
Proof.
  induction elems as [|s rest IH]; intros i0 M i; simpl.
  - rewrite elem_of_nil. split; [done|]. intros (_ & k & s & Hk & _). by destruct k.
  - rewrite elem_of_app, IH, elem_of_replicate. split.
    + intros [[Heq Hn]|(-> & k & s' & Hk & -> & Hs)].
      * injection Heq as -> ->. split; [done|].
        exists 0%nat, s. split; [done|]. split; lia.
      * split; [done|]. exists (S k), s'. split; [done|]. split; [lia|done].
    + intros (-> & [|k] & s' & Hk & -> & Hs); simpl in Hk.
      * injection Hk as ->. left. split; [f_equal; lia|lia].
      * right. split; [done|]. exists k, s'. split; [done|]. split; [lia|done].
Qed.

Lemma elem_of_markers_ids config m bs : forall iMarker0 M i,
  (M, i) ∈ markers_ids config m iMarker0 bs <->
  exists (k : nat) b (l : nat) s,
    bs !! k = Some b /\ M = iMarker0 + N.of_nat k /\
    wall_marker config M b = true /\
    surfElem b !! l = Some s /\ i = N.of_nat l /\
    0 < GetNSubFaces (surf_standardElement m s).
Proof.
  induction bs as [|b rest IH]; intros iMarker0 M i; simpl.
  - rewrite elem_of_nil. split; [done|]. intros (k & b & _ & _ & Hk & _). by destruct k.
  - rewrite elem_of_app, IH. split.
    + intros [H|(k & b' & l & s & Hk & -> & Hw & Hl & -> & Hs)].
      * destruct (wall_marker config iMarker0 b) eqn:Hw; [|by apply elem_of_nil in H].
        apply elem_of_surfElems_ids in H as (-> & l & s & Hl & -> & Hs).
        exists 0%nat, b, l, s. rewrite N.add_0_r, N.add_0_l. done.
      * exists (S k), b', l, s.
        replace (iMarker0 + N.of_nat (S k)) with (iMarker0 + 1 + N.of_nat k) by lia.
        done.
    + intros ([|k] & b' & l & s & Hk & -> & Hw & Hl & -> & Hs); simpl in Hk.
      * injection Hk as ->. left. rewrite N.add_0_r in *. rewrite Hw.
        apply elem_of_surfElems_ids. split; [done|]. exists l, s.
        by rewrite N.add_0_l.
      * right. exists k, b', l, s.
        replace (iMarker0 + 1 + N.of_nat k) with (iMarker0 + N.of_nat (S k)) by lia.
        done.
Qed.

Lemma emitted_ids config m M i :
  emitted (locals (Step1 config m)) M i <->
  (M, i) ∈ markers_ids config m 0 (boundaries m).
Proof.
  unfold emitted. destruct (Step1_ids config m) as [-> ->].
  rewrite list_elem_of_lookup. split.
  - intros (k & Hk1 & Hk2). exists k.
    rewrite list_lookup_fmap in Hk1, Hk2.
    destruct (markers_ids config m 0 (boundaries m) !! k) as [[M' i']|]; [|done].
    simpl in *. congruence.
  - intros (k & Hk). exists k. rewrite !list_lookup_fmap, Hk. done.
Qed.

Lemma elem_of_markerIDs config m M :
  M ∈ markerIDs (locals (Step1 config m)) <->
  exists i, (M, i) ∈ markers_ids config m 0 (boundaries m).
Proof.
  destruct (Step1_ids config m) as [-> _]. rewrite list_elem_of_fmap. split.
  - intros ([M' i] & -> & H). by exists i.
  - intros (i & H). by exists (M, i).
Qed.

(** C3: sub-elements are extracted from a boundary marker exactly when the
    marker is not periodic and its boundary condition is [HEAT_FLUX] or
    [ISOTHERMAL]: each surface element of the marker that has sub-faces gets
    its sub-elements extracted if and only if both hold; the marker's number
    appears in [markerIDs] only if both hold; and a periodic marker
    contributes nothing, whatever its boundary condition. *)
Theorem wall_marker_subelements config m (iMarker : nat) b :
  boundaries m !! iMarker = Some b ->
  (forall (i : nat) s,
      surfElem b !! i = Some s ->
      0 < GetNSubFaces (surf_standardElement m s) ->
      (emitted (locals (Step1 config m)) (N.of_nat iMarker) (N.of_nat i) <->
       periodicBoundary b = false /\
       (GetMarker_All_KindBC config (N.of_nat iMarker) = HEAT_FLUX \/
        GetMarker_All_KindBC config (N.of_nat iMarker) = ISOTHERMAL))) /\
  (N.of_nat iMarker ∈ markerIDs (locals (Step1 config m)) ->
   periodicBoundary b = false /\
   (GetMarker_All_KindBC config (N.of_nat iMarker) = HEAT_FLUX \/
    GetMarker_All_KindBC config (N.of_nat iMarker) = ISOTHERMAL)) /\
  (periodicBoundary b = true ->
   N.of_nat iMarker ∉ markerIDs (locals (Step1 config m))).
Proof.
  intros Hb.
  assert (forall i, (N.of_nat iMarker, i) ∈ markers_ids config m 0 (boundaries m) ->
            wall_marker config (N.of_nat iMarker) b = true) as Honly.
  { intros i H. apply elem_of_markers_ids in H
      as (k & b' & l & s & Hk & HM & Hw & _).
    rewrite N.add_0_l in HM. apply Nat2N.inj in HM. subst k.
    by replace b with b' by congruence. }
  split; [|split].
  - intros i s Hs Hsub. rewrite emitted_ids, <- wall_marker_true. split.
    + apply Honly.
    + intros Hw. apply elem_of_markers_ids.
      exists iMarker, b, i, s. by rewrite N.add_0_l.
  - intros H. apply elem_of_markerIDs in H as [i H].
    apply wall_marker_true. by apply (Honly i).
  - intros Hp H. apply elem_of_markerIDs in H as [i H].
    apply Honly, wall_marker_true in H as [H _]. congruence.
Qed.

(** *** The flags and the connectivity after the first pass *)

Lemma length_flag_points gs : forall flags,
  length (flag_points gs flags) = length flags.
Proof.
  induction gs as [|x gs IH]; intros flags; simpl; [done|].
  unfold flag_points in *. simpl. by rewrite IH, length_insert.
Qed.

Lemma flag_points_bits gs : forall flags,
  Forall (fun v => v = 0 \/ v = 1) flags ->
  Forall (fun v => v = 0 \/ v = 1) (flag_points gs flags).
Proof.
  induction gs as [|x gs IH]; intros flags H; simpl; [done|].
  unfold flag_points in *. simpl. apply IH, Forall_insert; [done|by right].
Qed.

Lemma nth_insert (l : list N) (i g : nat) v :
  nth g (<[i := v]> l) 0
  = if decide (i = g /\ (i < length l)%nat) then v else nth g l 0.
Proof.
  rewrite !nth_lookup, list_lookup_insert. by case_decide.
Qed.

Lemma flag_points_nth gs : forall flags (g : nat),
  nth g (flag_points gs flags) 0
  = if decide (N.of_nat g ∈ gs /\ (g < length flags)%nat) then 1
    else nth g flags 0.
Proof.
  induction gs as [|x gs IH]; intros flags g.
  - case_decide as H; [|done]. destruct H as [H _]. by apply elem_of_nil in H.
  - unfold flag_points in *. simpl. rewrite IH, length_insert, nth_insert.
    destruct (decide (N.of_nat g ∈ gs /\ (g < length flags)%nat)) as [[H1 H2]|H1].
    + rewrite decide_True; [done|]. split; [by apply elem_of_cons; right|done].
    + destruct (decide (N.to_nat x = g /\ (N.to_nat x < length flags)%nat))
        as [[H3 H4]|H3].
      * rewrite decide_True; [done|]. split; [|lia].
        apply elem_of_cons. left. lia.
      * rewrite decide_False; [done|]. intros [H5 H6].
        apply elem_of_cons in H5 as [H5|H5]; [apply H3; split; lia|by apply H1].
Qed.

Lemma elem_of_flagged_of s g :
  g ∈ flagged_of s <-> exists j, j < nDOFsGrid s /\ g = at_ (DOFsGridFace s) j 0.
Proof.
  unfold flagged_of. rewrite list_elem_of_fmap. split.
  - intros (j & -> & Hj). apply elem_of_Nseq in Hj. eauto.
  - intros (j & Hj & ->). exists j. split; [done|]. by apply elem_of_Nseq.
Qed.

Lemma elem_of_raw_conn_of m s g :
  g ∈ raw_conn_of m s <->
  exists t,
    t < GetNSubFaces (surf_standardElement m s)
        * GetNDOFsPerSubFace (surf_standardElement m s) /\
    g = at_ (DOFsGridFace s)
          (at_ (GetSubFaceConn (surf_standardElement m s)) (ushort t) 0) 0.
Proof.
  unfold raw_conn_of, surf_standardElement. simpl. rewrite list_elem_of_fmap. split.
  - intros (t & -> & Ht). apply elem_of_Nseq in Ht. eauto.
  - intros (t & Ht & ->). exists t. split; [done|]. by apply elem_of_Nseq.
Qed.

Lemma surfElem_okb_true m s :
  surfElem_okb m s = true ->
  (forall t,
      t < GetNSubFaces (surf_standardElement m s)
          * GetNDOFsPerSubFace (surf_standardElement m s) ->
      at_ (GetSubFaceConn (surf_standardElement m s)) (ushort t) 0 < nDOFsGrid s) /\
  (forall j, j < nDOFsGrid s ->
      at_ (DOFsGridFace s) j 0 < N.of_nat (length (meshPoints m))).
Proof.
  unfold surfElem_okb. simpl. rewrite andb_true_iff, !forallb_forall.
  intros [H1 H2]. split.
  - intros t Ht. apply N.ltb_lt, H1, list_elem_of_In, elem_of_Nseq, Ht.
  - intros j Hj. apply N.ltb_lt, H2, list_elem_of_In, elem_of_Nseq, Hj.
Qed.

Lemma surfElem_coveredb_true m s j :
  surfElem_coveredb m s = true -> j < nDOFsGrid s ->
  exists t,
    t < GetNSubFaces (surf_standardElement m s)
        * GetNDOFsPerSubFace (surf_standardElement m s) /\
    at_ (GetSubFaceConn (surf_standardElement m s)) (ushort t) 0 = j.
Proof.
  unfold surfElem_coveredb. simpl. rewrite forallb_forall. intros H Hj.
  specialize (H j). rewrite existsb_exists in H.
  destruct H as (t & Ht & Heq).
  - by apply list_elem_of_In, elem_of_Nseq.
  - exists t. split.
    + by apply elem_of_Nseq, list_elem_of_In.
    + by apply N.eqb_eq.
Qed.

Lemma extract_surfElem_locals_sound m iMarker i s loc :
  surfElem_okb m s = true ->
  flags_sound (length (meshPoints m)) loc ->
  flags_sound (length (meshPoints m)) (extract_surfElem_locals m iMarker i s loc).
Proof.
  intros Hok (Hlen & Hbits & Hconn).
  destruct (surfElem_okb_true m s Hok) as [Hsub Hdof].
  unfold flags_sound, extract_surfElem_locals. simpl.
  split; [by rewrite length_flag_points|].
  split; [by apply flag_points_bits|].
  intros g Hg. rewrite flag_points_nth. apply elem_of_app in Hg as [Hg|Hg].
  - destruct (Hconn g Hg) as [Hlt Hone]. split; [done|]. by case_decide.
  - apply elem_of_raw_conn_of in Hg as (t & Ht & ->).
    specialize (Hsub t Ht). specialize (Hdof _ Hsub).
    split; [lia|]. rewrite decide_True; [done|]. split; [|lia].
    rewrite N2Nat.id. apply elem_of_flagged_of. eauto.
Qed.

Lemma extract_surfElem_locals_complete m iMarker i s loc :
  surfElem_coveredb m s = true ->
  flags_complete loc ->
  flags_complete (extract_surfElem_locals m iMarker i s loc).
Proof.
  intros Hcov Hcomp g. unfold extract_surfElem_locals. simpl.
  rewrite flag_points_nth, elem_of_app. case_decide as Hin.
  - intros _. right. destruct Hin as [Hin _].
    apply elem_of_flagged_of in Hin as (j & Hj & ->).
    destruct (surfElem_coveredb_true m s j Hcov Hj) as (t & Ht & <-).
    apply elem_of_raw_conn_of. eauto.
  - intros H. left. by apply Hcomp.
Qed.

Lemma extract_surfElems_inv (Q : Locals -> Prop) (P : CSurfaceElementFEM -> bool)
    m iMarker elems :
  (forall i s loc, P s = true -> Q loc -> Q (extract_surfElem_locals m iMarker i s loc)) ->
  forall i fr,
    this fr = m -> forallb P elems = true -> Q (locals fr) ->
    Q (locals (extract_surfElems iMarker i elems fr)).
Proof.
  intros Hstep. induction elems as [|s rest IH]; intros i fr Hm Hall HQ; simpl; [done|].
  simpl in Hall. apply andb_true_iff in Hall as [Hs Hrest].
  apply IH; [by rewrite this_extract_surfElem|done|].
  rewrite extract_surfElem_spec. simpl. rewrite Hm. by apply Hstep.
Qed.

Lemma extract_markers_inv (Q : Locals -> Prop) (P : CSurfaceElementFEM -> bool)
    config m bs :
  (forall iMarker i s loc,
      P s = true -> Q loc -> Q (extract_surfElem_locals m iMarker i s loc)) ->
  forall iMarker fr,
    this fr = m -> wall_faces_all P config iMarker bs = true -> Q (locals fr) ->
    Q (locals (extract_markers config iMarker bs fr)).
Proof.
  intros Hstep. induction bs as [|b rest IH]; intros iMarker fr Hm Hall HQ; simpl; [done|].
  simpl in Hall. apply andb_true_iff in Hall as [Hb Hrest].
  apply IH; [by rewrite this_extract_marker|done|].
  rewrite extract_marker_wall. destruct (wall_marker config iMarker b); [|done].
  by apply (extract_surfElems_inv Q P m iMarker (surfElem b) (Hstep iMarker)).
Qed.

Lemma init_locals_sound m : flags_sound (length (meshPoints m)) (init_locals m).
Proof.
  unfold flags_sound, init_locals. simpl.
  split; [by rewrite length_replicate|].
  split; [apply Forall_replicate; by left|].
  intros g Hg. by apply elem_of_nil in Hg.
Qed.

Lemma init_locals_complete m : flags_complete (init_locals m).
Proof.
  intros g. unfold init_locals. simpl. rewrite nth_lookup.
  destruct (replicate (length (meshPoints m)) 0 !! g) as [v|] eqn:Hv; simpl; [|done].
  apply lookup_replicate in Hv as [-> _]. done.
Qed.

Lemma Step1_collect_sound config m :
  wall_faces_ok config m = true ->
  flags_sound (length (meshPoints m))
    (locals (Step1_collect config {| this := m; locals := init_locals m |})).
Proof.
  intros Hok. unfold Step1_collect. simpl.
  apply (extract_markers_inv (flags_sound (length (meshPoints m))) (surfElem_okb m)
           config m); [|done|done|apply init_locals_sound].
  intros iMarker i s loc. apply extract_surfElem_locals_sound.
Qed.

Lemma Step1_collect_complete config m :
  wall_faces_covered config m = true ->
  flags_complete
    (locals (Step1_collect config {| this := m; locals := init_locals m |})).
Proof.
  intros Hcov. unfold Step1_collect. simpl.
  apply (extract_markers_inv flags_complete (surfElem_coveredb m)
           config m); [|done|done|apply init_locals_complete].
  intros iMarker i s loc. apply extract_surfElem_locals_complete.
Qed.

(** *** The numbering pass (lines 109-116) *)

Lemma wall_nodes_S flags i n :
  wall_nodes flags i (S n)
  = if decide (nth i flags 0 <> 0) then i :: wall_nodes flags (S i) n
    else wall_nodes flags (S i) n.
Proof. unfold wall_nodes. simpl. by rewrite filter_cons. Qed.

Lemma wall_nodes_ext flags flags' n : forall i,
  (forall g, (i <= g)%nat -> nth g flags 0 = nth g flags' 0) ->
  wall_nodes flags i n = wall_nodes flags' i n.
Proof.
  induction n as [|n IH]; intros i H; [done|].
  rewrite !wall_nodes_S, (IH (S i)) by (intros; apply H; lia).
  by rewrite (H i) by lia.
Qed.

Lemma wall_nodes_ge flags i n g : g ∈ wall_nodes flags i n -> (i <= g < i + n)%nat.
Proof.
  unfold wall_nodes. rewrite list_elem_of_filter, elem_of_seq. lia.
Qed.

Lemma push_point_coor nDim_ p sc :
  for_loop nDim_ (fun k sc' => sc' ++ [at_ (coor p) k zero]) sc
  = sc ++ point_coor nDim_ p.
Proof.
  rewrite (for_loop_snoc nDim_ (fun k => [at_ (coor p) k zero]) sc).
  by rewrite flat_map_singleton.
Qed.

Lemma drop_cons_inv {A : Type} (l : list A) i x rest :
  drop i l = x :: rest -> l !! i = Some x /\ drop (S i) l = rest.
Proof.
  intros H. assert (l !! i = Some x) as Hx.
  { rewrite <- (Nat.add_0_r i), <- lookup_drop, H. done. }
  split; [done|]. rewrite (drop_S l x i Hx) in H. congruence.
Qed.

Lemma number_points_spec nDim_ allpts pts : forall i fr,
  drop i allpts = pts ->
  length (meshToSurface (locals fr)) = length allpts ->
  let loc := locals fr in
  let loc' := locals (number_points nDim_ i pts fr) in
  length (meshToSurface loc') = length allpts /\
  (forall g, (g < i)%nat ->
     nth g (meshToSurface loc') 0 = nth g (meshToSurface loc) 0) /\
  (forall g, (i <= g)%nat -> nth g (meshToSurface loc) 0 <> 0 ->
     nth g (meshToSurface loc') 0
     = nVertex_SolidWall loc
       + N.of_nat (length (wall_nodes (meshToSurface loc) i (g - i)))) /\
  nVertex_SolidWall loc'
  = nVertex_SolidWall loc
    + N.of_nat (length (wall_nodes (meshToSurface loc) i (length pts))) /\
  surfaceCoor loc'
  = surfaceCoor loc
    ++ flat_map (fun g => point_coor nDim_ (nth g allpts noPoint))
         (wall_nodes (meshToSurface loc) i (length pts)).
Proof.
  induction pts as [|p rest IH]; intros i fr Hdrop Hlen loc loc'; subst loc loc'.
  - simpl. split; [done|]. split; [done|]. split.
    + intros g Hg Hflag. exfalso. apply Hflag.
      apply nth_overflow. rewrite Hlen.
      apply (f_equal length) in Hdrop. rewrite length_drop in Hdrop. simpl in Hdrop.
      lia.
    + unfold wall_nodes. simpl. by rewrite N.add_0_r, app_nil_r.
  - apply drop_cons_inv in Hdrop as [Hp Hdrop].
    assert (i < length allpts)%nat as Hi by (by apply lookup_lt_Some in Hp).
    assert (nth i allpts noPoint = p) as Hnth by (by apply nth_lookup_Some).
    simpl number_points.
    set (fr1 := set_locals (number_point nDim_ i p) fr).
    assert (length (meshToSurface (locals fr1)) = length allpts) as Hlen1.
    { subst fr1. simpl. unfold number_point.
      destruct (nth i (meshToSurface (locals fr)) 0 =? 0); simpl; [done|].
      by rewrite length_insert. }
    destruct (IH (S i) fr1 Hdrop Hlen1) as (Hl & Hlow & Hflagged & HnV & Hcoor).
    split; [done|].
    destruct (N.eqb_spec (nth i (meshToSurface (locals fr)) 0) 0) as [Hz|Hnz].
    + (* mesh point [i] is not on a wall *)
      assert (locals fr1 = locals fr) as Hsame.
      { subst fr1. simpl. unfold number_point.
        by rewrite (proj2 (N.eqb_eq _ _) Hz). }
      rewrite Hsame in *.
      assert (forall n, wall_nodes (meshToSurface (locals fr)) i (S n)
                        = wall_nodes (meshToSurface (locals fr)) (S i) n) as Hskip.
      { intros n. rewrite wall_nodes_S. by rewrite decide_False by (by intros ?). }
      split; [intros g Hg; apply Hlow; lia|]. split.
      * intros g Hg Hflag.
        destruct (decide (g = i)) as [->|Hne]; [done|].
        rewrite Hflagged by (done || lia).
        replace (g - i)%nat with (S (g - S i)) by lia. by rewrite Hskip.
      * simpl length. rewrite Hskip. done.
    + (* mesh point [i] is on a wall: it gets the number [nVertex_SolidWall] *)
      assert (locals fr1
              = {| meshToSurface :=
                     <[i := nVertex_SolidWall (locals fr)]> (meshToSurface (locals fr));
                   surfaceConn := surfaceConn (locals fr);
                   elemIDs := elemIDs (locals fr);
                   VTK_TypeElem := VTK_TypeElem (locals fr);
                   markerIDs := markerIDs (locals fr);
                   surfaceCoor := surfaceCoor (locals fr) ++ point_coor nDim_ p;
                   nVertex_SolidWall := nVertex_SolidWall (locals fr) + 1 |}) as Hloc1.
      { subst fr1. simpl. unfold number_point.
        rewrite (proj2 (N.eqb_neq _ _) Hnz). by rewrite push_point_coor. }
      rewrite Hloc1 in *. simpl in *.
      assert (forall n,
        wall_nodes (<[i := nVertex_SolidWall (locals fr)]> (meshToSurface (locals fr)))
          (S i) n
        = wall_nodes (meshToSurface (locals fr)) (S i) n) as Hext.
      { intros n. apply wall_nodes_ext. intros g Hg.
        rewrite nth_insert. rewrite decide_False; [done|lia]. }
      assert (forall n, wall_nodes (meshToSurface (locals fr)) i (S n)
                        = i :: wall_nodes (meshToSurface (locals fr)) (S i) n) as Hcons.
      { intros n. rewrite wall_nodes_S. by rewrite decide_True. }
      split; [|split; [|split]].
      * intros g Hg. rewrite Hlow by lia. rewrite nth_insert.
        rewrite decide_False; [done|lia].
      * intros g Hg Hflag. destruct (decide (g = i)) as [->|Hne].
        -- rewrite Hlow by lia. rewrite nth_insert, decide_True by lia.
           rewrite Nat.sub_diag. unfold wall_nodes. simpl. lia.
        -- rewrite Hflagged; [|lia|].
           ++ rewrite Hext. replace (g - i)%nat with (S (g - S i)) by lia.
              rewrite Hcons. simpl length. lia.
           ++ rewrite nth_insert. rewrite decide_False; [done|lia].
      * rewrite HnV, Hext, Hcons. simpl length. lia.
      * rewrite Hcoor, Hext, Hcons. simpl flat_map.
        by rewrite Hnth, <- app_assoc.
Qed.

Lemma wall_nodes_app flags i a b :
  wall_nodes flags i (a + b)
  = wall_nodes flags i a ++ wall_nodes flags (i + a) b.
Proof. unfold wall_nodes. by rewrite seq_app, list.filter_app. Qed.

Lemma NoDup_wall_nodes flags i n : NoDup (wall_nodes flags i n).
Proof. apply list.NoDup_filter, NoDup_seq. Qed.

Lemma wall_nodes_split flags n g :
  (g < n)%nat -> nth g flags 0 <> 0 ->
  wall_nodes flags 0 n
  = wall_nodes flags 0 g ++ g :: wall_nodes flags (S g) (n - S g).
Proof.
  intros Hg Hflag. replace n with (g + S (n - S g))%nat at 1 by lia.
  rewrite wall_nodes_app, wall_nodes_S. simpl. by rewrite decide_True.
Qed.

(** The number a flagged mesh point gets is its position among the flagged
    mesh points. *)
Lemma wall_nodes_rank flags n k g :
  wall_nodes flags 0 n !! k = Some g -> length (wall_nodes flags 0 g) = k.
Proof.
  intros Hk.
  assert (g ∈ wall_nodes flags 0 n) as Hin by (by apply list_elem_of_lookup; exists k).
  pose proof (wall_nodes_ge _ _ _ _ Hin) as Hrange.
  apply list_elem_of_filter in Hin as [Hflag _].
  apply (NoDup_lookup (wall_nodes flags 0 n) _ _ g (NoDup_wall_nodes _ _ _)); [|done].
  rewrite (wall_nodes_split flags n g) by (lia || done).
  by rewrite list_lookup_middle.
Qed.

Lemma wall_nodes_rank_lt flags n g :
  (g < n)%nat -> nth g flags 0 <> 0 ->
  (length (wall_nodes flags 0 g) < length (wall_nodes flags 0 n))%nat.
Proof.
  intros Hg Hflag. rewrite (wall_nodes_split flags n g) by done.
  rewrite length_app. simpl. lia.
Qed.

Lemma length_flat_map_point_coor nDim_ (pts : list CPointFEM) (l : list nat) :
  length (flat_map (fun g => point_coor nDim_ (nth g pts noPoint)) l)
  = (length l * N.to_nat nDim_)%nat.
Proof.
  induction l as [|g l IH]; simpl; [done|].
  rewrite length_app, IH. unfold point_coor. by rewrite length_map, length_Nseq.
Qed.

Lemma extract_surfElems_coor iMarker elems : forall i fr,
  nVertex_SolidWall (locals (extract_surfElems iMarker i elems fr))
  = nVertex_SolidWall (locals fr) /\
  surfaceCoor (locals (extract_surfElems iMarker i elems fr)) = surfaceCoor (locals fr).
Proof.
  induction elems as [|s rest IH]; intros i fr; simpl; [done|].
  destruct (IH (i + 1) (extract_surfElem iMarker i s fr)) as [-> ->].
  by rewrite extract_surfElem_spec.
Qed.

Lemma extract_markers_coor config bs : forall iMarker fr,
  nVertex_SolidWall (locals (extract_markers config iMarker bs fr))
  = nVertex_SolidWall (locals fr) /\
  surfaceCoor (locals (extract_markers config iMarker bs fr)) = surfaceCoor (locals fr).
Proof.
  induction bs as [|b rest IH]; intros iMarker fr; simpl; [done|].
  destruct (IH (iMarker + 1) (extract_marker config iMarker b fr)) as [-> ->].
  rewrite extract_marker_wall. destruct (wall_marker config iMarker b); [|done].
  apply extract_surfElems_coor.
Qed.

(** Step 1 as a whole, in terms of the flags left by the first pass. *)
Lemma Step1_locals config m :
  let frc := Step1_collect config {| this := m; locals := init_locals m |} in
  let flags := meshToSurface (locals frc) in
  let loc := locals (Step1 config m) in
  length flags = length (meshPoints m) ->
  nVertex_SolidWall loc
  = N.of_nat (length (wall_nodes flags 0 (length (meshPoints m)))) /\
  surfaceCoor loc
  = flat_map (fun g => point_coor (nDim m) (nth g (meshPoints m) noPoint))
      (wall_nodes flags 0 (length (meshPoints m))) /\
  (forall g, nth g flags 0 <> 0 ->
     nth g (meshToSurface loc) 0 = N.of_nat (length (wall_nodes flags 0 g))) /\
  surfaceConn loc
  = map (fun g => at_ (meshToSurface loc) g 0) (raw_surfaceConn config m).
Proof.
  intros frc flags loc Hlen. subst loc. unfold Step1. fold frc.
  assert (this frc = m) as Hthis by apply this_Step1_collect.
  rewrite Hthis. simpl.
  destruct (number_points_spec (nDim m) (meshPoints m) (meshPoints m) 0 frc
              eq_refl Hlen) as (_ & _ & Hflagged & HnV & Hcoor).
  destruct (number_points_ids (nDim m) (meshPoints m) 0 frc) as (_ & _ & Hconn).
  assert (nVertex_SolidWall (locals frc) = 0 /\ surfaceCoor (locals frc) = [])
    as [HnV0 Hcoor0].
  { subst frc. unfold Step1_collect. simpl.
    by destruct (extract_markers_coor config (boundaries m) 0
                   {| this := m; locals := init_locals m |}) as [-> ->]. }
  rewrite HnV0 in *. rewrite Hcoor0 in *. fold flags in Hflagged, HnV, Hcoor.
  split; [by rewrite HnV|]. split; [by rewrite Hcoor|]. split.
  - intros g Hflag. rewrite Hflagged by (lia || done).
    by rewrite Nat.sub_0_r, N.add_0_l.
  - by rewrite Hconn.
Qed.

(** *** No wall marker, no surface *)

Lemma extract_markers_no_walls config bs : forall iMarker fr,
  (forall (k : nat) b, bs !! k = Some b ->
     wall_marker config (iMarker + N.of_nat k) b = false) ->
  extract_markers config iMarker bs fr = fr.
Proof.
  induction bs as [|b rest IH]; intros iMarker fr Hno; simpl; [done|].
  rewrite extract_marker_wall.
  pose proof (Hno 0%nat b eq_refl) as Hb. rewrite N.add_0_r in Hb. rewrite Hb.
  apply IH. intros k b' Hk.
  replace (iMarker + 1 + N.of_nat k) with (iMarker + N.of_nat (S k)) by lia.
  by apply Hno.
Qed.

Lemma number_points_no_flags nDim_ pts : forall i fr,
  Forall (fun v => v = 0) (meshToSurface (locals fr)) ->
  number_points nDim_ i pts fr = fr.
Proof.
  induction pts as [|p rest IH]; intros i fr Hzero; simpl; [done|].
  assert (number_point nDim_ i p (locals fr) = locals fr) as Hsame.
  { unfold number_point.
    assert (nth i (meshToSurface (locals fr)) 0 = 0) as ->; [|done].
    rewrite nth_lookup.
    destruct (meshToSurface (locals fr) !! i) as [v|] eqn:Hv; [|done].
    rewrite Forall_lookup in Hzero. apply (Hzero i v Hv). }
  unfold set_locals. rewrite Hsame, <- Frame_eta. by apply IH.
Qed.

(** When no marker passes the test of lines 65-69, step 1 leaves the locals
    as declared and the tree is built from empty vectors. *)
Lemma Step1_no_walls config m :
  (forall (iMarker : nat) b, boundaries m !! iMarker = Some b ->
     wall_marker config (N.of_nat iMarker) b = false) ->
  build_WallADT m (locals (Step1 config m))
  = su2_adtElemClass_new (nDim m) [] [] [] [] [].
Proof.
  intros Hno. unfold Step1, Step1_collect. simpl.
  rewrite extract_markers_no_walls by (intros k b Hk; rewrite N.add_0_l; by apply Hno).
  simpl. rewrite number_points_no_flags.
  - reflexivity.
  - simpl. by apply Forall_replicate.
Qed.

(** *** The extracted surface *)

Lemma flagged_iff_raw config m :
  wall_faces_ok config m = true -> wall_faces_covered config m = true ->
  forall g : nat,
    nth g (meshToSurface
             (locals (Step1_collect config {| this := m; locals := init_locals m |}))) 0
    <> 0
    <-> N.of_nat g ∈ raw_surfaceConn config m.
Proof.
  intros Hok Hcov g.
  destruct (Step1_collect_sound config m Hok) as (Hlen & Hbits & Hconn).
  pose proof (Step1_collect_complete config m Hcov) as Hcomp.
  unfold raw_surfaceConn. split.
  - intros Hflag. apply Hcomp.
    rewrite nth_lookup in *.
    destruct (_ !! g) as [v|] eqn:Hv; simpl in *; [|done].
    rewrite Forall_lookup in Hbits. by destruct (Hbits g v Hv).
  - intros Hin. destruct (Hconn _ Hin) as [_ Hone].
    rewrite Nat2N.id in Hone. by rewrite Hone.
Qed.

(** C5: after the remap of lines 120-121 every entry of [surfaceConn] is
    below [nVertex_SolidWall], the number of points in the coordinate buffer
    [surfaceCoor] (which holds [nDim] coordinates for each of them): no
    sub-element refers to a point that is not in the buffer.  The wall
    surface elements are assumed consistent with their standard elements
    and with the mesh. *)
Theorem surfaceConn_valid config m :
  wall_faces_ok config m = true ->
  Forall (fun v => v < nVertex_SolidWall (locals (Step1 config m)))
    (surfaceConn (locals (Step1 config m))) /\
  N.of_nat (length (surfaceCoor (locals (Step1 config m))))
  = nVertex_SolidWall (locals (Step1 config m)) * nDim m.
Proof.
  intros Hok.
  destruct (Step1_collect_sound config m Hok) as (Hlen & Hbits & Hconn).
  destruct (Step1_locals config m Hlen) as (HnV & Hcoor & Hrank & Hsc).
  split.
  - rewrite Hsc. apply Forall_fmap, list.Forall_forall. intros g Hg. cbv beta.
    destruct (Hconn g Hg) as [Hlt Hone].
    unfold compose, at_. rewrite Hrank by (by rewrite Hone). rewrite HnV.
    pose proof (wall_nodes_rank_lt _ _ _ Hlt
                  ltac:(rewrite Hone; discriminate)) as Hr.
    lia.
  - rewrite Hcoor, HnV, length_flat_map_point_coor. lia.
Qed.

(** ** The coordinates of the integration points *)

Lemma for_loop_Nseq {S : Type} (n : N) (body : N -> S -> S) (s : S) :
  for_loop n body s = fold_left (fun acc i => body i acc) (Nseq n) s.
Proof.
  unfold for_loop, Nseq. generalize (seq 0 (N.to_nat n)). intros l. revert s.
  induction l as [|x l IH]; intros s; simpl; [done|]. apply IH.
Qed.

(** As long as [i*nDOFs] fits [unsigned short], the routine interpolates
    with the row [i] of the table. *)
Lemma integration_point_coor_no_wrap m lag nDOFs DOFs i :
  i * nDOFs < USHRT_RANGE ->
  integration_point_coor m lag nDOFs DOFs i = interpolated_coor m lag nDOFs DOFs i.
Proof.
  intros Hfit. unfold integration_point_coor, interpolated_coor.
  rewrite (ushort_small _ Hfit).
  rewrite (for_loop_snoc (nDim m)
    (fun j => [for_loop nDOFs
       (fun k c =>
          add c (mul (at_ lag (i * nDOFs + k) zero)
                     (at_ (coor (at_ (meshPoints m) (at_ DOFs k 0) noPoint)) j zero)))
       zero]) []).
  rewrite flat_map_singleton. simpl. apply map_ext. intros j.
  apply for_loop_Nseq.
Qed.

(** Every query of the routine is made with the coordinates computed by
    [integration_point_coor] for the entity and the integration point. *)
Lemma run_event_query WallADT config m who i coor_ :
  run_event WallADT config m (Query who i coor_) ->
  exists lag nDOFs DOFs, coor_ = integration_point_coor m lag nDOFs DOFs i.
Proof.
  intros [(l & e & _ & H)|[(l & f & _ & H)|(k & b & l & s & _ & _ & _ & H)]];
    apply entity_events_who in H as (i' & _ & [H|[_ H]]);
    try discriminate; injection H as _ -> ->; eauto.
Qed.

(** Every store of the routine stores [0.0] or what the tree answered for
    the integration point. *)
Lemma run_event_store WallADT config m who i dist :
  run_event WallADT config m (Store who i dist) ->
  dist = zero \/
  exists lag nDOFs DOFs,
    dist = DetermineNearestElement WallADT (integration_point_coor m lag nDOFs DOFs i).
Proof.
  intros [(l & e & _ & H)|[(l & f & _ & H)|(k & b & l & s & _ & _ & _ & H)]];
    apply entity_events_who in H as (i' & _ & [H|[_ H]]);
    try discriminate; injection H as _ -> ->;
    unfold stored_distance;
    match goal with |- context [if ?c then _ else _] => destruct c end; eauto.
Qed.

(** ** Frame properties *)

(** C9: the extraction step (lines 54-121: flags, connectivity, element and
    marker IDs, coordinates, remap) does not change the mesh object: after
    step 1 the boundaries, surface elements, standard elements, mesh points
    and every other member are what they were; all its writes go to the
    local vectors of the routine. *)
Theorem extraction_preserves_mesh config m :
  this (Step1 config m) = m /\
  (forall fr, this (Step1_collect config fr) = this fr) /\
  (forall nDim_ i pts fr, this (number_points nDim_ i pts fr) = this fr) /\
  (forall fr, this (set_locals remap_conn fr) = this fr).
Proof.
  split; [apply this_Step1|].
  split; [apply this_Step1_collect|].
  split; [intros; apply this_number_points|done].
Qed.

(** C10: a marker whose periodic flag is set is skipped by the pass over the
    boundary faces: after the routine the marker is what it was before
    (its vector [VecWallDistanceBoundaryFaces] is neither resized nor
    written, so it stays empty when it was, and the [wallDistance] pointers
    of its surface elements are not set), and no query or store is made for
    any of its faces. *)
Theorem periodic_marker_skipped config m (iMarker : nat) b :
  N.of_nat (length (boundaries m)) < USHRT_RANGE ->
  boundaries m !! iMarker = Some b ->
  periodicBoundary b = true ->
  exists m' trace,
    ComputeWall_Distance config m = Some (m', trace) /\
    boundaries m' !! iMarker = Some b /\
    forall ev l, ev ∈ trace -> event_consumer ev <> BoundaryFace (N.of_nat iMarker) l.
Proof.
  intros Hfit Hb Hper. rewrite ComputeWall_Distance_runs by done.
  set (WallADT := build_WallADT m (locals (Step1 config m))).
  destruct (populate WallADT config m) as [m' trace] eqn:Hrun.
  exists m', trace. split; [done|].
  assert (boundaries m' !! iMarker = Some b) as Hb'.
  { destruct (populate_boundary WallADT config m iMarker b Hb) as [trace_k Hk].
    rewrite Hrun in Hk. simpl in Hk.
    by rewrite boundary_marker_periodic in Hk. }
  split; [done|]. intros ev l Hev Hwho.
  assert (run_event WallADT config m ev) as Hrev.
  { apply populate_trace. by rewrite Hrun. }
  destruct (run_event_marker _ _ _ _ _ _ Hrev Hwho) as (b0 & _ & _ & Hb0 & Hp & _).
  congruence.
Qed.

(** ** Zero distances *)

Lemma vol_value_quiet WallADT m e i :
  IsEmpty WallADT = true -> vol_value WallADT m e i = zero.
Proof. intros H. unfold vol_value, stored_distance. by rewrite H. Qed.

Lemma face_value_quiet WallADT m f i :
  IsEmpty WallADT = true -> face_value WallADT m f i = zero.
Proof. intros H. unfold face_value, stored_distance. by rewrite H. Qed.

Lemma surf_value_quiet WallADT m isViscousWall s i :
  IsEmpty WallADT || isViscousWall = true ->
  surf_value WallADT m isViscousWall s i = zero.
Proof. intros H. unfold surf_value, stored_distance. by rewrite H. Qed.

(** The vector of a marker that is handled with the zero branch. *)
Lemma boundary_marker_zero WallADT config m iMarker b trace :
  periodicBoundary b = false ->
  IsEmpty WallADT || viscousWall config iMarker = true ->
  Forall (fun x => x = zero)
    (VecWallDistanceBoundaryFaces
       (fst (boundary_marker WallADT config m iMarker b trace))).
Proof.
  intros Hp Hq. rewrite boundary_marker_handled by done. simpl.
  unfold surfElem_loop.
  apply (entity_loop_all_zero CSurfaceElementFEM (surf_nInt m) set_wallDistance
           (surf_distances WallADT m (viscousWall config iMarker) iMarker)
           (fun _ => surf_value WallADT m (viscousWall config iMarker))
           (surf_events WallADT m (viscousWall config iMarker) iMarker)
           (surf_distances_eq WallADT m (viscousWall config iMarker) iMarker)).
  intros _ s i. by apply surf_value_quiet.
Qed.

(** A marker after the pass comes from a marker before it. *)
Lemma populate_boundary_inv WallADT config m (iMarker : nat) b' :
  boundaries (fst (populate WallADT config m)) !! iMarker = Some b' ->
  exists b trace_k,
    boundaries m !! iMarker = Some b /\
    b' = fst (boundary_marker WallADT config m (N.of_nat iMarker) b trace_k).
Proof.
  intros Hb'.
  assert (is_Some (boundaries m !! iMarker)) as [b Hb].
  { apply lookup_lt_is_Some. apply lookup_lt_Some in Hb'.
    destruct (populate_boundaries WallADT config m) as [trace4 Heq].
    rewrite Heq, boundary_markers_length in Hb'. done. }
  destruct (populate_boundary WallADT config m iMarker b Hb) as [trace_k Hk].
  exists b, trace_k. split; [done|]. congruence.
Qed.

(** ** Sizes and offsets of the result vectors *)

Lemma populate_ownedVolElem WallADT config m :
  ownedVolElem (fst (populate WallADT config m))
  = fst (volElem_loop WallADT m 0 (ownedVolElem m) 0
      (resize (count_nIntPoints CVolumeElementFEM (vol_nInt m) (ownedVolElem m))
         (VecWallDistanceElements m), [])).
Proof.
  unfold ownedVolElem at 1. rewrite populate_volElem.
  set (out := volElem_loop _ _ _ _ _ _).
  assert (nVolElemOwned (fst (populate WallADT config m)) = nVolElemOwned m) as ->.
  { unfold populate.
    destruct (volElem_loop _ _ _ _ _ _) as [owned' [vecElements trace3]].
    destruct (matchingFaces_loop _ _ _ _ _ _) as [faces' [vecFaces trace4]].
    by destruct (boundary_markers _ _ _ _ _ _) as [boundaries' trace5]. }
  assert (length (fst out) = length (ownedVolElem m)) as Hlen.
  { subst out. unfold volElem_loop. apply entity_loop_length. }
  unfold ownedVolElem in Hlen. rewrite length_take in Hlen.
  destruct (decide (N.to_nat (nVolElemOwned m) <= length (volElem m))%nat) as [Hle|Hgt].
  - rewrite take_app_le by lia. apply take_ge. lia.
  - rewrite drop_ge by lia. rewrite app_nil_r. apply take_ge. lia.
Qed.

Lemma volElem_assigned WallADT config m :
  total_nInt (vol_nInt m) (ownedVolElem m) < ULONG_RANGE ->
  assigned_ranges vol_wallDistance (vol_nInt m) (ownedVolElem m)
    (ownedVolElem (fst (populate WallADT config m)))
    (VecWallDistanceElements (fst (populate WallADT config m))).
Proof.
  intros Hfit. rewrite populate_ownedVolElem, populate_VecWallDistanceElements.
  unfold volElem_loop.
  apply (entity_loop_assigned CVolumeElementFEM (vol_nInt m) set_vol_wallDistance
           (vol_distances WallADT m) (fun _ => vol_value WallADT m)
           (vol_events WallADT m) (vol_distances_eq WallADT m)
           vol_wallDistance); done.
Qed.

Lemma matchingFaces_assigned WallADT config m :
  total_nInt (face_nInt m) (matchingFaces m) < ULONG_RANGE ->
  assigned_ranges face_wallDistance (face_nInt m) (matchingFaces m)
    (matchingFaces (fst (populate WallADT config m)))
    (VecWallDistanceInternalMatchingFaces (fst (populate WallADT config m))).
Proof.
  intros Hfit.
  destruct (populate_matchingFaces WallADT config m) as (trace3 & -> & ->).
  unfold matchingFaces_loop.
  apply (entity_loop_assigned CInternalFaceElementFEM (face_nInt m)
           set_face_wallDistance
           (face_distances WallADT m) (fun _ => face_value WallADT m)
           (face_events WallADT m) (face_distances_eq WallADT m)
           face_wallDistance); done.
Qed.

Lemma boundary_marker_assigned WallADT config m iMarker b trace :
  periodicBoundary b = false ->
  total_nInt (surf_nInt m) (surfElem b) < ULONG_RANGE ->
  let b' := fst (boundary_marker WallADT config m iMarker b trace) in
  assigned_ranges wallDistance (surf_nInt m) (surfElem b) (surfElem b')
    (VecWallDistanceBoundaryFaces b').
Proof.
  intros Hp Hfit b'. subst b'. rewrite boundary_marker_handled by done. simpl.
  unfold surfElem_loop.
  apply (entity_loop_assigned CSurfaceElementFEM (surf_nInt m) set_wallDistance
           (surf_distances WallADT m (viscousWall config iMarker) iMarker)
           (fun _ => surf_value WallADT m (viscousWall config iMarker))
           (surf_events WallADT m (viscousWall config iMarker) iMarker)
           (surf_distances_eq WallADT m (viscousWall config iMarker) iMarker)
           wallDistance); done.
Qed.

(** C4, for the categories the pass handles (a periodic marker is not one of
    them): for the owned volume elements, for the internal matching faces and
    for the boundary faces of each marker that is not periodic, provided the
    integration points of the category fit the [unsigned long] counter, the
    result vector has exactly as many entries as the entities of the category
    have integration points, entity [k] points at the entry whose index is
    the sum of the counts of the entities before it, and therefore every
    entry of the vector lies in the range of exactly one entity: the ranges
    are pairwise disjoint and tile the vector. *)
Theorem distance_buffers_tiled config m :
  N.of_nat (length (boundaries m)) < USHRT_RANGE ->
  exists m' trace,
    ComputeWall_Distance config m = Some (m', trace) /\
    (total_nInt (vol_nInt m) (ownedVolElem m) < ULONG_RANGE ->
     assigned_ranges vol_wallDistance (vol_nInt m) (ownedVolElem m)
       (ownedVolElem m') (VecWallDistanceElements m') /\
     exact_tiling vol_wallDistance (vol_nInt m)
       (ownedVolElem m') (VecWallDistanceElements m')) /\
    (total_nInt (face_nInt m) (matchingFaces m) < ULONG_RANGE ->
     assigned_ranges face_wallDistance (face_nInt m) (matchingFaces m)
       (matchingFaces m') (VecWallDistanceInternalMatchingFaces m') /\
     exact_tiling face_wallDistance (face_nInt m)
       (matchingFaces m') (VecWallDistanceInternalMatchingFaces m')) /\
    (forall (iMarker : nat) b,
        boundaries m !! iMarker = Some b ->
        periodicBoundary b = false ->
        total_nInt (surf_nInt m) (surfElem b) < ULONG_RANGE ->
        exists b',
          boundaries m' !! iMarker = Some b' /\
          assigned_ranges wallDistance (surf_nInt m) (surfElem b)
            (surfElem b') (VecWallDistanceBoundaryFaces b') /\
          exact_tiling wallDistance (surf_nInt m)
            (surfElem b') (VecWallDistanceBoundaryFaces b')).
Proof.
  intros Hfit. rewrite ComputeWall_Distance_runs by done.
  set (WallADT := build_WallADT m (locals (Step1 config m))).
  exists (fst (populate WallADT config m)), (snd (populate WallADT config m)).
  split; [by destruct (populate WallADT config m)|].
  split; [|split].
  - intros Hvol. pose proof (volElem_assigned WallADT config m Hvol) as Ha.
    split; [done|].
    by apply (assigned_ranges_tiling _ _ _ (ownedVolElem m)).
  - intros Hface. pose proof (matchingFaces_assigned WallADT config m Hface) as Ha.
    split; [done|].
    by apply (assigned_ranges_tiling _ _ _ (matchingFaces m)).
  - intros iMarker b Hb Hp Hsurf.
    destruct (populate_boundary WallADT config m iMarker b Hb) as [trace_k Hk].
    eexists. split; [exact Hk|].
    pose proof (boundary_marker_assigned WallADT config m (N.of_nat iMarker) b
                  trace_k Hp Hsurf) as Ha.
    split; [done|].
    by apply (assigned_ranges_tiling _ _ _ (surfElem b)).
Qed.

(** ** The pass in closed form *)

Section EntityLoopOrder.

Variable E : Type.
Variable nInt_of : E -> N.
Variable set_pointer : N -> E -> E.
Variable distances :
  N -> E -> N -> list su2double * list Event -> list su2double * list Event.
Variable value : E -> N -> su2double.
Variable events : N -> E -> list Event.

Hypothesis distances_eq : forall l e p st,
  distances l e p st
  = (store_loop p (nInt_of e) (value e) (fst st), snd st ++ events l e).

Local Abbreviation loop := (entity_loop E nInt_of set_pointer distances).

(** The trace grows by the events of the entities, in order. *)
Lemma entity_loop_events elems : forall l n st,
  snd (snd (loop l elems n st)) = snd st ++ events_of events l elems.
Proof.
  induction elems as [|e rest IH]; intros l n st; simpl.
  - by rewrite app_nil_r.
  - destruct (loop (l + 1) rest (ulong (n + nInt_of e)) (distances l e n st))
      as [rest' out] eqn:Hrec.
    simpl. specialize (IH (l + 1) (ulong (n + nInt_of e)) (distances l e n st)).
    rewrite Hrec in IH. simpl in IH. rewrite IH, distances_eq. simpl.
    by rewrite app_assoc.
Qed.

(** Without wrap-around the pointers are the running sums. *)
Lemma entity_loop_pointed elems : forall l n st,
  n + total_nInt nInt_of elems < ULONG_RANGE ->
  fst (loop l elems n st) = pointed set_pointer nInt_of n elems.
Proof.
  induction elems as [|e rest IH]; intros l n st Hfit; simpl in *; [done|].
  destruct (loop (l + 1) rest (ulong (n + nInt_of e)) (distances l e n st))
    as [rest' out] eqn:Hrec.
  simpl. f_equal.
  specialize (IH (l + 1) (ulong (n + nInt_of e)) (distances l e n st)).
  rewrite Hrec in IH. simpl in IH.
  rewrite ulong_small in IH by lia. apply IH. lia.
Qed.

(** The stores of one entity overwrite its block of the vector. *)
Lemma store_loop_block pre old post n v :
  length old = N.to_nat n ->
  store_loop (N.of_nat (length pre)) n v (pre ++ old ++ post)
  = pre ++ map v (Nseq n) ++ post.
Proof.
  intros Hold. apply list_eq. intros s.
  destruct (store_loop_spec (N.of_nat (length pre)) n v (pre ++ old ++ post))
    as [_ ->].
  rewrite Nat2N.id, !length_app.
  case_decide as Hin.
  - rewrite lookup_app_r by lia.
    rewrite lookup_app_l by (rewrite length_map, length_Nseq; lia).
    unfold Nseq. rewrite !list_lookup_fmap, lookup_seq_lt by lia. simpl.
    f_equal. f_equal. lia.
  - destruct (decide (s < length pre)%nat) as [Hpre|Hpre].
    + by rewrite !lookup_app_l by lia.
    + rewrite !(lookup_app_r pre) by lia.
      rewrite !lookup_app_r by (rewrite ?length_map, ?length_Nseq; lia).
      rewrite length_map, length_Nseq. f_equal. lia.
Qed.

(** Without wrap-around the loop overwrites the part of the vector that the
    entities share out, block by block, and nothing else. *)
Lemma entity_loop_values elems : forall l pre old post trace,
  N.of_nat (length pre) + total_nInt nInt_of elems < ULONG_RANGE ->
  N.of_nat (length old) = total_nInt nInt_of elems ->
  fst (snd (loop l elems (N.of_nat (length pre)) (pre ++ old ++ post, trace)))
  = pre ++ values_of nInt_of value elems ++ post.
Proof.
  induction elems as [|e rest IH]; intros l pre old post trace Hfit Hold; simpl in *.
  - destruct old; [done|]. simpl in Hold. lia.
  - destruct (loop (l + 1) rest (ulong (N.of_nat (length pre) + nInt_of e))
                (distances l e (N.of_nat (length pre)) (pre ++ old ++ post, trace)))
      as [rest' out] eqn:Hrec.
    simpl. rewrite distances_eq in Hrec. simpl in Hrec.
    rewrite <- (take_drop (N.to_nat (nInt_of e)) old) in Hrec.
    rewrite <- (app_assoc (take _ old)) in Hrec.
    rewrite store_loop_block in Hrec by (rewrite length_take; lia).
    rewrite ulong_small in Hrec by lia.
    replace (N.of_nat (length pre) + nInt_of e)
      with (N.of_nat (length (pre ++ map (value e) (Nseq (nInt_of e))))) in Hrec
      by (rewrite length_app, length_map, length_Nseq; lia).
    rewrite (app_assoc pre) in Hrec.
    specialize (IH (l + 1) (pre ++ map (value e) (Nseq (nInt_of e)))
                  (drop (N.to_nat (nInt_of e)) old) post (trace ++ events l e)).
    rewrite Hrec in IH. simpl in IH. rewrite IH.
    + unfold values_of. simpl. by rewrite <- !app_assoc.
    + rewrite length_app, length_map, length_Nseq. lia.
    + rewrite length_drop. lia.
Qed.

(** The loop of a category after [resize], when the counter does not wrap. *)
Lemma entity_loop_closed elems l old trace :
  total_nInt nInt_of elems < ULONG_RANGE ->
  loop l elems 0 (resize (count_nIntPoints E nInt_of elems) old, trace)
  = (pointed set_pointer nInt_of 0 elems,
     (values_of nInt_of value elems, trace ++ events_of events l elems)).
Proof.
  intros Hfit.
  set (vec := resize (count_nIntPoints E nInt_of elems) old).
  assert (N.of_nat (length vec) = total_nInt nInt_of elems) as Hlen.
  { subst vec. rewrite length_resize, N2Nat.id.
    rewrite (count_nIntPoints_eq E nInt_of), (offset_after_exact E nInt_of); lia. }
  rewrite (surjective_pairing (loop l elems 0 (vec, trace))).
  rewrite (surjective_pairing (snd (loop l elems 0 (vec, trace)))).
  rewrite entity_loop_events, entity_loop_pointed by (by rewrite N.add_0_l).
  f_equal. f_equal.
  pose proof (entity_loop_values elems l [] vec [] trace) as H.
  simpl in H. rewrite !app_nil_r in H. apply H; [by rewrite N.add_0_l|done].
Qed.

(** Entity [k] of [pointed] is entity [k] with its pointer. *)
Lemma pointed_lookup elems : forall n (k : nat),
  pointed set_pointer nInt_of n elems !! k
  = set_pointer (n + total_nInt nInt_of (take k elems)) <$> elems !! k.
Proof.
  induction elems as [|e rest IH]; intros n k; simpl; [done|].
  destruct k as [|k]; simpl; [by rewrite N.add_0_r|].
  rewrite IH. by rewrite N.add_assoc.
Qed.

Lemma length_pointed elems : forall n,
  length (pointed set_pointer nInt_of n elems) = length elems.
Proof. induction elems as [|e rest IH]; intros n; simpl; [done|]. by rewrite IH. Qed.

Lemma length_values_of elems :
  N.of_nat (length (values_of nInt_of value elems)) = total_nInt nInt_of elems.
Proof.
  unfold values_of. induction elems as [|e rest IH]; simpl; [done|].
  rewrite length_app, length_map, length_Nseq. lia.
Qed.

(** The block of entity [k] starts after the blocks of the entities before
    it. *)
Lemma values_of_lookup elems : forall (k : nat) e i,
  elems !! k = Some e -> i < nInt_of e ->
  values_of nInt_of value elems !! N.to_nat (total_nInt nInt_of (take k elems) + i)
  = Some (value e i).
Proof.
  unfold values_of.
  induction elems as [|e0 rest IH]; intros k e i Hk Hi; [done|].
  destruct k as [|k]; simpl in *.
  - injection Hk as ->. rewrite lookup_app_l by (rewrite length_map, length_Nseq; lia).
    unfold Nseq. rewrite !list_lookup_fmap, lookup_seq_lt by lia. simpl.
    by rewrite N2Nat.id.
  - rewrite lookup_app_r by (rewrite length_map, length_Nseq; lia).
    rewrite length_map, length_Nseq.
    replace (N.to_nat (nInt_of e0 + total_nInt nInt_of (take k rest) + i)
             - N.to_nat (nInt_of e0))%nat
      with (N.to_nat (total_nInt nInt_of (take k rest) + i)) by lia.
    by apply IH.
Qed.

End EntityLoopOrder.

Lemma boundary_marker_events WallADT config m iMarker b trace :
  snd (boundary_marker WallADT config m iMarker b trace)
  = trace ++ marker_events WallADT config m iMarker b.
Proof.
  unfold marker_events. destruct (periodicBoundary b) eqn:Hb.
  - rewrite boundary_marker_periodic by done. simpl. by rewrite app_nil_r.
  - rewrite boundary_marker_handled by done. simpl. unfold surfElem_loop.
    by rewrite (entity_loop_events CSurfaceElementFEM (surf_nInt m) set_wallDistance
                  (surf_distances WallADT m (viscousWall config iMarker) iMarker)
                  (surf_value WallADT m (viscousWall config iMarker))
                  (surf_events WallADT m (viscousWall config iMarker) iMarker)
                  (surf_distances_eq WallADT m (viscousWall config iMarker) iMarker)).
Qed.

Lemma boundary_markers_events WallADT config m bs : forall iMarker trace,
  snd (boundary_markers WallADT config m iMarker bs trace)
  = trace ++ markers_events WallADT config m iMarker bs.
Proof.
  induction bs as [|b rest IH]; intros iMarker trace; simpl.
  - by rewrite app_nil_r.
  - pose proof (boundary_marker_events WallADT config m iMarker b trace) as Hb.
    destruct (boundary_marker WallADT config m iMarker b trace) as [b' trace'].
    specialize (IH (iMarker + 1) trace').
    destruct (boundary_markers WallADT config m (iMarker + 1) rest trace')
      as [rest' out].
    simpl in *. by rewrite IH, Hb, app_assoc.
Qed.

(** The trace of the pass is the events of step 3, then those of step 4,
    then those of step 5. *)
Lemma populate_events WallADT config m :
  snd (populate WallADT config m) = run_trace WallADT config m.
Proof.
  unfold populate, run_trace.
  pose proof (entity_loop_events CVolumeElementFEM (vol_nInt m) set_vol_wallDistance
                (vol_distances WallADT m) (vol_value WallADT m) (vol_events WallADT m)
                (vol_distances_eq WallADT m)
                (ownedVolElem m) 0 0
                (resize (count_nIntPoints CVolumeElementFEM (vol_nInt m)
                           (ownedVolElem m))
                   (VecWallDistanceElements m), [])) as E3.
  unfold volElem_loop.
  destruct (entity_loop _ _ _ _ _ (ownedVolElem m) _ _)
    as [owned' [vecElements trace3]].
  pose proof (entity_loop_events CInternalFaceElementFEM (face_nInt m) set_face_wallDistance
                (face_distances WallADT m) (face_value WallADT m) (face_events WallADT m)
                (face_distances_eq WallADT m)
                (matchingFaces m) 0 0
                (resize (count_nIntPoints CInternalFaceElementFEM (face_nInt m)
                           (matchingFaces m))
                   (VecWallDistanceInternalMatchingFaces m), trace3)) as E4.
  unfold matchingFaces_loop.
  destruct (entity_loop _ _ _ _ _ (matchingFaces m) _ _)
    as [faces' [vecFaces trace4]].
  pose proof (boundary_markers_events WallADT config m (boundaries m) 0 trace4) as E5.
  destruct (boundary_markers _ _ _ _ _ _) as [boundaries' trace5].
  simpl in *. subst. by rewrite <- app_assoc.
Qed.

Lemma boundary_marker_closed WallADT config m iMarker b trace :
  periodicBoundary b || (total_nInt (surf_nInt m) (surfElem b) <? ULONG_RANGE) = true ->
  boundary_marker WallADT config m iMarker b trace
  = (populated_marker WallADT config m iMarker b,
     trace ++ marker_events WallADT config m iMarker b).
Proof.
  intros Hfit. unfold populated_marker, marker_events.
  destruct (periodicBoundary b) eqn:Hb.
  - rewrite boundary_marker_periodic by done. by rewrite app_nil_r.
  - rewrite boundary_marker_handled by done. simpl in Hfit.
    apply N.ltb_lt in Hfit. unfold surfElem_loop.
    by rewrite (entity_loop_closed CSurfaceElementFEM (surf_nInt m) set_wallDistance
                  (surf_distances WallADT m (viscousWall config iMarker) iMarker)
                  (surf_value WallADT m (viscousWall config iMarker))
                  (surf_events WallADT m (viscousWall config iMarker) iMarker)
                  (surf_distances_eq WallADT m (viscousWall config iMarker) iMarker))
      by done.
Qed.

Lemma boundary_markers_closed WallADT config m bs : forall iMarker trace,
  forallb
    (fun b => periodicBoundary b
              || (total_nInt (surf_nInt m) (surfElem b) <? ULONG_RANGE)) bs = true ->
  boundary_markers WallADT config m iMarker bs trace
  = (populated_markers WallADT config m iMarker bs,
     trace ++ markers_events WallADT config m iMarker bs).
Proof.
  induction bs as [|b rest IH]; intros iMarker trace Hfit; simpl in *.
  - by rewrite app_nil_r.
  - apply andb_true_iff in Hfit as [Hb Hrest].
    rewrite boundary_marker_closed by done.
    rewrite IH by done. by rewrite app_assoc.
Qed.

(** When no counter wraps, the pass yields [populated] and [run_trace]. *)
Lemma populate_closed WallADT config m :
  counts_fit m = true ->
  populate WallADT config m = (populated WallADT config m, run_trace WallADT config m).
Proof.
  unfold counts_fit. rewrite !andb_true_iff, !N.ltb_lt.
  intros [[Hvol Hface] Hsurf].
  unfold populate, populated, run_trace, volElem_loop, matchingFaces_loop.
  rewrite (entity_loop_closed CVolumeElementFEM (vol_nInt m) set_vol_wallDistance
             (vol_distances WallADT m) (vol_value WallADT m) (vol_events WallADT m)
             (vol_distances_eq WallADT m)) by done.
  rewrite (entity_loop_closed CInternalFaceElementFEM (face_nInt m) set_face_wallDistance
             (face_distances WallADT m) (face_value WallADT m) (face_events WallADT m)
             (face_distances_eq WallADT m)) by done.
  rewrite boundary_markers_closed by done.
  simpl. by rewrite <- app_assoc.
Qed.

Lemma populated_markers_lookup WallADT config m bs : forall iMarker (k : nat),
  populated_markers WallADT config m iMarker bs !! k
  = populated_marker WallADT config m (iMarker + N.of_nat k) <$> bs !! k.
Proof.
  induction bs as [|b rest IH]; intros iMarker k; simpl; [done|].
  destruct k as [|k]; simpl; [by rewrite N.add_0_r|].
  rewrite IH. by replace (iMarker + 1 + N.of_nat k) with (iMarker + N.of_nat (S k)) by lia.
Qed.

Lemma ownedVolElem_populated WallADT config m :
  ownedVolElem (populated WallADT config m)
  = pointed set_vol_wallDistance (vol_nInt m) 0 (ownedVolElem m).
Proof.
  unfold ownedVolElem at 1. unfold populated. simpl.
  pose proof (length_pointed CVolumeElementFEM (vol_nInt m) set_vol_wallDistance
                (ownedVolElem m) 0) as Hlen.
  unfold ownedVolElem in Hlen at 2. rewrite length_take in Hlen.
  destruct (decide (N.to_nat (nVolElemOwned m) <= length (volElem m))%nat) as [Hle|Hgt].
  - rewrite take_app_le by lia. apply take_ge. lia.
  - rewrite drop_ge by lia. rewrite app_nil_r. apply take_ge. lia.
Qed.

(** ** What is read back through the pointers *)

(** X1: when no counter wraps, reading entry [i] through the [wallDistance]
    pointer the routine gave to an owned volume element, to a matching face
    or to a boundary face of a marker that is not periodic yields the
    distance of integration point [i] of that entity: [0.0] when the tree is
    empty (or the face lies on a viscous wall), and otherwise what
    [DetermineNearestElement] answers for the coordinates the routine
    computes for the point. *)
Theorem wall_distance_read_back config m :
  N.of_nat (length (boundaries m)) < USHRT_RANGE ->
  counts_fit m = true ->
  exists m' trace,
    ComputeWall_Distance config m = Some (m', trace) /\
    let WallADT := build_WallADT m (locals (Step1 config m)) in
    (forall (l : nat) e' p i,
        ownedVolElem m' !! l = Some e' -> vol_wallDistance e' = Some p ->
        i < vol_nInt m e' ->
        VecWallDistanceElements m' !! N.to_nat (p + i)
        = Some (vol_value WallADT m e' i)) /\
    (forall (l : nat) f' p i,
        matchingFaces m' !! l = Some f' -> face_wallDistance f' = Some p ->
        i < face_nInt m f' ->
        VecWallDistanceInternalMatchingFaces m' !! N.to_nat (p + i)
        = Some (face_value WallADT m f' i)) /\
    (forall (iMarker l : nat) b' s' p i,
        boundaries m' !! iMarker = Some b' -> periodicBoundary b' = false ->
        surfElem b' !! l = Some s' -> wallDistance s' = Some p ->
        i < surf_nInt m s' ->
        VecWallDistanceBoundaryFaces b' !! N.to_nat (p + i)
        = Some (surf_value WallADT m (viscousWall config (N.of_nat iMarker)) s' i)).
Proof.
  intros Hfit Hcounts. rewrite ComputeWall_Distance_runs by done.
  set (WallADT := build_WallADT m (locals (Step1 config m))).
  rewrite populate_closed by done.
  exists (populated WallADT config m), (run_trace WallADT config m).
  split; [done|]. cbv zeta. split; [|split].
  - intros l e' p i He' Hp Hi.
    rewrite ownedVolElem_populated, pointed_lookup in He'.
    destruct (ownedVolElem m !! l) as [e|] eqn:He; simpl in He'; [|done].
    injection He' as <-. simpl in Hp. injection Hp as <-.
    rewrite N.add_0_l. unfold populated. simpl.
    exact (values_of_lookup CVolumeElementFEM (vol_nInt m) (vol_value WallADT m)
             (ownedVolElem m) l e i He Hi).
  - intros l f' p i Hf' Hp Hi.
    unfold populated in Hf'. simpl in Hf'. rewrite pointed_lookup in Hf'.
    destruct (matchingFaces m !! l) as [f|] eqn:Hf; simpl in Hf'; [|done].
    injection Hf' as <-. simpl in Hp. injection Hp as <-.
    rewrite N.add_0_l. unfold populated. simpl.
    exact (values_of_lookup CInternalFaceElementFEM (face_nInt m)
             (face_value WallADT m) (matchingFaces m) l f i Hf Hi).
  - intros iMarker l b' s' p i Hb' Hper Hs' Hp Hi.
    unfold populated in Hb'. simpl in Hb'.
    rewrite populated_markers_lookup, N.add_0_l in Hb'.
    destruct (boundaries m !! iMarker) as [b|] eqn:Hb; simpl in Hb'; [|done].
    injection Hb' as <-. unfold populated_marker in *.
    destruct (periodicBoundary b) eqn:Hpb; [congruence|].
    simpl in *. rewrite pointed_lookup in Hs'.
    destruct (surfElem b !! l) as [s|] eqn:Hs; simpl in Hs'; [|done].
    injection Hs' as <-. simpl in Hp. injection Hp as <-.
    rewrite N.add_0_l.
    exact (values_of_lookup CSurfaceElementFEM (surf_nInt m)
             (surf_value WallADT m (viscousWall config (N.of_nat iMarker)))
             (surfElem b) l s i Hs Hi).
Qed.

(** ** Queries and stores *)

Lemma answered_app WallADT t1 t2 :
  answered WallADT t1 -> answered WallADT t2 -> answered WallADT (t1 ++ t2).
Proof. intros H1 H2. induction H1; simpl; [done| |]; by constructor. Qed.

Lemma answered_entity_events quiet WallADT who m lag nDOFs DOFs nInt :
  answered WallADT (entity_events quiet WallADT who m lag nDOFs DOFs nInt).
Proof.
  unfold entity_events. destruct quiet.
  - induction (Nseq nInt) as [|i l IH]; simpl; by constructor.
  - induction (Nseq nInt) as [|i l IH]; simpl; by constructor.
Qed.

Lemma answered_events_of {E : Type} WallADT (events : N -> E -> list Event) elems :
  (forall l e, answered WallADT (events l e)) ->
  forall l, answered WallADT (events_of events l elems).
Proof.
  intros Hev. induction elems as [|e rest IH]; intros l; simpl; [constructor|].
  by apply answered_app.
Qed.

Lemma answered_markers_events WallADT config m bs : forall iMarker,
  answered WallADT (markers_events WallADT config m iMarker bs).
Proof.
  induction bs as [|b rest IH]; intros iMarker; simpl; [constructor|].
  apply answered_app; [|done]. unfold marker_events.
  destruct (periodicBoundary b); [constructor|].
  apply answered_events_of. intros l s. apply answered_entity_events.
Qed.

Lemma answered_run_trace WallADT config m :
  answered WallADT (run_trace WallADT config m).
Proof.
  unfold run_trace. repeat apply answered_app.
  - apply answered_events_of. intros l e. apply answered_entity_events.
  - apply answered_events_of. intros l f. apply answered_entity_events.
  - apply answered_markers_events.
Qed.

Lemma answered_query_next WallADT t :
  answered WallADT t ->
  forall (k : nat) who i coor_,
    t !! k = Some (Query who i coor_) ->
    t !! S k = Some (Store who i (DetermineNearestElement WallADT coor_)).
Proof.
  induction 1 as [|who0 i0 t Ht IH|who0 i0 c0 t Ht IH]; intros k who i coor_ Hk.
  - done.
  - destruct k as [|k]; simpl in *; [done|]. by apply IH.
  - destruct k as [|[|k]]; simpl in *.
    + by injection Hk as -> -> ->.
    + done.
    + by apply IH.
Qed.

Lemma answered_store_before WallADT t :
  answered WallADT t ->
  forall (k : nat) who i dist,
    t !! k = Some (Store who i dist) ->
    dist = zero \/
    exists (k' : nat) coor_,
      k = S k' /\ t !! k' = Some (Query who i coor_) /\
      dist = DetermineNearestElement WallADT coor_.
Proof.
  induction 1 as [|who0 i0 t Ht IH|who0 i0 c0 t Ht IH]; intros k who i dist Hk.
  - done.
  - destruct k as [|k]; simpl in *.
    + injection Hk as _ _ <-. by left.
    + destruct (IH k who i dist Hk) as [->|(k' & c & -> & Hq & ->)]; [by left|].
      right. by exists (S k'), c.
  - destruct k as [|[|k]]; simpl in *.
    + done.
    + injection Hk as <- <- <-. right. by exists 0%nat, c0.
    + destruct (IH k who i dist Hk) as [->|(k' & c & -> & Hq & ->)]; [by left|].
      right. by exists (S (S k')), c.
Qed.

(** X2: the routine never drops the answer of a search and never invents a
    distance: each call of [DetermineNearestElement] is followed at once by
    the store of exactly the value it returned, for the same entity and the
    same integration point; and each store writes either the literal [0.0]
    or the value returned by the call just before it. *)
Theorem every_answer_is_stored config m :
  N.of_nat (length (boundaries m)) < USHRT_RANGE ->
  exists m' trace,
    ComputeWall_Distance config m = Some (m', trace) /\
    let WallADT := build_WallADT m (locals (Step1 config m)) in
    (forall (k : nat) who i coor_,
        trace !! k = Some (Query who i coor_) ->
        trace !! S k = Some (Store who i (DetermineNearestElement WallADT coor_))) /\
    (forall (k : nat) who i dist,
        trace !! k = Some (Store who i dist) ->
        dist = zero \/
        exists (k' : nat) coor_,
          k = S k' /\ trace !! k' = Some (Query who i coor_) /\
          dist = DetermineNearestElement WallADT coor_).
Proof.
  intros Hfit. rewrite ComputeWall_Distance_runs by done.
  set (WallADT := build_WallADT m (locals (Step1 config m))).
  exists (fst (populate WallADT config m)), (snd (populate WallADT config m)).
  split; [by destruct (populate WallADT config m)|]. cbv zeta.
  rewrite populate_events.
  pose proof (answered_run_trace WallADT config m) as Hans.
  split.
  - by apply answered_query_next.
  - by apply answered_store_before.
Qed.

(** *** How often the tree is searched *)

Lemma count_queries_app t1 t2 :
  count_queries (t1 ++ t2) = count_queries t1 + count_queries t2.
Proof. unfold count_queries. rewrite List.filter_app, length_app. lia. Qed.

Lemma count_stores_app t1 t2 :
  count_stores (t1 ++ t2) = count_stores t1 + count_stores t2.
Proof. unfold count_stores. rewrite List.filter_app, length_app. lia. Qed.

Lemma count_entity_events quiet WallADT who m lag nDOFs DOFs nInt :
  count_queries (entity_events quiet WallADT who m lag nDOFs DOFs nInt)
  = (if quiet then 0 else nInt) /\
  count_stores (entity_events quiet WallADT who m lag nDOFs DOFs nInt) = nInt.
Proof.
  unfold entity_events, count_queries, count_stores.
  pose proof (length_Nseq nInt) as Hlen.
  destruct quiet.
  - assert (forall l : list N,
      length (List.filter is_Query (map (fun i => Store who i zero) l)) = 0%nat /\
      length (List.filter (fun ev => negb (is_Query ev))
                (map (fun i => Store who i zero) l)) = length l) as Hl.
    { induction l as [|i l [IH1 IH2]]; simpl; [done|]. split; [done|lia]. }
    destruct (Hl (Nseq nInt)) as [-> ->]. lia.
  - assert (forall (f : N -> list su2double) (l : list N),
      length (List.filter is_Query
                (flat_map (fun i => [Query who i (f i);
                                     Store who i (DetermineNearestElement WallADT (f i))]) l))
      = length l /\
      length (List.filter (fun ev => negb (is_Query ev))
                (flat_map (fun i => [Query who i (f i);
                                     Store who i (DetermineNearestElement WallADT (f i))]) l))
      = length l) as Hl.
    { intros f. induction l as [|i l [IH1 IH2]]; simpl; [done|]. split; lia. }
    destruct (Hl (integration_point_coor m lag nDOFs DOFs) (Nseq nInt)) as [-> ->]. lia.
Qed.

Lemma count_events_of {E : Type} (events : N -> E -> list Event) (nInt_of : E -> N)
    (quiet : bool) elems :
  (forall l e, count_queries (events l e) = (if quiet then 0 else nInt_of e) /\
               count_stores (events l e) = nInt_of e) ->
  forall l,
    count_queries (events_of events l elems)
    = (if quiet then 0 else total_nInt nInt_of elems) /\
    count_stores (events_of events l elems) = total_nInt nInt_of elems.
Proof.
  intros Hev. induction elems as [|e rest IH]; intros l; simpl.
  - by destruct quiet.
  - rewrite count_queries_app, count_stores_app.
    destruct (Hev l e) as [-> ->]. destruct (IH (l + 1)) as [-> ->].
    by destruct quiet.
Qed.

Lemma count_markers_events WallADT config m bs : forall iMarker,
  count_queries (markers_events WallADT config m iMarker bs)
  = (if IsEmpty WallADT then 0
     else markers_points (viscousWall config) m iMarker bs) /\
  count_stores (markers_events WallADT config m iMarker bs)
  = markers_points (fun _ => false) m iMarker bs.
Proof.
  induction bs as [|b rest IH]; intros iMarker; simpl.
  - by destruct (IsEmpty WallADT).
  - rewrite count_queries_app, count_stores_app.
    destruct (IH (iMarker + 1)) as [-> ->]. unfold marker_events.
    destruct (periodicBoundary b); simpl.
    + by destruct (IsEmpty WallADT).
    + destruct (count_events_of
                  (surf_events WallADT m (viscousWall config iMarker) iMarker)
                  (surf_nInt m) (IsEmpty WallADT || viscousWall config iMarker)
                  (surfElem b)
                  (fun l s => count_entity_events _ _ _ _ _ _ _ _) 0) as [-> ->].
      by destruct (IsEmpty WallADT), (viscousWall config iMarker).
Qed.

(** ** What the routine leaves alone *)

Lemma entity_loop_data {E D : Type} (nInt_of : E -> N) (set_pointer : N -> E -> E)
    (distances :
       N -> E -> N -> list su2double * list Event -> list su2double * list Event)
    (data : E -> D) :
  (forall p e, data (set_pointer p e) = data e) ->
  forall elems l n st,
    map data (fst (entity_loop E nInt_of set_pointer distances l elems n st))
    = map data elems.
Proof.
  intros Hdata. induction elems as [|e rest IH]; intros l n st; simpl; [done|].
  specialize (IH (l + 1) (ulong (n + nInt_of e)) (distances l e n st)).
  destruct (entity_loop E nInt_of set_pointer distances (l + 1) rest
              (ulong (n + nInt_of e)) (distances l e n st)) as [rest' out].
  simpl in *. by rewrite Hdata, IH.
Qed.

Lemma boundary_marker_data WallADT config m iMarker b trace :
  marker_data (fst (boundary_marker WallADT config m iMarker b trace)) = marker_data b.
Proof.
  destruct (periodicBoundary b) eqn:Hb.
  - by rewrite boundary_marker_periodic.
  - rewrite boundary_marker_handled by done. unfold marker_data. simpl.
    rewrite Hb. f_equal. unfold surfElem_loop. by apply entity_loop_data.
Qed.

Lemma boundary_markers_data WallADT config m bs : forall iMarker trace,
  map marker_data (fst (boundary_markers WallADT config m iMarker bs trace))
  = map marker_data bs.
Proof.
  induction bs as [|b rest IH]; intros iMarker trace; simpl; [done|].
  pose proof (boundary_marker_data WallADT config m iMarker b trace) as Hb.
  destruct (boundary_marker WallADT config m iMarker b trace) as [b' trace'].
  specialize (IH (iMarker + 1) trace').
  destruct (boundary_markers WallADT config m (iMarker + 1) rest trace')
    as [rest' out].
  simpl in *. by rewrite Hb, IH.
Qed.

Lemma populate_frame WallADT config m :
  let m' := fst (populate WallADT config m) in
  nDim m' = nDim m /\
  meshPoints m' = meshPoints m /\
  standardElementsGrid m' = standardElementsGrid m /\
  standardMatchingFacesGrid m' = standardMatchingFacesGrid m /\
  standardBoundaryFacesGrid m' = standardBoundaryFacesGrid m /\
  nVolElemOwned m' = nVolElemOwned m /\
  map vol_data (volElem m') = map vol_data (volElem m) /\
  drop (N.to_nat (nVolElemOwned m)) (volElem m')
  = drop (N.to_nat (nVolElemOwned m)) (volElem m) /\
  map face_data (matchingFaces m') = map face_data (matchingFaces m) /\
  map marker_data (boundaries m') = map marker_data (boundaries m).
Proof.
  unfold populate.
  pose proof (entity_loop_data (vol_nInt m) set_vol_wallDistance
                (vol_distances WallADT m) vol_data (fun _ _ => eq_refl)
                (ownedVolElem m) 0 0
                (resize (count_nIntPoints CVolumeElementFEM (vol_nInt m)
                           (ownedVolElem m))
                   (VecWallDistanceElements m), [])) as H3.
  unfold volElem_loop.
  destruct (entity_loop _ _ _ _ _ (ownedVolElem m) _ _)
    as [owned' [vecElements trace3]].
  pose proof (entity_loop_data (face_nInt m) set_face_wallDistance
                (face_distances WallADT m) face_data (fun _ _ => eq_refl)
                (matchingFaces m) 0 0
                (resize (count_nIntPoints CInternalFaceElementFEM (face_nInt m)
                           (matchingFaces m))
                   (VecWallDistanceInternalMatchingFaces m), trace3)) as H4.
  unfold matchingFaces_loop.
  destruct (entity_loop _ _ _ _ _ (matchingFaces m) _ _)
    as [faces' [vecFaces trace4]].
  pose proof (boundary_markers_data WallADT config m (boundaries m) 0 trace4) as H5.
  destruct (boundary_markers _ _ _ _ _ _) as [boundaries' trace5].
  simpl in *. repeat (split; [done|]).
  assert (length owned' = length (ownedVolElem m)) as Hlen.
  { apply (f_equal length) in H3. by rewrite !length_map in H3. }
  split; [|split; [|done]].
  - rewrite map_app, H3, <- map_app. unfold ownedVolElem. by rewrite take_drop.
  - unfold ownedVolElem in Hlen. rewrite length_take in Hlen.
    destruct (decide (N.to_nat (nVolElemOwned m) <= length (volElem m))%nat)
      as [Hle|Hgt].
    + rewrite drop_app_length' by lia. done.
    + rewrite !drop_ge; [done|lia|]. rewrite length_app, length_drop. lia.
Qed.

(** X4: the routine changes nothing of the mesh but wall-distance data: the
    dimension, the mesh points, the three tables of standard elements and
    the number of owned elements are as before; the mesh has the same
    volume elements, matching faces, markers and surface elements with the
    same standard element and the same grid DOFs, and the same periodic
    flags; and the volume elements that are not owned are untouched,
    pointer included. *)
Theorem routine_changes_only_distances config m :
  N.of_nat (length (boundaries m)) < USHRT_RANGE ->
  exists m' trace,
    ComputeWall_Distance config m = Some (m', trace) /\
    nDim m' = nDim m /\
    meshPoints m' = meshPoints m /\
    standardElementsGrid m' = standardElementsGrid m /\
    standardMatchingFacesGrid m' = standardMatchingFacesGrid m /\
    standardBoundaryFacesGrid m' = standardBoundaryFacesGrid m /\
    nVolElemOwned m' = nVolElemOwned m /\
    map vol_data (volElem m') = map vol_data (volElem m) /\
    drop (N.to_nat (nVolElemOwned m)) (volElem m')
    = drop (N.to_nat (nVolElemOwned m)) (volElem m) /\
    map face_data (matchingFaces m') = map face_data (matchingFaces m) /\
    map marker_data (boundaries m') = map marker_data (boundaries m).
Proof.
  intros Hfit. rewrite ComputeWall_Distance_runs by done.
  set (WallADT := build_WallADT m (locals (Step1 config m))).
  exists (fst (populate WallADT config m)), (snd (populate WallADT config m)).
  split; [by destruct (populate WallADT config m)|].
  apply populate_frame.
Qed.

(** ** The coordinates passed to the tree *)

Lemma length_integration_point_coor m lag nDOFs DOFs i :
  length (integration_point_coor m lag nDOFs DOFs i) = N.to_nat (nDim m).
Proof.
  unfold integration_point_coor.
  rewrite (for_loop_snoc (nDim m)
    (fun j => [for_loop nDOFs
       (fun k c =>
          add c (mul (at_ lag (ushort (i * nDOFs) + k) zero)
                     (at_ (coor (at_ (meshPoints m) (at_ DOFs k 0) noPoint)) j zero)))
       zero]) []).
  rewrite flat_map_singleton. simpl. by rewrite length_map, length_Nseq.
Qed.

Lemma entity_events_query quiet WallADT who m lag nDOFs DOFs nInt who' i coor_ :
  Query who' i coor_ ∈ entity_events quiet WallADT who m lag nDOFs DOFs nInt ->
  who' = who /\ i < nInt /\ quiet = false /\
  coor_ = integration_point_coor m lag nDOFs DOFs i.
Proof.
  intros H. apply entity_events_who in H as (i' & Hi & [H|[Hq H]]); [done|].
  by injection H as -> -> ->.
Qed.

(** X5: every search is made at a point of [nDim] coordinates, for an
    integration point [i] below the entity's number of integration points;
    and whenever [i*nDOFs] fits [unsigned short] (in particular for every
    point of an entity whose table of basis functions has at most 65536
    entries), these are the interpolated coordinates: in each dimension the
    sum over the grid DOFs [k] of [lag[i*nDOFs+k]] times the coordinate of
    mesh point [DOFs[k]]. *)
Theorem query_coordinates_interpolated config m :
  N.of_nat (length (boundaries m)) < USHRT_RANGE ->
  exists m' trace,
    ComputeWall_Distance config m = Some (m', trace) /\
    (forall (l : nat) e i coor_,
        ownedVolElem m !! l = Some e ->
        Query (VolumeElement (N.of_nat l)) i coor_ ∈ trace ->
        i < vol_nInt m e /\ length coor_ = N.to_nat (nDim m) /\
        (i * vol_nDOFsGrid e < USHRT_RANGE ->
         coor_ = interpolated_coor m
                   (GetBasisFunctionsIntegration (vol_standardElement m e))
                   (vol_nDOFsGrid e) (nodeIDsGrid e) i)) /\
    (forall (l : nat) f i coor_,
        matchingFaces m !! l = Some f ->
        Query (MatchingFace (N.of_nat l)) i coor_ ∈ trace ->
        i < face_nInt m f /\ length coor_ = N.to_nat (nDim m) /\
        (i * GetNDOFsFaceSide0 (face_standardElement m f) < USHRT_RANGE ->
         coor_ = interpolated_coor m
                   (GetBasisFaceIntegrationSide0 (face_standardElement m f))
                   (GetNDOFsFaceSide0 (face_standardElement m f))
                   (DOFsGridFaceSide0 f) i)) /\
    (forall (iMarker l : nat) b s i coor_,
        boundaries m !! iMarker = Some b -> surfElem b !! l = Some s ->
        Query (BoundaryFace (N.of_nat iMarker) (N.of_nat l)) i coor_ ∈ trace ->
        i < surf_nInt m s /\ length coor_ = N.to_nat (nDim m) /\
        (i * nDOFsGrid s < USHRT_RANGE ->
         coor_ = interpolated_coor m
                   (GetBasisFaceIntegration (surf_standardElement m s))
                   (nDOFsGrid s) (DOFsGridFace s) i)).
Proof.
  intros Hfit. rewrite ComputeWall_Distance_runs by done.
  set (WallADT := build_WallADT m (locals (Step1 config m))).
  exists (fst (populate WallADT config m)), (snd (populate WallADT config m)).
  split; [by destruct (populate WallADT config m)|].
  split; [|split].
  - intros l e i coor_ He Hq. apply populate_trace in Hq.
    destruct Hq as [(l' & e' & He' & H)|[(l' & f & _ & H)|(k & b & l' & s & _ & _ & _ & H)]];
      apply entity_events_query in H as (Hwho & Hi & _ & ->); try discriminate.
    injection Hwho as Hl. apply Nat2N.inj in Hl. subst l'.
    assert (e' = e) as -> by congruence.
    split; [done|]. split; [apply length_integration_point_coor|].
    apply integration_point_coor_no_wrap.
  - intros l f i coor_ Hf Hq. apply populate_trace in Hq.
    destruct Hq as [(l' & e & _ & H)|[(l' & f' & Hf' & H)|(k & b & l' & s & _ & _ & _ & H)]];
      apply entity_events_query in H as (Hwho & Hi & _ & ->); try discriminate.
    injection Hwho as Hl. apply Nat2N.inj in Hl. subst l'.
    assert (f' = f) as -> by congruence.
    split; [done|]. split; [apply length_integration_point_coor|].
    apply integration_point_coor_no_wrap.
  - intros iMarker l b s i coor_ Hb Hs Hq. apply populate_trace in Hq.
    destruct Hq as [(l' & e & _ & H)|[(l' & f & _ & H)|(k & b' & l' & s' & Hb' & _ & Hs' & H)]];
      apply entity_events_query in H as (Hwho & Hi & _ & ->); try discriminate.
    injection Hwho as Hk Hl. apply Nat2N.inj in Hk, Hl. subst k l'.
    assert (b' = b) as -> by congruence.
    assert (s' = s) as -> by congruence.
    split; [done|]. split; [apply length_integration_point_coor|].
    apply integration_point_coor_no_wrap.
Qed.

(** ** No viscous wall *)

Lemma extract_markers_no_wall_marker config bs : forall iMarker fr,
  no_wall_marker config iMarker bs = true ->
  extract_markers config iMarker bs fr = fr.
Proof.
  induction bs as [|b rest IH]; intros iMarker fr Hno; simpl in *; [done|].
  apply andb_true_iff in Hno as [Hb Hrest]. apply negb_true_iff in Hb.
  rewrite extract_marker_wall, Hb. by apply IH.
Qed.

Lemma Step1_no_wall_marker config m :
  no_wall_marker config 0 (boundaries m) = true ->
  locals (Step1 config m) = init_locals m.
Proof.
  intros Hno. unfold Step1, Step1_collect. simpl.
  rewrite extract_markers_no_wall_marker by done.
  simpl. rewrite number_points_no_flags.
  - symmetry. apply Locals_eta.
  - simpl. by apply Forall_replicate.
Qed.

(** With an empty tree the pass stores [0.0] only. *)
Lemma populate_empty_tree WallADT config m :
  IsEmpty WallADT = true ->
  (forall ev, ev ∈ snd (populate WallADT config m) -> exists who i, ev = Store who i zero) /\
  Forall (fun x => x = zero) (VecWallDistanceElements (fst (populate WallADT config m))) /\
  Forall (fun x => x = zero)
    (VecWallDistanceInternalMatchingFaces (fst (populate WallADT config m))) /\
  (forall (iMarker : nat) b',
      boundaries (fst (populate WallADT config m)) !! iMarker = Some b' ->
      periodicBoundary b' = false ->
      Forall (fun x => x = zero) (VecWallDistanceBoundaryFaces b')).
Proof.
  intros Hempty. split; [|split; [|split]].
  - intros ev Hev. apply populate_trace in Hev.
    destruct Hev as [(l & e & _ & H)|[(l & f & _ & H)|(k & b & l & s & _ & _ & _ & H)]].
    + unfold vol_events in H. rewrite Hempty in H.
      apply entity_events_quiet in H as (i & _ & ->). eauto.
    + unfold face_events in H. rewrite Hempty in H.
      apply entity_events_quiet in H as (i & _ & ->). eauto.
    + unfold surf_events in H. rewrite Hempty, orb_true_l in H.
      apply entity_events_quiet in H as (i & _ & ->). eauto.
  - rewrite populate_VecWallDistanceElements. unfold volElem_loop.
    apply (entity_loop_all_zero CVolumeElementFEM (vol_nInt m) set_vol_wallDistance
             (vol_distances WallADT m) (fun _ => vol_value WallADT m)
             (vol_events WallADT m) (vol_distances_eq WallADT m)).
    intros _ e i. by apply vol_value_quiet.
  - destruct (populate_matchingFaces WallADT config m) as (trace3 & _ & ->).
    unfold matchingFaces_loop.
    apply (entity_loop_all_zero CInternalFaceElementFEM (face_nInt m)
             set_face_wallDistance
             (face_distances WallADT m) (fun _ => face_value WallADT m)
             (face_events WallADT m) (face_distances_eq WallADT m)).
    intros _ f i. by apply face_value_quiet.
  - intros iMarker b' Hb' Hp.
    destruct (populate_boundary_inv WallADT config m iMarker b' Hb')
      as (b & trace_k & Hb & ->).
    rewrite boundary_marker_flag in Hp.
    apply boundary_marker_zero; [done|]. by rewrite Hempty.
Qed.

(** X6: when no marker is a viscous wall that is not periodic, step 1
    extracts nothing (every vector handed to the tree is empty and no mesh
    point is numbered), and, the tree built from no element being empty, the
    routine searches nothing and every wall distance it stores is [0.0]. *)
Theorem no_viscous_wall_zero_distance config m :
  N.of_nat (length (boundaries m)) < USHRT_RANGE ->
  no_wall_marker config 0 (boundaries m) = true ->
  IsEmpty (su2_adtElemClass_new (nDim m) [] [] [] [] []) = true ->
  locals (Step1 config m) = init_locals m /\
  exists m' trace,
    ComputeWall_Distance config m = Some (m', trace) /\
    (forall ev, ev ∈ trace -> exists who i, ev = Store who i zero) /\
    Forall (fun x => x = zero) (VecWallDistanceElements m') /\
    Forall (fun x => x = zero) (VecWallDistanceInternalMatchingFaces m') /\
    (forall (iMarker : nat) b',
        boundaries m' !! iMarker = Some b' -> periodicBoundary b' = false ->
        Forall (fun x => x = zero) (VecWallDistanceBoundaryFaces b')).
Proof.
  intros Hfit Hno Hempty.
  pose proof (Step1_no_wall_marker config m Hno) as Hloc.
  split; [done|]. rewrite ComputeWall_Distance_runs by done.
  set (WallADT := build_WallADT m (locals (Step1 config m))).
  assert (IsEmpty WallADT = true) as HW.
  { subst WallADT. unfold build_WallADT. by rewrite Hloc. }
  exists (fst (populate WallADT config m)), (snd (populate WallADT config m)).
  split; [by destruct (populate WallADT config m)|].
  by apply populate_empty_tree.
Qed.

(** ** The vectors handed to the tree *)

Lemma extract_surfElems_subs iMarker elems : forall i fr,
  let loc := locals fr in
  let loc' := locals (extract_surfElems iMarker i elems fr) in
  let subs := surfElems_subs (this fr) iMarker i elems in
  markerIDs loc' = markerIDs loc ++ map (fun t => fst (fst t)) subs /\
  elemIDs loc' = elemIDs loc ++ map (fun t => snd (fst t)) subs /\
  VTK_TypeElem loc' = VTK_TypeElem loc ++ map snd subs /\
  surfaceConn loc' = surfaceConn loc ++ flat_map (raw_conn_of (this fr)) elems.
Proof.
  induction elems as [|s rest IH]; intros i fr; simpl.
  - by rewrite !app_nil_r.
  - destruct (IH (i + 1) (extract_surfElem iMarker i s fr)) as (-> & -> & -> & ->).
    rewrite extract_surfElem_spec. simpl.
    rewrite !map_app, !fmap_replicate, !app_assoc. done.
Qed.

Lemma extract_markers_subs config bs : forall iMarker fr,
  let loc := locals fr in
  let loc' := locals (extract_markers config iMarker bs fr) in
  let subs := markers_subs config (this fr) iMarker bs in
  markerIDs loc' = markerIDs loc ++ map (fun t => fst (fst t)) subs /\
  elemIDs loc' = elemIDs loc ++ map (fun t => snd (fst t)) subs /\
  VTK_TypeElem loc' = VTK_TypeElem loc ++ map snd subs /\
  surfaceConn loc' = surfaceConn loc ++ markers_conn config (this fr) iMarker bs.
Proof.
  induction bs as [|b rest IH]; intros iMarker fr; simpl.
  - by rewrite !app_nil_r.
  - destruct (IH (iMarker + 1) (extract_marker config iMarker b fr))
      as (-> & -> & -> & ->).
    rewrite this_extract_marker, extract_marker_wall.
    destruct (wall_marker config iMarker b).
    + destruct (extract_surfElems_subs iMarker (surfElem b) 0 fr)
        as (-> & -> & -> & ->).
      by rewrite !map_app, !app_assoc.
    + done.
Qed.

Lemma number_points_VTK_TypeElem nDim_ pts : forall i fr,
  VTK_TypeElem (locals (number_points nDim_ i pts fr)) = VTK_TypeElem (locals fr).
Proof.
  induction pts as [|p rest IH]; intros i fr; simpl; [done|].
  rewrite IH. simpl. unfold number_point.
  by destruct (nth i (meshToSurface (locals fr)) 0 =? 0).
Qed.

Lemma Step1_subs config m :
  let loc := locals (Step1 config m) in
  let subs := markers_subs config m 0 (boundaries m) in
  markerIDs loc = map (fun t => fst (fst t)) subs /\
  elemIDs loc = map (fun t => snd (fst t)) subs /\
  VTK_TypeElem loc = map snd subs.
Proof.
  unfold Step1. simpl.
  set (frc := Step1_collect config {| this := m; locals := init_locals m |}).
  destruct (number_points_ids (nDim (this frc)) (meshPoints (this frc)) 0 frc)
    as (-> & -> & _).
  rewrite number_points_VTK_TypeElem.
  subst frc. unfold Step1_collect. simpl.
  by destruct (extract_markers_subs config (boundaries m) 0
                 {| this := m; locals := init_locals m |}) as (-> & -> & -> & _).
Qed.

Lemma elem_of_surfElems_subs m iMarker elems : forall i0 M i v,
  (M, i, v) ∈ surfElems_subs m iMarker i0 elems ->
  M = iMarker /\
  exists (k : nat) s, elems !! k = Some s /\ i = i0 + N.of_nat k /\
    v = GetVTK_Type (surf_standardElement m s).
Proof.
  induction elems as [|s rest IH]; intros i0 M i v; simpl.
  - by rewrite elem_of_nil.
  - rewrite elem_of_app, elem_of_replicate.
    intros [[Heq _]|H].
    + injection Heq as -> -> ->. split; [done|].
      exists 0%nat, s. split; [done|]. split; [lia|done].
    + apply IH in H as (-> & k & s' & Hk & -> & ->). split; [done|].
      exists (S k), s'. split; [done|]. split; [lia|done].
Qed.

Lemma elem_of_markers_subs config m bs : forall iMarker0 M i v,
  (M, i, v) ∈ markers_subs config m iMarker0 bs ->
  exists (k : nat) b (l : nat) s,
    bs !! k = Some b /\ M = iMarker0 + N.of_nat k /\
    wall_marker config M b = true /\
    surfElem b !! l = Some s /\ i = N.of_nat l /\
    v = GetVTK_Type (surf_standardElement m s).
Proof.
  induction bs as [|b rest IH]; intros iMarker0 M i v; simpl.
  - by rewrite elem_of_nil.
  - rewrite elem_of_app. intros [H|H].
    + destruct (wall_marker config iMarker0 b) eqn:Hw; [|by apply elem_of_nil in H].
      apply elem_of_surfElems_subs in H as (-> & l & s & Hl & -> & ->).
      exists 0%nat, b, l, s. rewrite N.add_0_r, N.add_0_l. done.
    + apply IH in H as (k & b' & l & s & Hk & -> & Hw & Hl & -> & ->).
      exists (S k), b', l, s.
      replace (iMarker0 + N.of_nat (S k)) with (iMarker0 + 1 + N.of_nat k) by lia.
      done.
Qed.

Lemma length_markers_subs config m bs : forall iMarker,
  N.of_nat (length (markers_subs config m iMarker bs))
  = wall_total (fun s => GetNSubFaces (surf_standardElement m s)) config iMarker bs.
Proof.
  assert (forall iMarker elems i,
    N.of_nat (length (surfElems_subs m iMarker i elems))
    = foldr (fun s acc => GetNSubFaces (surf_standardElement m s) + acc) 0 elems)
    as Hel.
  { intros iMarker. induction elems as [|s rest IH]; intros i; simpl; [done|].
    rewrite length_app, length_replicate, Nat2N.inj_add, IH. lia. }
  induction bs as [|b rest IH]; intros iMarker; simpl; [done|].
  rewrite length_app, Nat2N.inj_add, IH.
  destruct (wall_marker config iMarker b); [|done]. by rewrite Hel.
Qed.

(** X7: the three vectors that describe the sub-elements to the tree are
    parallel and have one entry per linear sub-face of the surface elements
    of the wall markers; entry [k] names a marker that is not periodic and
    is a viscous wall, a surface element of that marker, and the VTK type of
    the standard face of that surface element. *)
Theorem subelement_vectors_parallel config m :
  let loc := locals (Step1 config m) in
  length (elemIDs loc) = length (markerIDs loc) /\
  length (VTK_TypeElem loc) = length (markerIDs loc) /\
  N.of_nat (length (markerIDs loc))
  = wall_total (fun s => GetNSubFaces (surf_standardElement m s)) config 0
      (boundaries m) /\
  forall (k : nat) M,
    markerIDs loc !! k = Some M ->
    exists (iMarker l : nat) b s,
      M = N.of_nat iMarker /\ boundaries m !! iMarker = Some b /\
      periodicBoundary b = false /\ viscousWall config M = true /\
      elemIDs loc !! k = Some (N.of_nat l) /\ surfElem b !! l = Some s /\
      VTK_TypeElem loc !! k = Some (GetVTK_Type (surf_standardElement m s)).
Proof.
  cbv zeta. destruct (Step1_subs config m) as (-> & -> & ->).
  rewrite !length_map. split; [done|]. split; [done|].
  split; [apply length_markers_subs|].
  intros k M Hk. rewrite !list_lookup_fmap in *.
  destruct (markers_subs config m 0 (boundaries m) !! k) as [[[M' i] v]|] eqn:Ht;
    simpl in Hk; [|done].
  injection Hk as ->.
  apply list_elem_of_lookup_2, elem_of_markers_subs in Ht
    as (iMarker & b & l & s & Hb & -> & Hw & Hs & -> & ->).
  rewrite N.add_0_l in *.
  unfold wall_marker in Hw. apply andb_true_iff in Hw as [Hp Hv].
  apply negb_true_iff in Hp.
  exists iMarker, l, b, s. done.
Qed.

Lemma length_markers_conn config m bs : forall iMarker,
  N.of_nat (length (markers_conn config m iMarker bs))
  = wall_total
      (fun s => GetNSubFaces (surf_standardElement m s)
                * GetNDOFsPerSubFace (surf_standardElement m s))
      config iMarker bs.
Proof.
  induction bs as [|b rest IH]; intros iMarker; simpl; [done|].
  rewrite length_app, Nat2N.inj_add, IH.
  destruct (wall_marker config iMarker b); [|done]. f_equal.
  induction (surfElem b) as [|s elems IHs]; simpl; [done|].
  rewrite length_app, Nat2N.inj_add, IHs. f_equal.
  unfold raw_conn_of, surf_standardElement. simpl.
  by rewrite length_map, length_Nseq, N2Nat.id.
Qed.

(** X8: before the remap of lines 120-121 the connectivity lists, for the
    surface elements of the wall markers in order, the mesh points
    [DOFsGridFace[connSubFaces[ii]]] for [ii] from 0 to
    [nSubFaces*nDOFsPerSubFace - 1] ([ii] being an [unsigned short]); the
    remap replaces each entry by its [meshToSurface] number and changes
    neither the length nor the order, so the connectivity holds
    [nSubFaces*nDOFsPerSubFace] entries for each of these surface
    elements. *)
Theorem connectivity_of_wall_subfaces config m :
  let loc := locals (Step1 config m) in
  raw_surfaceConn config m = markers_conn config m 0 (boundaries m) /\
  surfaceConn loc
  = map (fun g => at_ (meshToSurface loc) g 0) (raw_surfaceConn config m) /\
  N.of_nat (length (surfaceConn loc))
  = wall_total
      (fun s => GetNSubFaces (surf_standardElement m s)
                * GetNDOFsPerSubFace (surf_standardElement m s))
      config 0 (boundaries m).
Proof.
  cbv zeta.
  assert (raw_surfaceConn config m = markers_conn config m 0 (boundaries m)) as Hraw.
  { unfold raw_surfaceConn, Step1_collect. simpl.
    by destruct (extract_markers_subs config (boundaries m) 0
                   {| this := m; locals := init_locals m |}) as (_ & _ & _ & ->). }
  assert (surfaceConn (locals (Step1 config m))
          = map (fun g => at_ (meshToSurface (locals (Step1 config m))) g 0)
              (raw_surfaceConn config m)) as Hmap.
  { unfold Step1, raw_surfaceConn. simpl.
    set (frc := Step1_collect config {| this := m; locals := init_locals m |}).
    by destruct (number_points_ids (nDim (this frc)) (meshPoints (this frc)) 0 frc)
      as (_ & _ & ->). }
  split; [done|]. split; [done|].
  rewrite Hmap, length_map, Hraw. apply length_markers_conn.
Qed.

(** *** The remap keeps the geometry *)

Lemma flat_map_point_coor_lookup nDim_ (pts : list CPointFEM) (l : list nat) :
  forall (k g : nat) d,
    l !! k = Some g -> d < nDim_ ->
    flat_map (fun g => point_coor nDim_ (nth g pts noPoint)) l
      !! (k * N.to_nat nDim_ + N.to_nat d)%nat
    = Some (at_ (coor (nth g pts noPoint)) d zero).
Proof.
  induction l as [|g0 l IH]; intros k g d Hk Hd; [done|].
  assert (length (point_coor nDim_ (nth g0 pts noPoint)) = N.to_nat nDim_) as Hlen.
  { unfold point_coor. by rewrite length_map, length_Nseq. }
  destruct k as [|k]; simpl in *.
  - injection Hk as ->. rewrite lookup_app_l by lia.
    unfold point_coor, Nseq. rewrite !list_lookup_fmap, lookup_seq_lt by lia.
    simpl. by rewrite N2Nat.id.
  - rewrite lookup_app_r by lia. rewrite Hlen.
    replace (N.to_nat nDim_ + k * N.to_nat nDim_ + N.to_nat d - N.to_nat nDim_)%nat
      with (k * N.to_nat nDim_ + N.to_nat d)%nat by lia.
    by apply IH.
Qed.

Lemma wall_nodes_at_rank flags n g :
  (g < n)%nat -> nth g flags 0 <> 0 ->
  wall_nodes flags 0 n !! length (wall_nodes flags 0 g) = Some g.
Proof.
  intros Hg Hflag. rewrite (wall_nodes_split flags n g) by done.
  by rewrite list_lookup_middle.
Qed.

(** X9: the remap keeps the geometry of the sub-elements.  For every entry
    of the connectivity, which before the remap named the mesh point [g],
    the entry after the remap is a local point number [v] below
    [nVertex_SolidWall], and the [nDim] coordinates stored for [v] in
    [surfaceCoor] are the coordinates of mesh point [g].  The wall surface
    elements are assumed consistent with their standard elements and with
    the mesh. *)
Theorem remap_keeps_coordinates config m :
  wall_faces_ok config m = true ->
  let loc := locals (Step1 config m) in
  forall (p : nat) g,
    raw_surfaceConn config m !! p = Some g ->
    exists v,
      surfaceConn loc !! p = Some v /\ v < nVertex_SolidWall loc /\
      forall d, d < nDim m ->
        surfaceCoor loc !! N.to_nat (v * nDim m + d)
        = Some (at_ (coor (at_ (meshPoints m) g noPoint)) d zero).
Proof.
  intros Hok loc p g Hp. subst loc.
  destruct (Step1_collect_sound config m Hok) as (Hlen & Hbits & Hconn).
  destruct (Step1_locals config m Hlen) as (HnV & Hcoor & Hrank & Hsc).
  set (flags := meshToSurface
         (locals (Step1_collect config {| this := m; locals := init_locals m |}))) in *.
  assert (g ∈ raw_surfaceConn config m) as Hin by (by apply list_elem_of_lookup_2 in Hp).
  destruct (Hconn g Hin) as [Hlt Hone].
  assert (nth (N.to_nat g) flags 0 <> 0) as Hflag by (by rewrite Hone).
  exists (N.of_nat (length (wall_nodes flags 0 (N.to_nat g)))).
  split; [|split].
  - rewrite Hsc, list_lookup_fmap, Hp. simpl. f_equal. unfold at_. by apply Hrank.
  - rewrite HnV. pose proof (wall_nodes_rank_lt flags _ _ Hlt Hflag). lia.
  - intros d Hd. rewrite Hcoor.
    replace (N.to_nat (N.of_nat (length (wall_nodes flags 0 (N.to_nat g))) * nDim m + d))
      with (length (wall_nodes flags 0 (N.to_nat g)) * N.to_nat (nDim m) + N.to_nat d)%nat
      by lia.
    apply flat_map_point_coor_lookup; [|done].
    by apply wall_nodes_at_rank.
Qed.

(** X10: the local numbering of the wall points follows the numbering of the
    mesh points: of two mesh points that are corners of wall sub-elements,
    the one with the smaller mesh-point number gets the smaller local
    number; and there are at most as many local points as mesh points.  The
    wall surface elements are assumed consistent with their standard
    elements and with the mesh. *)
Theorem local_numbering_monotone config m :
  wall_faces_ok config m = true ->
  let loc := locals (Step1 config m) in
  nVertex_SolidWall loc <= N.of_nat (length (meshPoints m)) /\
  forall g1 g2,
    g1 ∈ raw_surfaceConn config m -> g2 ∈ raw_surfaceConn config m -> g1 < g2 ->
    at_ (meshToSurface loc) g1 0 < at_ (meshToSurface loc) g2 0.
Proof.
  intros Hok loc. subst loc.
  destruct (Step1_collect_sound config m Hok) as (Hlen & Hbits & Hconn).
  destruct (Step1_locals config m Hlen) as (HnV & Hcoor & Hrank & Hsc).
  set (flags := meshToSurface
         (locals (Step1_collect config {| this := m; locals := init_locals m |}))) in *.
  split.
  - rewrite HnV. unfold wall_nodes.
    pose proof (length_filter (fun g => nth g flags 0 <> 0)
                  (seq 0 (length (meshPoints m)))) as Hle.
    rewrite length_seq in Hle. lia.
  - intros g1 g2 H1 H2 Hlt.
    destruct (Hconn g1 H1) as [Hlt1 Hone1]. destruct (Hconn g2 H2) as [Hlt2 Hone2].
    unfold at_. rewrite !Hrank by (rewrite ?Hone1, ?Hone2; discriminate).
    pose proof (wall_nodes_rank_lt flags (N.to_nat g2) (N.to_nat g1) ltac:(lia)
                  ltac:(rewrite Hone1; discriminate)).
    lia.
Qed.

(** *** Which mesh points are numbered *)

Lemma flag_points_app gs1 gs2 flags :
  flag_points (gs1 ++ gs2) flags = flag_points gs2 (flag_points gs1 flags).
Proof. unfold flag_points. by rewrite fold_left_app. Qed.

Lemma extract_surfElems_flags iMarker elems : forall i fr,
  meshToSurface (locals (extract_surfElems iMarker i elems fr))
  = flag_points (flat_map flagged_of elems) (meshToSurface (locals fr)).
Proof.
  induction elems as [|s rest IH]; intros i fr; simpl; [done|].
  rewrite IH, extract_surfElem_spec. simpl. by rewrite flag_points_app.
Qed.

Lemma extract_markers_flags config bs : forall iMarker fr,
  meshToSurface (locals (extract_markers config iMarker bs fr))
  = flag_points (markers_flagged config iMarker bs) (meshToSurface (locals fr)).
Proof.
  induction bs as [|b rest IH]; intros iMarker fr; simpl; [done|].
  rewrite IH, extract_marker_wall, flag_points_app.
  destruct (wall_marker config iMarker b); [|done].
  by rewrite extract_surfElems_flags.
Qed.

Lemma filter_iff_elem {A : Type} (P Q : A -> Prop)
    `{forall x, Decision (P x)} `{forall x, Decision (Q x)} (l : list A) :
  (forall x, x ∈ l -> (P x <-> Q x)) -> filter P l = filter Q l.
Proof.
  induction l as [|x l IH]; intros Hl; [done|].
  rewrite !filter_cons.
  rewrite IH by (intros y Hy; apply Hl; by apply elem_of_cons; right).
  pose proof (Hl x ltac:(by apply elem_of_cons; left)) as Hx.
  destruct (decide (P x)) as [HP|HP], (decide (Q x)) as [HQ|HQ]; try done.
  - exfalso. by apply HQ, Hx.
  - exfalso. by apply HP, Hx.
Qed.

Lemma wall_nodes_flagged config m :
  wall_nodes
    (meshToSurface
       (locals (Step1_collect config {| this := m; locals := init_locals m |})))
    0 (length (meshPoints m))
  = wall_surfElem_nodes config m.
Proof.
  unfold wall_nodes, wall_surfElem_nodes, Step1_collect. simpl.
  rewrite extract_markers_flags. simpl.
  apply filter_iff_elem. intros g Hg. apply elem_of_seq in Hg.
  rewrite flag_points_nth, length_replicate.
  case_decide as Hin.
  - split; [by intros _; destruct Hin|done].
  - rewrite nth_lookup, lookup_replicate_2 by lia. simpl.
    split; [done|]. intros Hm. exfalso. apply Hin. split; [done|lia].
Qed.

(** X13: the mesh points that get a local number are the grid DOFs of the
    surface elements of the wall markers, whether or not a sub-face uses
    them as a corner: [nVertex_SolidWall] counts them, [surfaceCoor] holds
    their coordinates in increasing order of the mesh points, the [k]-th of
    them gets the local number [k], and every corner of a sub-element is one
    of them.  The wall surface elements are assumed consistent with their
    standard elements and with the mesh. *)
Theorem numbered_points_are_wall_nodes config m :
  wall_faces_ok config m = true ->
  let loc := locals (Step1 config m) in
  let nodes := wall_surfElem_nodes config m in
  nVertex_SolidWall loc = N.of_nat (length nodes) /\
  surfaceCoor loc
  = flat_map (fun g => point_coor (nDim m) (nth g (meshPoints m) noPoint)) nodes /\
  (forall k g : nat,
      nodes !! k = Some g -> at_ (meshToSurface loc) (N.of_nat g) 0 = N.of_nat k) /\
  (forall g, g ∈ raw_surfaceConn config m -> N.to_nat g ∈ nodes).
Proof.
  intros Hok loc nodes. subst loc nodes.
  destruct (Step1_collect_sound config m Hok) as (Hlen & Hbits & Hconn).
  destruct (Step1_locals config m Hlen) as (HnV & Hcoor & Hrank & Hsc).
  rewrite <- (wall_nodes_flagged config m).
  set (flags := meshToSurface
         (locals (Step1_collect config {| this := m; locals := init_locals m |}))) in *.
  split; [done|]. split; [done|]. split.
  - intros k g Hk. unfold at_. rewrite Nat2N.id.
    assert (g ∈ wall_nodes flags 0 (length (meshPoints m))) as Hin
      by (by apply list_elem_of_lookup; exists k).
    apply list_elem_of_filter in Hin as [Hflag _].
    rewrite Hrank by done. f_equal.
    by apply (wall_nodes_rank flags (length (meshPoints m)) k g).
  - intros g Hg. destruct (Hconn g Hg) as [Hlt Hone].
    unfold wall_nodes. apply list_elem_of_filter. split.
    + by rewrite Hone.
    + apply elem_of_seq. lia.
Qed.

(** ** The result depends on the geometry only *)

Section SameData.

Variables E D : Type.
Variable data : E -> D.
Variable set_pointer : N -> E -> E.
Variables nInt1 nInt2 : E -> N.
Variables value1 value2 : E -> N -> su2double.
Variables events1 events2 : N -> E -> list Event.

Hypothesis data_set : forall p e, data (set_pointer p e) = data e.
Hypothesis set_data : forall p e1 e2,
  data e1 = data e2 -> set_pointer p e1 = set_pointer p e2.
Hypothesis nInt_data : forall e1 e2, data e1 = data e2 -> nInt1 e1 = nInt2 e2.
Hypothesis value_data : forall e1 e2 i,
  data e1 = data e2 -> value1 e1 i = value2 e2 i.
Hypothesis events_data : forall l e1 e2,
  data e1 = data e2 -> events1 l e1 = events2 l e2.

Lemma total_nInt_data l1 : forall l2,
  map data l1 = map data l2 -> total_nInt nInt1 l1 = total_nInt nInt2 l2.
Proof.
  induction l1 as [|e1 l1 IH]; intros [|e2 l2] H; simpl in *; try done.
  injection H as He Hl. by rewrite (nInt_data e1 e2 He), (IH l2 Hl).
Qed.

Lemma values_of_data l1 : forall l2,
  map data l1 = map data l2 -> values_of nInt1 value1 l1 = values_of nInt2 value2 l2.
Proof.
  unfold values_of.
  induction l1 as [|e1 l1 IH]; intros [|e2 l2] H; simpl in *; try done.
  injection H as He Hl. rewrite (nInt_data e1 e2 He), (IH l2 Hl). f_equal.
  apply map_ext. intros i. by apply value_data.
Qed.

Lemma events_of_data l1 : forall l2 l,
  map data l1 = map data l2 -> events_of events1 l l1 = events_of events2 l l2.
Proof.
  induction l1 as [|e1 l1 IH]; intros [|e2 l2] l H; simpl in *; try done.
  injection H as He Hl. by rewrite (events_data l e1 e2 He), (IH l2 (l + 1) Hl).
Qed.

Lemma pointed_data l1 : forall l2 n,
  map data l1 = map data l2 ->
  pointed set_pointer nInt1 n l1 = pointed set_pointer nInt2 n l2.
Proof.
  induction l1 as [|e1 l1 IH]; intros [|e2 l2] n H; simpl in *; try done.
  injection H as He Hl.
  by rewrite (set_data n e1 e2 He), (nInt_data e1 e2 He), (IH l2 _ Hl).
Qed.

Lemma map_data_pointed l : forall n,
  map data (pointed set_pointer nInt1 n l) = map data l.
Proof. induction l as [|e l IH]; intros n; simpl; [done|]. by rewrite data_set, IH. Qed.

End SameData.

Lemma set_vol_wallDistance_data p e1 e2 :
  vol_data e1 = vol_data e2 -> set_vol_wallDistance p e1 = set_vol_wallDistance p e2.
Proof. unfold vol_data, set_vol_wallDistance. by intros [= -> -> ->]. Qed.

Lemma set_face_wallDistance_data p f1 f2 :
  face_data f1 = face_data f2 -> set_face_wallDistance p f1 = set_face_wallDistance p f2.
Proof. unfold face_data, set_face_wallDistance. by intros [= -> ->]. Qed.

Lemma set_wallDistance_data p s1 s2 :
  surf_data s1 = surf_data s2 -> set_wallDistance p s1 = set_wallDistance p s2.
Proof. unfold surf_data, set_wallDistance. by intros [= -> -> ->]. Qed.

Lemma integration_point_coor_data m1 m2 lag nDOFs DOFs i :
  nDim m1 = nDim m2 -> meshPoints m1 = meshPoints m2 ->
  integration_point_coor m1 lag nDOFs DOFs i = integration_point_coor m2 lag nDOFs DOFs i.
Proof. unfold integration_point_coor. by intros -> ->. Qed.

Lemma stored_distance_data quiet WallADT m1 m2 lag nDOFs DOFs i :
  nDim m1 = nDim m2 -> meshPoints m1 = meshPoints m2 ->
  stored_distance quiet WallADT m1 lag nDOFs DOFs i
  = stored_distance quiet WallADT m2 lag nDOFs DOFs i.
Proof.
  intros Hd Hp. unfold stored_distance.
  by rewrite (integration_point_coor_data m1 m2 lag nDOFs DOFs i Hd Hp).
Qed.

Lemma entity_events_data quiet WallADT who m1 m2 lag nDOFs DOFs nInt :
  nDim m1 = nDim m2 -> meshPoints m1 = meshPoints m2 ->
  entity_events quiet WallADT who m1 lag nDOFs DOFs nInt
  = entity_events quiet WallADT who m2 lag nDOFs DOFs nInt.
Proof.
  intros Hd Hp. unfold entity_events. destruct quiet; [done|].
  apply flat_map_ext. intros i.
  by rewrite (integration_point_coor_data m1 m2 lag nDOFs DOFs i Hd Hp).
Qed.

Section SameMeshData.

Variables m1 m2 : CMeshFEM_DG.
Hypothesis Hsame : same_data m1 m2.

Lemma vol_nInt_data e1 e2 : vol_data e1 = vol_data e2 -> vol_nInt m1 e1 = vol_nInt m2 e2.
Proof.
  destruct Hsame as (_ & _ & Hse & _). unfold vol_data, vol_nInt, vol_standardElement.
  intros [= -> _ _]. by rewrite Hse.
Qed.

Lemma vol_value_data WallADT e1 e2 i :
  vol_data e1 = vol_data e2 -> vol_value WallADT m1 e1 i = vol_value WallADT m2 e2 i.
Proof.
  destruct Hsame as (Hd & Hp & Hse & _). unfold vol_data, vol_value, vol_standardElement.
  intros [= -> -> ->]. rewrite Hse. by apply stored_distance_data.
Qed.

Lemma vol_events_data WallADT l e1 e2 :
  vol_data e1 = vol_data e2 -> vol_events WallADT m1 l e1 = vol_events WallADT m2 l e2.
Proof.
  destruct Hsame as (Hd & Hp & Hse & _).
  unfold vol_data, vol_events, vol_nInt, vol_standardElement.
  intros [= -> -> ->]. rewrite Hse. by apply entity_events_data.
Qed.

Lemma face_nInt_data f1 f2 :
  face_data f1 = face_data f2 -> face_nInt m1 f1 = face_nInt m2 f2.
Proof.
  destruct Hsame as (_ & _ & _ & Hsf & _).
  unfold face_data, face_nInt, face_standardElement.
  intros [= -> _]. by rewrite Hsf.
Qed.

Lemma face_value_data WallADT f1 f2 i :
  face_data f1 = face_data f2 -> face_value WallADT m1 f1 i = face_value WallADT m2 f2 i.
Proof.
  destruct Hsame as (Hd & Hp & _ & Hsf & _).
  unfold face_data, face_value, face_standardElement.
  intros [= -> ->]. rewrite Hsf. by apply stored_distance_data.
Qed.

Lemma face_events_data WallADT l f1 f2 :
  face_data f1 = face_data f2 -> face_events WallADT m1 l f1 = face_events WallADT m2 l f2.
Proof.
  destruct Hsame as (Hd & Hp & _ & Hsf & _).
  unfold face_data, face_events, face_nInt, face_standardElement.
  intros [= -> ->]. rewrite Hsf. by apply entity_events_data.
Qed.

Lemma surf_nInt_data s1 s2 :
  surf_data s1 = surf_data s2 -> surf_nInt m1 s1 = surf_nInt m2 s2.
Proof.
  destruct Hsame as (_ & _ & _ & _ & Hsb & _).
  unfold surf_data, surf_nInt, surf_standardElement.
  intros [= -> _ _]. by rewrite Hsb.
Qed.

Lemma surf_value_data WallADT isViscousWall s1 s2 i :
  surf_data s1 = surf_data s2 ->
  surf_value WallADT m1 isViscousWall s1 i = surf_value WallADT m2 isViscousWall s2 i.
Proof.
  destruct Hsame as (Hd & Hp & _ & _ & Hsb & _).
  unfold surf_data, surf_value, surf_standardElement.
  intros [= -> -> ->]. rewrite Hsb. by apply stored_distance_data.
Qed.

Lemma surf_events_data WallADT isViscousWall iMarker l s1 s2 :
  surf_data s1 = surf_data s2 ->
  surf_events WallADT m1 isViscousWall iMarker l s1
  = surf_events WallADT m2 isViscousWall iMarker l s2.
Proof.
  destruct Hsame as (Hd & Hp & _ & _ & Hsb & _).
  unfold surf_data, surf_events, surf_nInt, surf_standardElement.
  intros [= -> -> ->]. rewrite Hsb. by apply entity_events_data.
Qed.

Lemma ownedVolElem_data :
  map vol_data (ownedVolElem m1) = map vol_data (ownedVolElem m2).
Proof.
  destruct Hsame as (_ & _ & _ & _ & _ & Hn & Hv & _).
  unfold ownedVolElem. by rewrite <- !firstn_map, Hn, Hv.
Qed.

(** A marker that is not periodic comes out the same from both meshes, and
    every marker causes the same events. *)
Lemma populated_marker_data WallADT config iMarker b1 b2 :
  marker_data b1 = marker_data b2 ->
  marker_events WallADT config m1 iMarker b1 = marker_events WallADT config m2 iMarker b2 /\
  (periodicBoundary b1 = false ->
   populated_marker WallADT config m1 iMarker b1
   = populated_marker WallADT config m2 iMarker b2).
Proof.
  unfold marker_data, marker_events, populated_marker. intros [= Hp Hs].
  rewrite <- Hp. destruct (periodicBoundary b1); [done|]. split.
  - by apply (events_of_data _ _ surf_data _ _
                (surf_events_data WallADT (viscousWall config iMarker) iMarker)).
  - intros _. f_equal.
    + by apply (pointed_data _ _ surf_data set_wallDistance _ _
                  set_wallDistance_data surf_nInt_data).
    + by apply (values_of_data _ _ surf_data _ _ _ _ surf_nInt_data
                  (surf_value_data WallADT (viscousWall config iMarker))).
Qed.

Lemma markers_events_data WallADT config bs1 : forall bs2 iMarker,
  map marker_data bs1 = map marker_data bs2 ->
  markers_events WallADT config m1 iMarker bs1
  = markers_events WallADT config m2 iMarker bs2.
Proof.
  induction bs1 as [|b1 bs1 IH]; intros [|b2 bs2] iMarker H; simpl in *; try done.
  injection H as Hp Hs Hbs.
  destruct (populated_marker_data WallADT config iMarker b1 b2) as [-> _].
  - unfold marker_data. by rewrite Hp, Hs.
  - by rewrite (IH bs2 (iMarker + 1) Hbs).
Qed.

Lemma run_trace_data WallADT config :
  run_trace WallADT config m1 = run_trace WallADT config m2.
Proof.
  unfold run_trace.
  rewrite (events_of_data _ _ vol_data _ _ (vol_events_data WallADT)
             (ownedVolElem m1) (ownedVolElem m2) 0 ownedVolElem_data).
  destruct Hsame as (_ & _ & _ & _ & _ & _ & _ & Hf & Hb).
  rewrite (events_of_data _ _ face_data _ _ (face_events_data WallADT)
             (matchingFaces m1) (matchingFaces m2) 0 Hf).
  by rewrite (markers_events_data WallADT config (boundaries m1) (boundaries m2) 0 Hb).
Qed.

Lemma counts_fit_data : counts_fit m1 = counts_fit m2.
Proof.
  unfold counts_fit.
  rewrite (total_nInt_data _ _ vol_data _ _ vol_nInt_data
             (ownedVolElem m1) (ownedVolElem m2) ownedVolElem_data).
  destruct Hsame as (_ & _ & _ & _ & _ & _ & _ & Hf & Hb).
  rewrite (total_nInt_data _ _ face_data _ _ face_nInt_data
             (matchingFaces m1) (matchingFaces m2) Hf).
  f_equal. revert Hb. generalize (boundaries m2).
  induction (boundaries m1) as [|b1 bs1 IH]; intros [|b2 bs2] H; simpl in *; try done.
  injection H as Hp Hs Hbs. rewrite Hp, (IH bs2 Hbs).
  by rewrite (total_nInt_data _ _ surf_data _ _ surf_nInt_data
                (surfElem b1) (surfElem b2) Hs).
Qed.

End SameMeshData.

(** Step 1 reads neither the wall-distance pointers nor the vectors. *)
Lemma extract_surfElem_locals_data m1 m2 iMarker i s1 s2 loc :
  standardBoundaryFacesGrid m1 = standardBoundaryFacesGrid m2 ->
  surf_data s1 = surf_data s2 ->
  extract_surfElem_locals m1 iMarker i s1 loc
  = extract_surfElem_locals m2 iMarker i s2 loc.
Proof.
  unfold extract_surfElem_locals, flagged_of, raw_conn_of, surf_data.
  by intros -> [= -> -> ->].
Qed.

Lemma extract_surfElems_data iMarker elems1 : forall elems2 i fr1 fr2,
  standardBoundaryFacesGrid (this fr1) = standardBoundaryFacesGrid (this fr2) ->
  map surf_data elems1 = map surf_data elems2 ->
  locals fr1 = locals fr2 ->
  locals (extract_surfElems iMarker i elems1 fr1)
  = locals (extract_surfElems iMarker i elems2 fr2).
Proof.
  induction elems1 as [|s1 elems1 IH]; intros [|s2 elems2] i fr1 fr2 Hsb H Hloc;
    simpl in *; try done.
  injection H as H1 H2 H3 Hrest. apply IH; [|done|].
  - by rewrite !this_extract_surfElem.
  - rewrite !extract_surfElem_spec. simpl. rewrite Hloc.
    apply extract_surfElem_locals_data; [done|].
    unfold surf_data. by rewrite H1, H2, H3.
Qed.

Lemma extract_markers_data config bs1 : forall bs2 iMarker fr1 fr2,
  standardBoundaryFacesGrid (this fr1) = standardBoundaryFacesGrid (this fr2) ->
  map marker_data bs1 = map marker_data bs2 ->
  locals fr1 = locals fr2 ->
  locals (extract_markers config iMarker bs1 fr1)
  = locals (extract_markers config iMarker bs2 fr2).
Proof.
  induction bs1 as [|b1 bs1 IH]; intros [|b2 bs2] iMarker fr1 fr2 Hsb H Hloc;
    simpl in *; try done.
  injection H as Hp Hs Hrest. apply IH; [|done|].
  - by rewrite !this_extract_marker.
  - rewrite !extract_marker_wall. unfold wall_marker. rewrite Hp.
    destruct (negb (periodicBoundary b2) && viscousWall config iMarker); [|done].
    by apply extract_surfElems_data.
Qed.

Lemma number_points_locals nDim_ pts : forall i fr1 fr2,
  locals fr1 = locals fr2 ->
  locals (number_points nDim_ i pts fr1) = locals (number_points nDim_ i pts fr2).
Proof.
  induction pts as [|p rest IH]; intros i fr1 fr2 Hloc; simpl; [done|].
  apply IH. simpl. by rewrite Hloc.
Qed.

Lemma Step1_same_data config m1 m2 :
  same_data m1 m2 -> locals (Step1 config m1) = locals (Step1 config m2).
Proof.
  intros (Hd & Hp & _ & _ & Hsb & _ & _ & _ & Hb).
  unfold Step1. simpl. f_equal.
  rewrite !this_Step1_collect. simpl. rewrite Hd, Hp.
  apply number_points_locals. unfold Step1_collect. simpl.
  apply extract_markers_data; [done|done|]. simpl.
  unfold init_locals. by rewrite Hp.
Qed.

Lemma build_WallADT_same_data config m1 m2 :
  same_data m1 m2 ->
  build_WallADT m1 (locals (Step1 config m1)) = build_WallADT m2 (locals (Step1 config m2)).
Proof.
  intros Hsame. unfold build_WallADT.
  rewrite (Step1_same_data config m1 m2 Hsame).
  destruct Hsame as (-> & _). done.
Qed.

Lemma length_boundaries_same_data m1 m2 :
  same_data m1 m2 -> length (boundaries m1) = length (boundaries m2).
Proof.
  intros (_ & _ & _ & _ & _ & _ & _ & _ & Hb).
  apply (f_equal length) in Hb. by rewrite !length_map in Hb.
Qed.

Lemma lookup_same_marker_data bs1 bs2 (k : nat) b1 b2 :
  map marker_data bs1 = map marker_data bs2 ->
  bs1 !! k = Some b1 -> bs2 !! k = Some b2 -> marker_data b1 = marker_data b2.
Proof.
  intros H H1 H2. apply (f_equal (fun l => l !! k)) in H.
  rewrite !list_lookup_fmap, H1, H2 in H. simpl in H. congruence.
Qed.

(** The handled parts of the outcome are the same for two meshes with the
    same data. *)
Lemma populated_data WallADT config m1 m2 :
  same_data m1 m2 ->
  VecWallDistanceElements (populated WallADT config m1)
  = VecWallDistanceElements (populated WallADT config m2) /\
  ownedVolElem (populated WallADT config m1) = ownedVolElem (populated WallADT config m2) /\
  VecWallDistanceInternalMatchingFaces (populated WallADT config m1)
  = VecWallDistanceInternalMatchingFaces (populated WallADT config m2) /\
  matchingFaces (populated WallADT config m1) = matchingFaces (populated WallADT config m2) /\
  forall (iMarker : nat) b1' b2',
    boundaries (populated WallADT config m1) !! iMarker = Some b1' ->
    boundaries (populated WallADT config m2) !! iMarker = Some b2' ->
    periodicBoundary b1' = false -> b1' = b2'.
Proof.
  intros Hsame.
  pose proof (ownedVolElem_data m1 m2 Hsame) as Hv.
  pose proof Hsame as (_ & _ & _ & _ & _ & _ & _ & Hf & Hb).
  split; [|split; [|split; [|split]]].
  - unfold populated. simpl.
    by apply (values_of_data _ _ vol_data _ _ _ _ (vol_nInt_data m1 m2 Hsame)
                (vol_value_data m1 m2 Hsame WallADT)).
  - rewrite !ownedVolElem_populated.
    by apply (pointed_data _ _ vol_data set_vol_wallDistance _ _
                set_vol_wallDistance_data (vol_nInt_data m1 m2 Hsame)).
  - unfold populated. simpl.
    by apply (values_of_data _ _ face_data _ _ _ _ (face_nInt_data m1 m2 Hsame)
                (face_value_data m1 m2 Hsame WallADT)).
  - unfold populated. simpl.
    by apply (pointed_data _ _ face_data set_face_wallDistance _ _
                set_face_wallDistance_data (face_nInt_data m1 m2 Hsame)).
  - intros iMarker b1' b2' H1 H2 Hp. unfold populated in H1, H2. simpl in H1, H2.
    rewrite populated_markers_lookup in H1, H2.
    destruct (boundaries m1 !! iMarker) as [b1|] eqn:Hb1; simpl in H1; [|done].
    destruct (boundaries m2 !! iMarker) as [b2|] eqn:Hb2; simpl in H2; [|done].
    injection H1 as <-. injection H2 as <-.
    pose proof (lookup_same_marker_data _ _ _ _ _ Hb Hb1 Hb2) as Hd.
    destruct (populated_marker_data m1 m2 Hsame WallADT config (0 + N.of_nat iMarker)
                b1 b2 Hd) as [_ Heq].
    apply Heq. unfold populated_marker in Hp.
    destruct (periodicBoundary b1) eqn:Hpb; [congruence|done].
Qed.

(** X11: the result does not depend on wall-distance data left in the mesh.
    Two meshes that differ at most in the wall-distance pointers and vectors
    they hold before the call come out, when no counter wraps, with the same
    sequence of searches and stores, equal result vectors, equal owned
    volume elements and matching faces (pointers included) and equal markers
    wherever the marker is not periodic. *)
Theorem result_independent_of_old_distances config m1 m2 :
  N.of_nat (length (boundaries m1)) < USHRT_RANGE ->
  same_data m1 m2 ->
  counts_fit m1 = true ->
  exists m1' m2' trace,
    ComputeWall_Distance config m1 = Some (m1', trace) /\
    ComputeWall_Distance config m2 = Some (m2', trace) /\
    VecWallDistanceElements m1' = VecWallDistanceElements m2' /\
    ownedVolElem m1' = ownedVolElem m2' /\
    VecWallDistanceInternalMatchingFaces m1' = VecWallDistanceInternalMatchingFaces m2' /\
    matchingFaces m1' = matchingFaces m2' /\
    forall (iMarker : nat) b1' b2',
      boundaries m1' !! iMarker = Some b1' -> boundaries m2' !! iMarker = Some b2' ->
      periodicBoundary b1' = false -> b1' = b2'.
Proof.
  intros Hfit Hsame Hcounts.
  assert (counts_fit m2 = true) as Hcounts2
    by (by rewrite <- (counts_fit_data m1 m2 Hsame)).
  rewrite (ComputeWall_Distance_runs config m1) by done.
  rewrite (ComputeWall_Distance_runs config m2)
    by (by rewrite <- (length_boundaries_same_data m1 m2 Hsame)).
  rewrite <- (build_WallADT_same_data config m1 m2 Hsame).
  set (WallADT := build_WallADT m1 (locals (Step1 config m1))).
  rewrite !populate_closed by done.
  rewrite <- (run_trace_data m1 m2 Hsame).
  exists (populated WallADT config m1), (populated WallADT config m2),
    (run_trace WallADT config m1).
  split; [done|]. split; [done|].
  by apply populated_data.
Qed.

(** *** Calling the routine again *)

Lemma populated_same_data WallADT config m :
  same_data (populated WallADT config m) m /\
  drop (N.to_nat (nVolElemOwned m)) (volElem (populated WallADT config m))
  = drop (N.to_nat (nVolElemOwned m)) (volElem m).
Proof.
  unfold same_data, populated. simpl.
  pose proof (length_pointed CVolumeElementFEM (vol_nInt m) set_vol_wallDistance
                (ownedVolElem m) 0) as Hlen.
  assert (forall bs iMarker,
    map marker_data (populated_markers WallADT config m iMarker bs) = map marker_data bs)
    as Hbs.
  { induction bs as [|b rest IH]; intros iMarker; simpl; [done|].
    rewrite IH. f_equal. unfold populated_marker, marker_data.
    destruct (periodicBoundary b) eqn:Hb; simpl; [by rewrite Hb|]. f_equal.
    by apply map_data_pointed. }
  split; [repeat (split; [done|]); split; [|split]|].
  - rewrite map_app.
    rewrite (map_data_pointed _ _ vol_data set_vol_wallDistance (vol_nInt m)
               (fun _ _ => eq_refl)).
    rewrite <- map_app. unfold ownedVolElem. by rewrite take_drop.
  - by apply map_data_pointed.
  - apply Hbs.
  - unfold ownedVolElem in Hlen |- *. rewrite length_take in Hlen.
    destruct (decide (N.to_nat (nVolElemOwned m) <= length (volElem m))%nat)
      as [Hle|Hgt].
    + rewrite drop_app_length' by lia. done.
    + rewrite !drop_ge; [done|lia|]. rewrite length_app, length_drop. lia.
Qed.

Lemma populated_markers_eq WallADT config m1 m2 :
  same_data m1 m2 ->
  forall bs1 bs2 iMarker,
    map marker_data bs1 = map marker_data bs2 ->
    (forall (k : nat) b1 b2,
        bs1 !! k = Some b1 -> bs2 !! k = Some b2 -> periodicBoundary b1 = true ->
        b1 = b2) ->
    populated_markers WallADT config m1 iMarker bs1
    = populated_markers WallADT config m2 iMarker bs2.
Proof.
  intros Hsame.
  induction bs1 as [|b1 bs1 IH]; intros [|b2 bs2] iMarker H Hper; simpl in *; try done.
  pose proof (lookup_same_marker_data (b1 :: bs1) (b2 :: bs2) 0 b1 b2 H eq_refl eq_refl)
    as Hd.
  injection H as _ _ Hrest. f_equal.
  - destruct (periodicBoundary b1) eqn:Hp.
    + pose proof (Hper 0%nat b1 b2 eq_refl eq_refl Hp) as <-.
      unfold populated_marker. by rewrite Hp.
    + by apply (populated_marker_data m1 m2 Hsame).
  - apply IH; [done|]. intros k b1' b2' H1 H2. by apply (Hper (S k)).
Qed.

Lemma populated_eq WallADT config m1 m2 :
  same_data m1 m2 ->
  drop (N.to_nat (nVolElemOwned m1)) (volElem m1)
  = drop (N.to_nat (nVolElemOwned m1)) (volElem m2) ->
  (forall (k : nat) b1 b2,
      boundaries m1 !! k = Some b1 -> boundaries m2 !! k = Some b2 ->
      periodicBoundary b1 = true -> b1 = b2) ->
  populated WallADT config m1 = populated WallADT config m2.
Proof.
  intros Hsame Hdrop Hper.
  destruct (populated_data WallADT config m1 m2 Hsame) as (Hve & _ & Hvf & Hmf & _).
  pose proof (ownedVolElem_data m1 m2 Hsame) as Hv.
  pose proof Hsame as (Hd & Hp & Hse & Hsf & Hsb & Hn & _ & _ & Hb).
  unfold populated in *. simpl in *.
  rewrite Hve, Hvf, Hmf, Hd, Hp, Hse, Hsf, Hsb, <- Hn, Hdrop.
  rewrite (populated_markers_eq WallADT config m1 m2 Hsame _ _ 0 Hb Hper).
  rewrite (pointed_data _ _ vol_data set_vol_wallDistance _ _
             set_vol_wallDistance_data (vol_nInt_data m1 m2 Hsame) _ _ 0 Hv).
  done.
Qed.

(** X12: calling the routine again changes nothing.  When no counter wraps,
    a second call on the mesh that the first call produced performs the same
    searches and stores and leaves that mesh as it is: the same tree is
    built, every entity gets the pointer it already has and every entry of
    the result vectors is overwritten with the value it already holds. *)
Theorem routine_idempotent config m :
  N.of_nat (length (boundaries m)) < USHRT_RANGE ->
  counts_fit m = true ->
  exists m' trace,
    ComputeWall_Distance config m = Some (m', trace) /\
    ComputeWall_Distance config m' = Some (m', trace).
Proof.
  intros Hfit Hcounts.
  rewrite (ComputeWall_Distance_runs config m) by done.
  set (WallADT := build_WallADT m (locals (Step1 config m))).
  rewrite populate_closed by done.
  exists (populated WallADT config m), (run_trace WallADT config m).
  split; [done|].
  destruct (populated_same_data WallADT config m) as [Hsame Hdrop].
  rewrite ComputeWall_Distance_runs
    by (by rewrite (length_boundaries_same_data _ _ Hsame)).
  rewrite (build_WallADT_same_data config _ _ Hsame). fold WallADT.
  rewrite populate_closed by (by rewrite (counts_fit_data _ _ Hsame)).
  rewrite (run_trace_data _ _ Hsame). f_equal. f_equal.
  apply populated_eq; [done|done|].
  intros k b1 b2 H1 H2 Hp. unfold populated in H1. simpl in H1.
  rewrite populated_markers_lookup, H2 in H1. simpl in H1. injection H1 as <-.
  unfold populated_marker in *. by destruct (periodicBoundary b2).
Qed.

(** ** One event per integration point *)

Lemma NoDup_Nseq n : NoDup (Nseq n).
Proof.
  unfold Nseq. apply (NoDup_fmap_2 N.of_nat), NoDup_seq.
Qed.

Lemma entity_events_store quiet WallADT who m lag nDOFs DOFs nInt i :
  i < nInt ->
  Store who i (stored_distance quiet WallADT m lag nDOFs DOFs i)
  ∈ entity_events quiet WallADT who m lag nDOFs DOFs nInt.
Proof.
  intros Hi. apply elem_of_Nseq in Hi. unfold entity_events, stored_distance.
  destruct quiet.
  - apply list_elem_of_fmap. by exists i.
  - apply list_elem_of_In, in_flat_map. exists i. split; [by apply list_elem_of_In|].
    right. by left.
Qed.

Lemma entity_events_query_in WallADT who m lag nDOFs DOFs nInt i :
  i < nInt ->
  Query who i (integration_point_coor m lag nDOFs DOFs i)
  ∈ entity_events false WallADT who m lag nDOFs DOFs nInt.
Proof.
  intros Hi. apply elem_of_Nseq in Hi. unfold entity_events.
  apply list_elem_of_In, in_flat_map. exists i. split; [by apply list_elem_of_In|].
  by left.
Qed.

Lemma NoDup_keys_entity_events quiet WallADT who m lag nDOFs DOFs nInt :
  NoDup (map event_key (entity_events quiet WallADT who m lag nDOFs DOFs nInt)).
Proof.
  unfold entity_events. pose proof (NoDup_Nseq nInt) as Hnd.
  destruct quiet.
  - induction Hnd as [|i l Hi Hl IH]; simpl; [constructor|].
    apply NoDup_cons_2; [|done].
    intros Hin. apply list_elem_of_fmap in Hin as (ev & Hk & Hev).
    apply list_elem_of_fmap in Hev as (j & -> & Hj).
    injection Hk as ->. done.
  - induction Hnd as [|i l Hi Hl IH]; simpl; [constructor|].
    assert (forall q, (q, who, i)
              ∉ map event_key
                  (flat_map
                     (fun i0 =>
                        [Query who i0 (integration_point_coor m lag nDOFs DOFs i0);
                         Store who i0
                           (DetermineNearestElement WallADT
                              (integration_point_coor m lag nDOFs DOFs i0))]) l))
      as Hfresh.
    { intros q Hin. apply list_elem_of_fmap in Hin as (ev & Hk & Hev).
      apply list_elem_of_In, in_flat_map in Hev as (j & Hj & Hev).
      apply list_elem_of_In in Hj. simpl in Hev.
      destruct Hev as [<-|[<-|[]]]; injection Hk as _ ->; done. }
    apply NoDup_cons_2.
    + intros Hin. apply elem_of_cons in Hin as [Hin|Hin]; [done|].
      by apply (Hfresh true).
    + apply NoDup_cons_2; [apply Hfresh|done].
Qed.

Lemma NoDup_keys_events_of {E : Type} (events : N -> E -> list Event)
    (C : N -> Consumer) :
  (forall a b, C a = C b -> a = b) ->
  (forall l e, NoDup (map event_key (events l e))) ->
  (forall l e ev, ev ∈ events l e -> event_consumer ev = C l) ->
  forall elems l,
    NoDup (map event_key (events_of events l elems)) /\
    forall ev, ev ∈ events_of events l elems ->
      exists k : nat, event_consumer ev = C (l + N.of_nat k).
Proof.
  intros HC Hnd Hwho. induction elems as [|e rest IH]; intros l; simpl.
  - split; [constructor|]. intros ev Hev. by apply elem_of_nil in Hev.
  - destruct (IH (l + 1)) as [IHnd IHwho].
    assert (forall ev, ev ∈ events l e ++ events_of events (l + 1) rest ->
              exists k : nat, event_consumer ev = C (l + N.of_nat k)) as Hall.
    { intros ev Hev. apply elem_of_app in Hev as [Hev|Hev].
      - exists 0%nat. rewrite N.add_0_r. by apply (Hwho l e).
      - destruct (IHwho ev Hev) as [k Hk]. exists (S k).
        by replace (l + N.of_nat (S k)) with (l + 1 + N.of_nat k) by lia. }
    split; [|done].
    rewrite map_app. apply list.NoDup_app. split; [apply Hnd|]. split; [|done].
    intros key H1 H2.
    apply list_elem_of_fmap in H1 as (ev1 & -> & Hev1).
    apply list_elem_of_fmap in H2 as (ev2 & Hk & Hev2).
    pose proof (Hwho l e ev1 Hev1) as Hw1.
    destruct (IHwho ev2 Hev2) as [k Hw2].
    unfold event_key in Hk. injection Hk as _ Hc _.
    rewrite Hw1, Hw2 in Hc. apply HC in Hc. lia.
Qed.

Lemma NoDup_keys_marker_events WallADT config m iMarker b :
  NoDup (map event_key (marker_events WallADT config m iMarker b)) /\
  forall ev, ev ∈ marker_events WallADT config m iMarker b ->
    exists l, event_consumer ev = BoundaryFace iMarker l.
Proof.
  unfold marker_events. destruct (periodicBoundary b).
  - split; [constructor|]. intros ev Hev. by apply elem_of_nil in Hev.
  - destruct (NoDup_keys_events_of
                (surf_events WallADT m (viscousWall config iMarker) iMarker)
                (BoundaryFace iMarker)
                ltac:(by intros a c [= ->])
                (fun l s => NoDup_keys_entity_events _ _ _ _ _ _ _ _)
                (fun l s ev => surf_events_consumer _ _ _ _ _ _ _)
                (surfElem b) 0) as [Hnd Hwho].
    split; [done|]. intros ev Hev. destruct (Hwho ev Hev) as [k Hk]. eauto.
Qed.

Lemma NoDup_keys_markers_events WallADT config m bs : forall iMarker,
  NoDup (map event_key (markers_events WallADT config m iMarker bs)) /\
  forall ev, ev ∈ markers_events WallADT config m iMarker bs ->
    exists (k : nat) l, event_consumer ev = BoundaryFace (iMarker + N.of_nat k) l.
Proof.
  induction bs as [|b rest IH]; intros iMarker; simpl.
  - split; [constructor|]. intros ev Hev. by apply elem_of_nil in Hev.
  - destruct (IH (iMarker + 1)) as [IHnd IHwho].
    destruct (NoDup_keys_marker_events WallADT config m iMarker b) as [Hnd Hwho].
    assert (forall ev,
              ev ∈ marker_events WallADT config m iMarker b
                   ++ markers_events WallADT config m (iMarker + 1) rest ->
              exists (k : nat) l,
                event_consumer ev = BoundaryFace (iMarker + N.of_nat k) l) as Hall.
    { intros ev Hev. apply elem_of_app in Hev as [Hev|Hev].
      - destruct (Hwho ev Hev) as [l Hl]. exists 0%nat, l. by rewrite N.add_0_r.
      - destruct (IHwho ev Hev) as (k & l & Hk). exists (S k), l.
        by replace (iMarker + N.of_nat (S k)) with (iMarker + 1 + N.of_nat k) by lia. }
    split; [|done].
    rewrite map_app. apply list.NoDup_app. split; [done|]. split; [|done].
    intros key H1 H2.
    apply list_elem_of_fmap in H1 as (ev1 & -> & Hev1).
    apply list_elem_of_fmap in H2 as (ev2 & Hk & Hev2).
    destruct (Hwho ev1 Hev1) as [l1 Hw1].
    destruct (IHwho ev2 Hev2) as (k & l2 & Hw2).
    unfold event_key in Hk. injection Hk as _ Hc _.
    rewrite Hw1, Hw2 in Hc. injection Hc as Hc _. lia.
Qed.

(** No two events of the pass are about the same integration point of the
    same entity, a query and a store apart. *)
Lemma NoDup_keys_run_trace WallADT config m :
  NoDup (map event_key (run_trace WallADT config m)).
Proof.
  unfold run_trace.
  destruct (NoDup_keys_events_of (vol_events WallADT m) VolumeElement
              ltac:(by intros a c [= ->])
              (fun l e => NoDup_keys_entity_events _ _ _ _ _ _ _ _)
              (fun l e ev => vol_events_consumer _ _ _ _ _)
              (ownedVolElem m) 0) as [Hnd3 Hwho3].
  destruct (NoDup_keys_events_of (face_events WallADT m) MatchingFace
              ltac:(by intros a c [= ->])
              (fun l f => NoDup_keys_entity_events _ _ _ _ _ _ _ _)
              (fun l f ev => face_events_consumer _ _ _ _ _)
              (matchingFaces m) 0) as [Hnd4 Hwho4].
  destruct (NoDup_keys_markers_events WallADT config m (boundaries m) 0)
    as [Hnd5 Hwho5].
  rewrite !map_app. apply list.NoDup_app. split; [done|]. split.
  - intros key H1 H2. apply list_elem_of_fmap in H1 as (ev1 & -> & Hev1).
    destruct (Hwho3 ev1 Hev1) as [k1 Hw1].
    apply elem_of_app in H2 as [H2|H2];
      apply list_elem_of_fmap in H2 as (ev2 & Hk & Hev2);
      unfold event_key in Hk; injection Hk as _ Hc _; rewrite Hw1 in Hc.
    + destruct (Hwho4 ev2 Hev2) as [k2 Hw2]. by rewrite Hw2 in Hc.
    + destruct (Hwho5 ev2 Hev2) as (k2 & l2 & Hw2). by rewrite Hw2 in Hc.
  - apply list.NoDup_app. split; [done|]. split; [|done].
    intros key H1 H2. apply list_elem_of_fmap in H1 as (ev1 & -> & Hev1).
    destruct (Hwho4 ev1 Hev1) as [k1 Hw1].
    apply list_elem_of_fmap in H2 as (ev2 & Hk & Hev2).
    destruct (Hwho5 ev2 Hev2) as (k2 & l2 & Hw2).
    unfold event_key in Hk. injection Hk as _ Hc _. by rewrite Hw1, Hw2 in Hc.
Qed.

(** Hence an event of the pass has one position. *)
Lemma trace_position_unique WallADT config m (k1 k2 : nat) ev1 ev2 :
  snd (populate WallADT config m) !! k1 = Some ev1 ->
  snd (populate WallADT config m) !! k2 = Some ev2 ->
  event_key ev1 = event_key ev2 -> k1 = k2.
Proof.
  rewrite populate_events. intros H1 H2 Hk.
  apply (NoDup_lookup (map event_key (run_trace WallADT config m)) k1 k2
           (event_key ev1) (NoDup_keys_run_trace WallADT config m)).
  - by rewrite list_lookup_fmap, H1.
  - by rewrite list_lookup_fmap, H2, Hk.
Qed.

(** The stores and the queries of the pass, point by point. *)
Lemma run_event_store_handled WallADT config m who i dist :
  run_event WallADT config m (Store who i dist) -> handled_point m who i.
Proof.
  intros [(l & e & He & H)|[(l & f & Hf & H)|(k & b & l & s & Hb & Hp & Hs & H)]];
    apply entity_events_who in H as (i' & Hi & [H|[_ H]]); try discriminate;
    injection H as -> -> _; simpl; eauto 10.
Qed.

Lemma handled_point_store WallADT config m who i :
  handled_point m who i -> exists dist, run_event WallADT config m (Store who i dist).
Proof.
  destruct who as [l|l|iMarker l]; simpl.
  - intros (l' & e & -> & He & Hi). eexists. left. exists l', e. split; [done|].
    by apply entity_events_store.
  - intros (l' & f & -> & Hf & Hi). eexists. right; left. exists l', f.
    split; [done|]. by apply entity_events_store.
  - intros (k & l' & b & s & -> & -> & Hb & Hp & Hs & Hi). eexists. right; right.
    exists k, b, l', s. repeat (split; [done|]). by apply entity_events_store.
Qed.

Lemma run_event_query_searched WallADT config m who i coor_ :
  run_event WallADT config m (Query who i coor_) ->
  IsEmpty WallADT = false /\ searched_point config m who i.
Proof.
  intros [(l & e & He & H)|[(l & f & Hf & H)|(k & b & l & s & Hb & Hp & Hs & H)]];
    apply entity_events_query in H as (-> & Hi & Hq & _).
  - split; [done|]. split; [|done]. simpl. eauto.
  - split; [done|]. split; [|done]. simpl. eauto.
  - apply orb_false_iff in Hq as [Hq Hv]. split; [done|].
    split; [|done]. simpl. eauto 10.
Qed.

Lemma searched_point_query WallADT config m who i :
  IsEmpty WallADT = false -> searched_point config m who i ->
  exists coor_, run_event WallADT config m (Query who i coor_).
Proof.
  intros Hq [Hh Hv]. destruct who as [l|l|iMarker l]; simpl in *.
  - destruct Hh as (l' & e & -> & He & Hi). eexists. left. exists l', e.
    split; [done|]. unfold vol_events. rewrite Hq. by apply entity_events_query_in.
  - destruct Hh as (l' & f & -> & Hf & Hi). eexists. right; left. exists l', f.
    split; [done|]. unfold face_events. rewrite Hq. by apply entity_events_query_in.
  - destruct Hh as (k & l' & b & s & -> & -> & Hb & Hp & Hs & Hi). eexists.
    right; right. exists k, b, l', s. repeat (split; [done|]).
    unfold surf_events. rewrite Hq, Hv. by apply entity_events_query_in.
Qed.

Lemma trace_event_once WallADT config m ev :
  ev ∈ snd (populate WallADT config m) ->
  exists! k : nat, snd (populate WallADT config m) !! k = Some ev.
Proof.
  intros Hev. apply list_elem_of_lookup_1 in Hev as [k Hk].
  exists k. split; [done|]. intros k' Hk'.
  by apply (trace_position_unique WallADT config m k k' ev ev).
Qed.



Lemma populated_marker_read_back WallADT config m iMarker b :
  periodicBoundary b = false ->
  let b' := populated_marker WallADT config m iMarker b in
  N.of_nat (length (VecWallDistanceBoundaryFaces b'))
  = total_nInt (surf_nInt m) (surfElem b) /\
  forall (l : nat) s,
    surfElem b !! l = Some s ->
    exists s' p,
      surfElem b' !! l = Some s' /\ wallDistance s' = Some p /\
      forall i, i < surf_nInt m s ->
        VecWallDistanceBoundaryFaces b' !! N.to_nat (p + i)
        = Some (surf_value WallADT m (viscousWall config iMarker) s i).
Proof.
  intros Hper b'. subst b'. unfold populated_marker. rewrite Hper. simpl.
  split; [apply length_values_of|].
  intros l s Hs.
  exists (set_wallDistance (0 + total_nInt (surf_nInt m) (take l (surfElem b))) s),
    (0 + total_nInt (surf_nInt m) (take l (surfElem b))).
  split; [by rewrite pointed_lookup, Hs|]. split; [done|].
  intros i Hi. rewrite N.add_0_l.
  exact (values_of_lookup CSurfaceElementFEM (surf_nInt m)
           (surf_value WallADT m (viscousWall config iMarker))
           (surfElem b) l s i Hs Hi).
Qed.

(** ** Zero distances, point by point *)


(** C2, for the markers the pass handles (a periodic marker is skipped
    whatever its boundary condition, and its faces keep the distances they
    held): for a marker that is not periodic and whose boundary condition is
    [HEAT_FLUX] or [ISOTHERMAL], the routine stores exactly one value,
    [0.0], for every integration point of every boundary face of the marker,
    and makes no call of [DetermineNearestElement] for these points, whether
    the tree is empty or not; the marker's result vector holds [0.0] only,
    and when the marker's counter does not wrap it has one entry per
    integration point, every face has its pointer set, and the entry read
    through the pointer of a face for any of its integration points is
    [0.0]. *)
Theorem viscous_wall_faces_zero config m (iMarker : nat) b :
  N.of_nat (length (boundaries m)) < USHRT_RANGE ->
  boundaries m !! iMarker = Some b ->
  periodicBoundary b = false ->
  GetMarker_All_KindBC config (N.of_nat iMarker) = HEAT_FLUX \/
  GetMarker_All_KindBC config (N.of_nat iMarker) = ISOTHERMAL ->
  exists m' trace b',
    ComputeWall_Distance config m = Some (m', trace) /\
    boundaries m' !! iMarker = Some b' /\
    (forall ev l, ev ∈ trace ->
       event_consumer ev = BoundaryFace (N.of_nat iMarker) l ->
       exists i, ev = Store (BoundaryFace (N.of_nat iMarker) l) i zero) /\
    (forall l i coor_, Query (BoundaryFace (N.of_nat iMarker) l) i coor_ ∉ trace) /\
    (forall (l : nat) s i,
        surfElem b !! l = Some s -> i < surf_nInt m s ->
        exists! k : nat,
          trace !! k
          = Some (Store (BoundaryFace (N.of_nat iMarker) (N.of_nat l)) i zero)) /\
    Forall (fun x => x = zero) (VecWallDistanceBoundaryFaces b') /\
    (total_nInt (surf_nInt m) (surfElem b) < ULONG_RANGE ->
     N.of_nat (length (VecWallDistanceBoundaryFaces b'))
     = total_nInt (surf_nInt m) (surfElem b) /\
     forall (l : nat) s,
       surfElem b !! l = Some s ->
       exists s' p,
         surfElem b' !! l = Some s' /\ wallDistance s' = Some p /\
         forall i, i < surf_nInt m s ->
           VecWallDistanceBoundaryFaces b' !! N.to_nat (p + i) = Some zero).
Proof.
  intros Hfit Hb Hper Hkind. apply viscousWall_true in Hkind.
  rewrite ComputeWall_Distance_runs by done.
  set (WallADT := build_WallADT m (locals (Step1 config m))) in *.
  destruct (populate_boundary WallADT config m iMarker b Hb) as [trace_k Hk].
  exists (fst (populate WallADT config m)), (snd (populate WallADT config m)),
    (fst (boundary_marker WallADT config m (N.of_nat iMarker) b trace_k)).
  split; [by destruct (populate WallADT config m)|].
  split; [done|].
  assert (forall ev l, ev ∈ snd (populate WallADT config m) ->
            event_consumer ev = BoundaryFace (N.of_nat iMarker) l ->
            exists i, ev = Store (BoundaryFace (N.of_nat iMarker) l) i zero) as Hstores.
  { intros ev l Hev Hwho. apply populate_trace in Hev.
    destruct (run_event_marker _ _ _ _ _ _ Hev Hwho)
      as (b0 & l' & s & _ & _ & _ & _ & H).
    unfold surf_events in H. rewrite Hkind, orb_true_r in H.
    apply entity_events_quiet in H as (i & _ & ->). eauto. }
  split; [done|]. split.
  { intros l i coor_ Hq. by destruct (Hstores _ l Hq eq_refl) as (i' & ?). }
  split.
  { intros l s i Hs Hi.
    destruct (handled_point_store WallADT config m
                (BoundaryFace (N.of_nat iMarker) (N.of_nat l)) i) as [dist Hd].
    { simpl. eauto 10. }
    apply populate_trace in Hd.
    destruct (Hstores _ (N.of_nat l) Hd eq_refl) as (i' & Heq).
    injection Heq as _ ->. by apply trace_event_once. }
  split.
  { apply boundary_marker_zero; [done|]. by rewrite Hkind, orb_true_r. }
  intros Htot.
  rewrite boundary_marker_closed by (by rewrite Hper; apply N.ltb_lt).
  simpl fst.
  destruct (populated_marker_read_back WallADT config m (N.of_nat iMarker) b Hper)
    as [Hlen Hrb].
  split; [done|]. intros l s Hs.
  destruct (Hrb l s Hs) as (s' & p & Hs' & Hp & Hread).
  exists s', p. split; [done|]. split; [done|].
  intros i Hi. rewrite (Hread i Hi). rewrite surf_value_quiet; [done|].
  by rewrite Hkind, orb_true_r.
Qed.

(** X3: the tree is searched exactly once for each integration point of the
    owned volume elements, of the matching faces and of the boundary faces
    of the markers that are neither periodic nor viscous walls, and for no
    other point, and not at all when it is empty; exactly one distance is
    stored for each integration point of the owned volume elements, of the
    matching faces and of the boundary faces of the markers that are not
    periodic, and for no other point.  Hence the numbers of searches and of
    stores are the numbers of these points. *)
Theorem one_search_per_integration_point config m :
  N.of_nat (length (boundaries m)) < USHRT_RANGE ->
  exists m' trace,
    ComputeWall_Distance config m = Some (m', trace) /\
    let WallADT := build_WallADT m (locals (Step1 config m)) in
    (IsEmpty WallADT = false ->
     forall who i, searched_point config m who i ->
       exists! k : nat, exists coor_, trace !! k = Some (Query who i coor_)) /\
    (forall who i coor_,
        Query who i coor_ ∈ trace ->
        IsEmpty WallADT = false /\ searched_point config m who i) /\
    (forall who i, handled_point m who i ->
       exists! k : nat, exists dist, trace !! k = Some (Store who i dist)) /\
    (forall who i dist, Store who i dist ∈ trace -> handled_point m who i) /\
    count_queries trace = queried_points WallADT config m /\
    count_stores trace = handled_points m.
Proof.
  intros Hfit. rewrite ComputeWall_Distance_runs by done.
  set (WallADT := build_WallADT m (locals (Step1 config m))).
  exists (fst (populate WallADT config m)), (snd (populate WallADT config m)).
  split; [by destruct (populate WallADT config m)|]. cbv zeta.
  split; [|split; [|split; [|split]]].
  - intros Hq who i Hs.
    destruct (searched_point_query WallADT config m who i Hq Hs) as [coor_ Hc].
    apply populate_trace, list_elem_of_lookup_1 in Hc as [k Hk].
    exists k. split; [by exists coor_|].
    intros k' [coor' Hk'].
    by apply (trace_position_unique WallADT config m k k' _ _ Hk Hk').
  - intros who i coor_ Hq. apply populate_trace in Hq.
    by apply run_event_query_searched in Hq.
  - intros who i Hh.
    destruct (handled_point_store WallADT config m who i Hh) as [dist Hd].
    apply populate_trace, list_elem_of_lookup_1 in Hd as [k Hk].
    exists k. split; [by exists dist|].
    intros k' [dist' Hk'].
    by apply (trace_position_unique WallADT config m k k' _ _ Hk Hk').
  - intros who i dist Hs. apply populate_trace in Hs.
    by apply run_event_store_handled in Hs.
  - rewrite populate_events. unfold run_trace, queried_points, handled_points.
    rewrite !count_queries_app, !count_stores_app.
    destruct (count_events_of (vol_events WallADT m) (vol_nInt m) (IsEmpty WallADT)
                (ownedVolElem m)
                (fun l e => count_entity_events _ _ _ _ _ _ _ _) 0) as [-> ->].
    destruct (count_events_of (face_events WallADT m) (face_nInt m) (IsEmpty WallADT)
                (matchingFaces m)
                (fun l f => count_entity_events _ _ _ _ _ _ _ _) 0) as [-> ->].
    destruct (count_markers_events WallADT config m (boundaries m) 0) as [-> ->].
    split; [|lia]. destruct (IsEmpty WallADT); lia.
Qed.

(** ** The points of the coordinate buffer *)

Lemma raw_surfaceConn_closed config m :
  raw_surfaceConn config m = markers_conn config m 0 (boundaries m).
Proof.
  unfold raw_surfaceConn, Step1_collect. simpl.
  by destruct (extract_markers_subs config (boundaries m) 0
                 {| this := m; locals := init_locals m |}) as (_ & _ & _ & ->).
Qed.

Lemma elem_of_wall_surfElem_nodes config m (g : nat) :
  g ∈ wall_surfElem_nodes config m <->
  (g < length (meshPoints m))%nat /\
  N.of_nat g ∈ markers_flagged config 0 (boundaries m).
Proof.
  unfold wall_surfElem_nodes. rewrite list_elem_of_filter, elem_of_seq.
  split; [intros [H1 H2]|intros [H1 H2]]; (split; [done || lia|done || lia]).
Qed.

(** C6, for the points the routine numbers: the coordinate buffer holds
    exactly one entry ([nDim] coordinates) for each mesh point that is a
    grid DOF of a surface element of a wall marker, in increasing order of
    the mesh points, with no duplicate and no other point; on these points
    the global-to-local map [meshToSurface] is a bijection onto
    [0 .. nVertex_SolidWall - 1] (the [k]-th of them gets the number [k]).
    Every mesh point that is a corner of a wall sub-element is one of them,
    and they are exactly the corners of the wall sub-elements when every
    grid DOF of each wall surface element is a corner of one of its
    sub-faces.  The wall surface elements are assumed consistent with their
    standard elements and with the mesh. *)
Theorem surfaceCoor_one_entry_per_wall_point config m :
  wall_faces_ok config m = true ->
  let loc := locals (Step1 config m) in
  let nodes := wall_surfElem_nodes config m in
  NoDup nodes /\
  (forall g : nat,
      g ∈ nodes <->
      (g < length (meshPoints m))%nat /\
      N.of_nat g ∈ markers_flagged config 0 (boundaries m)) /\
  nVertex_SolidWall loc = N.of_nat (length nodes) /\
  surfaceCoor loc
  = flat_map (fun g => point_coor (nDim m) (nth g (meshPoints m) noPoint)) nodes /\
  (forall k g : nat,
      nodes !! k = Some g -> at_ (meshToSurface loc) (N.of_nat g) 0 = N.of_nat k) /\
  (forall g : nat,
      g ∈ nodes -> at_ (meshToSurface loc) (N.of_nat g) 0 < nVertex_SolidWall loc) /\
  (forall v, v < nVertex_SolidWall loc ->
      exists g : nat, g ∈ nodes /\ at_ (meshToSurface loc) (N.of_nat g) 0 = v) /\
  (forall g1 g2 : nat, g1 ∈ nodes -> g2 ∈ nodes ->
      at_ (meshToSurface loc) (N.of_nat g1) 0 = at_ (meshToSurface loc) (N.of_nat g2) 0 ->
      g1 = g2) /\
  (forall g, g ∈ markers_conn config m 0 (boundaries m) -> N.to_nat g ∈ nodes) /\
  (wall_faces_covered config m = true ->
   forall g : nat, g ∈ nodes <-> N.of_nat g ∈ markers_conn config m 0 (boundaries m)).
Proof.
  intros Hok loc nodes. subst loc nodes.
  destruct (Step1_collect_sound config m Hok) as (Hlen & Hbits & Hconn).
  destruct (Step1_locals config m Hlen) as (HnV & Hcoor & Hrank & Hsc).
  pose proof (wall_nodes_flagged config m) as Hnodes.
  pose proof (raw_surfaceConn_closed config m) as Hraw.
  set (flags := meshToSurface
         (locals (Step1_collect config {| this := m; locals := init_locals m |}))) in *.
  assert (forall k g : nat, wall_surfElem_nodes config m !! k = Some g ->
            at_ (meshToSurface (locals (Step1 config m))) (N.of_nat g) 0 = N.of_nat k)
    as Hnum.
  { intros k g Hk. rewrite <- Hnodes in Hk. unfold at_. rewrite Nat2N.id.
    assert (g ∈ wall_nodes flags 0 (length (meshPoints m))) as Hin
      by (by apply list_elem_of_lookup; exists k).
    apply list_elem_of_filter in Hin as [Hflag _].
    rewrite Hrank by done. f_equal.
    by apply (wall_nodes_rank flags (length (meshPoints m)) k g). }
  assert (forall g, g ∈ markers_conn config m 0 (boundaries m) ->
            N.to_nat g ∈ wall_surfElem_nodes config m) as Hcorner.
  { intros g Hg. rewrite <- Hraw in Hg. destruct (Hconn g Hg) as [Hlt Hone].
    rewrite <- Hnodes. unfold wall_nodes. apply list_elem_of_filter. split.
    - by rewrite Hone.
    - apply elem_of_seq. lia. }
  split; [rewrite <- Hnodes; apply NoDup_wall_nodes|].
  split; [apply elem_of_wall_surfElem_nodes|].
  split; [by rewrite <- Hnodes|]. split; [by rewrite <- Hnodes|].
  split; [done|]. split; [|split; [|split; [|split; [done|]]]].
  - intros g Hg. apply list_elem_of_lookup in Hg as [k Hk].
    rewrite (Hnum _ _ Hk), HnV, Hnodes. apply lookup_lt_Some in Hk. lia.
  - intros v Hv. rewrite HnV, Hnodes in Hv.
    assert (is_Some (wall_surfElem_nodes config m !! N.to_nat v)) as [g Hg].
    { apply lookup_lt_is_Some. lia. }
    exists g. split; [by apply list_elem_of_lookup; exists (N.to_nat v)|].
    rewrite (Hnum _ _ Hg). lia.
  - intros g1 g2 H1 H2 Heq.
    apply list_elem_of_lookup in H1 as [k1 Hk1].
    apply list_elem_of_lookup in H2 as [k2 Hk2].
    rewrite (Hnum _ _ Hk1), (Hnum _ _ Hk2) in Heq.
    assert (k1 = k2) as -> by lia. congruence.
  - intros Hcov g. split.
    + intros Hg. rewrite <- Hnodes in Hg. unfold wall_nodes in Hg.
      apply list_elem_of_filter in Hg as [Hflag _].
      rewrite <- Hraw. by apply (flagged_iff_raw config m Hok Hcov g).
    + intros Hg. apply Hcorner in Hg. by rewrite Nat2N.id in Hg.
Qed.

End WallDistance.

(** * Concrete meshes

    [su2double] is instantiated with [Z] (the values used are small integers,
    which [double] represents exactly), the boundary-condition tags with the
    values [HEAT_FLUX = 26] and [ISOTHERMAL = 25], and the tree with a toy
    one that keeps the connectivity it is built from, is empty when that is
    empty, and answers every query with the first coordinate of the point. *)

Module Toy.

Definition tree : Type := list N.

Definition tree_new (nDim : N) (surfaceCoor : list Z)
    (surfaceConn VTK_TypeElem markerIDs elemIDs : list N) : tree :=
  surfaceConn.

Definition tree_IsEmpty (t : tree) : bool :=
  match t with [] => true | _ => false end.

Definition tree_nearest (t : tree) (coor_ : list Z) : Z :=
  nth 0 coor_ 0%Z.

Definition BC_HEAT_FLUX : N := 26.
Definition BC_ISOTHERMAL : N := 25.
Definition BC_FAR_FIELD : N := 2.
Definition BC_PERIODIC : N := 6.

Definition run :=
  ComputeWall_Distance Z 0%Z Z.add Z.mul BC_HEAT_FLUX BC_ISOTHERMAL
    tree tree_new tree_IsEmpty tree_nearest.

Definition extract := Step1 Z 0%Z BC_HEAT_FLUX BC_ISOTHERMAL.

(** A square of side 3 with one quadrilateral element; its four sides are line
    elements.  Marker 0 (side 0-1) is a heat-flux wall, marker 1 (side 1-2)
    is periodic, marker 2 (side 2-3) is a far field, and marker 3 (side 3-0)
    is periodic although tagged as a heat-flux wall. *)
Definition line : FEMStandardBoundaryFaceClass Z :=
  {| GetVTK_Type := 3; GetNSubFaces := 1; GetNDOFsPerSubFace := 2;
     GetSubFaceConn := [0; 1]; GetNIntegration := 2;
     GetBasisFaceIntegration := [1; 0; 0; 1]%Z |}.

Definition quad : FEMStandardElementClass Z :=
  {| elem_GetNIntegration := 2;
     GetBasisFunctionsIntegration := [1; 0; 0; 0; 0; 0; 1; 0]%Z |}.

Definition inner_line : FEMStandardInternalFaceClass Z :=
  {| face_GetNIntegration := 1; GetNDOFsFaceSide0 := 2;
     GetBasisFaceIntegrationSide0 := [1; 1]%Z |}.

Definition side (a b : N) : CSurfaceElementFEM :=
  {| indStandardElement := 0; nDOFsGrid := 2; DOFsGridFace := [a; b];
     wallDistance := None |}.

Definition heat_flux_side : CBoundaryFEM Z :=
  {| periodicBoundary := false; surfElem := [side 0 1];
     VecWallDistanceBoundaryFaces := [] |}.

Definition periodic_side : CBoundaryFEM Z :=
  {| periodicBoundary := true; surfElem := [side 1 2];
     VecWallDistanceBoundaryFaces := [] |}.

Definition far_field_side : CBoundaryFEM Z :=
  {| periodicBoundary := false; surfElem := [side 2 3];
     VecWallDistanceBoundaryFaces := [] |}.

Definition periodic_heat_flux_side : CBoundaryFEM Z :=
  {| periodicBoundary := true; surfElem := [side 3 0];
     VecWallDistanceBoundaryFaces := [] |}.

Definition square : CMeshFEM_DG Z :=
  {| nDim := 2;
     meshPoints :=
       [ {| coor := [0; 0]%Z |}; {| coor := [3; 0]%Z |};
         {| coor := [3; 3]%Z |}; {| coor := [0; 3]%Z |} ];
     boundaries :=
       [heat_flux_side; periodic_side; far_field_side; periodic_heat_flux_side];
     standardElementsGrid := [quad];
     standardMatchingFacesGrid := [inner_line];
     standardBoundaryFacesGrid := [line];
     nVolElemOwned := 1;
     volElem :=
       [ {| vol_indStandardElement := 0; vol_nDOFsGrid := 4;
            nodeIDsGrid := [0; 1; 2; 3]; vol_wallDistance := None |} ];
     matchingFaces :=
       [ {| face_indStandardElement := 0; DOFsGridFaceSide0 := [0; 2];
            face_wallDistance := None |} ];
     VecWallDistanceElements := [];
     VecWallDistanceInternalMatchingFaces := [] |}.

(** A hexahedron of polynomial degree 5: 6 x 6 x 6 = 216 grid nodes on a
    lattice and 8 x 8 x 8 = 512 integration points.  Row [i] of the table of
    basis functions is 1 at node [i mod 216] and 0 elsewhere, so that
    integration point [i] lies on that node.  One face (nodes 0, 5, 35, 30)
    is a heat-flux wall. *)
Definition hexa : FEMStandardElementClass Z :=
  {| elem_GetNIntegration := 512;
     GetBasisFunctionsIntegration :=
       flat_map
         (fun i => map (fun k => if k =? i mod 216 then 1%Z else 0%Z) (Nseq 216))
         (Nseq 512) |}.

Definition quad4 : FEMStandardBoundaryFaceClass Z :=
  {| GetVTK_Type := 9; GetNSubFaces := 1; GetNDOFsPerSubFace := 4;
     GetSubFaceConn := [0; 1; 2; 3]; GetNIntegration := 1;
     GetBasisFaceIntegration := [1; 0; 0; 0]%Z |}.

Definition brick : CMeshFEM_DG Z :=
  {| nDim := 3;
     meshPoints :=
       map (fun k => {| coor := [Z.of_N (k mod 6); Z.of_N ((k / 6) mod 6);
                                 Z.of_N (k / 36)] |})
         (Nseq 216);
     boundaries :=
       [ {| periodicBoundary := false;
            surfElem :=
              [ {| indStandardElement := 0; nDOFsGrid := 4;
                   DOFsGridFace := [0; 5; 35; 30]; wallDistance := None |} ];
            VecWallDistanceBoundaryFaces := [] |} ];
     standardElementsGrid := [hexa];
     standardMatchingFacesGrid := [];
     standardBoundaryFacesGrid := [quad4];
     nVolElemOwned := 1;
     volElem :=
       [ {| vol_indStandardElement := 0; vol_nDOFsGrid := 216;
            nodeIDsGrid := Nseq 216; vol_wallDistance := None |} ];
     matchingFaces := [];
     VecWallDistanceElements := [];
     VecWallDistanceInternalMatchingFaces := [] |}.

Definition walls : CConfig :=
  {| GetMarker_All_KindBC :=
       fun iMarker => at_ [BC_HEAT_FLUX; BC_PERIODIC; BC_FAR_FIELD; BC_HEAT_FLUX] iMarker 0 |}.

Definition all_walls : CConfig :=
  {| GetMarker_All_KindBC := fun _ => BC_HEAT_FLUX |}.

Definition no_walls : CConfig :=
  {| GetMarker_All_KindBC := fun _ => BC_FAR_FIELD |}.

(** The tree the routine builds for a mesh. *)
Definition wall_tree (config : CConfig) (m : CMeshFEM_DG Z) : tree :=
  build_WallADT Z tree tree_new m (locals Z (extract config m)).

(** The square as a previous call with other settings might have left it:
    the same geometry, with old distances in the vectors and old pointers in
    the elements and faces. *)
Definition stale_side (a b : N) : CSurfaceElementFEM :=
  {| indStandardElement := 0; nDOFsGrid := 2; DOFsGridFace := [a; b];
     wallDistance := Some 9 |}.

Definition stale_square : CMeshFEM_DG Z :=
  {| nDim := 2;
     meshPoints := meshPoints Z square;
     boundaries :=
       [ {| periodicBoundary := false; surfElem := [stale_side 0 1];
            VecWallDistanceBoundaryFaces := [5; 5; 5]%Z |};
         periodic_side;
         {| periodicBoundary := false; surfElem := [stale_side 2 3];
            VecWallDistanceBoundaryFaces := [4]%Z |};
         periodic_heat_flux_side ];
     standardElementsGrid := [quad];
     standardMatchingFacesGrid := [inner_line];
     standardBoundaryFacesGrid := [line];
     nVolElemOwned := 1;
     volElem :=
       [ {| vol_indStandardElement := 0; vol_nDOFsGrid := 4;
            nodeIDsGrid := [0; 1; 2; 3]; vol_wallDistance := Some 3 |} ];
     matchingFaces :=
       [ {| face_indStandardElement := 0; DOFsGridFaceSide0 := [0; 2];
            face_wallDistance := Some 1 |} ];
     VecWallDistanceElements := [8; 8; 8; 8; 8]%Z;
     VecWallDistanceInternalMatchingFaces := [6]%Z |}.

(** The square with old distances on marker 3, which is periodic although
    tagged as a heat-flux wall: its face has the pointer 0, and the marker
    holds the distance 7 for each of the two integration points of the face. *)
Definition old_side (a b : N) : CSurfaceElementFEM :=
  {| indStandardElement := 0; nDOFsGrid := 2; DOFsGridFace := [a; b];
     wallDistance := Some 0 |}.

Definition old_periodic_heat_flux_side : CBoundaryFEM Z :=
  {| periodicBoundary := true; surfElem := [old_side 3 0];
     VecWallDistanceBoundaryFaces := [7; 7]%Z |}.

Definition old_square : CMeshFEM_DG Z :=
  {| nDim := 2;
     meshPoints := meshPoints Z square;
     boundaries :=
       [heat_flux_side; periodic_side; far_field_side; old_periodic_heat_flux_side];
     standardElementsGrid := [quad];
     standardMatchingFacesGrid := [inner_line];
     standardBoundaryFacesGrid := [line];
     nVolElemOwned := 1;
     volElem := volElem Z square;
     matchingFaces := matchingFaces Z square;
     VecWallDistanceElements := [];
     VecWallDistanceInternalMatchingFaces := [] |}.

(** A bent wall: one line element with the three grid DOFs 0, 1, 2, whose
    standard element has one sub-face, from DOF 0 to DOF 2, and one
    integration point, on DOF 1. *)
Definition arc : FEMStandardBoundaryFaceClass Z :=
  {| GetVTK_Type := 3; GetNSubFaces := 1; GetNDOFsPerSubFace := 2;
     GetSubFaceConn := [0; 2]; GetNIntegration := 1;
     GetBasisFaceIntegration := [0; 1; 0]%Z |}.

Definition bent_side : CBoundaryFEM Z :=
  {| periodicBoundary := false;
     surfElem :=
       [ {| indStandardElement := 0; nDOFsGrid := 3; DOFsGridFace := [0; 1; 2];
            wallDistance := None |} ];
     VecWallDistanceBoundaryFaces := [] |}.

Definition bent : CMeshFEM_DG Z :=
  {| nDim := 2;
     meshPoints :=
       [ {| coor := [0; 0]%Z |}; {| coor := [1; 1]%Z |}; {| coor := [2; 0]%Z |} ];
     boundaries := [bent_side];
     standardElementsGrid := [];
     standardMatchingFacesGrid := [];
     standardBoundaryFacesGrid := [arc];
     nVolElemOwned := 0;
     volElem := [];
     matchingFaces := [];
     VecWallDistanceElements := [];
     VecWallDistanceInternalMatchingFaces := [] |}.

End Toy.

(** * The claims on the concrete meshes *)

(** The hypothesis of C3 holds of marker 0 of the square. *)
Lemma wall_marker_subelements_square :
  boundaries Z Toy.square !! 0%nat = Some Toy.heat_flux_side /\
  (forall (i : nat) s,
      surfElem Z Toy.heat_flux_side !! i = Some s ->
      0 < GetNSubFaces Z (surf_standardElement Z Toy.square s) ->
      (emitted Z (locals Z (Toy.extract Toy.walls Toy.square)) (N.of_nat 0) (N.of_nat i) <->
       periodicBoundary Z Toy.heat_flux_side = false /\
       (GetMarker_All_KindBC Toy.walls (N.of_nat 0) = Toy.BC_HEAT_FLUX \/
        GetMarker_All_KindBC Toy.walls (N.of_nat 0) = Toy.BC_ISOTHERMAL))) /\
  (N.of_nat 0 ∈ markerIDs Z (locals Z (Toy.extract Toy.walls Toy.square)) ->
   periodicBoundary Z Toy.heat_flux_side = false /\
   (GetMarker_All_KindBC Toy.walls (N.of_nat 0) = Toy.BC_HEAT_FLUX \/
    GetMarker_All_KindBC Toy.walls (N.of_nat 0) = Toy.BC_ISOTHERMAL)) /\
  (periodicBoundary Z Toy.heat_flux_side = true ->
   N.of_nat 0 ∉ markerIDs Z (locals Z (Toy.extract Toy.walls Toy.square))).
Proof.
  split; [reflexivity|].
  apply (wall_marker_subelements Z 0%Z Toy.BC_HEAT_FLUX Toy.BC_ISOTHERMAL
           Toy.walls Toy.square 0%nat Toy.heat_flux_side).
  reflexivity.
Defined.

(** The hypothesis of C4 holds of the square. *)
Lemma distance_buffers_tiled_square :
  N.of_nat (length (boundaries Z Toy.square)) < USHRT_RANGE /\
  exists m' trace,
    Toy.run Toy.walls Toy.square = Some (m', trace) /\
    (total_nInt (vol_nInt Z Toy.square) (ownedVolElem Z Toy.square) < ULONG_RANGE ->
     assigned_ranges Z vol_wallDistance (vol_nInt Z Toy.square)
       (ownedVolElem Z Toy.square) (ownedVolElem Z m') (VecWallDistanceElements Z m') /\
     exact_tiling Z vol_wallDistance (vol_nInt Z Toy.square)
       (ownedVolElem Z m') (VecWallDistanceElements Z m')) /\
    (total_nInt (face_nInt Z Toy.square) (matchingFaces Z Toy.square) < ULONG_RANGE ->
     assigned_ranges Z face_wallDistance (face_nInt Z Toy.square)
       (matchingFaces Z Toy.square) (matchingFaces Z m')
       (VecWallDistanceInternalMatchingFaces Z m') /\
     exact_tiling Z face_wallDistance (face_nInt Z Toy.square)
       (matchingFaces Z m') (VecWallDistanceInternalMatchingFaces Z m')) /\
    (forall (iMarker : nat) b,
        boundaries Z Toy.square !! iMarker = Some b ->
        periodicBoundary Z b = false ->
        total_nInt (surf_nInt Z Toy.square) (surfElem Z b) < ULONG_RANGE ->
        exists b',
          boundaries Z m' !! iMarker = Some b' /\
          assigned_ranges Z wallDistance (surf_nInt Z Toy.square) (surfElem Z b)
            (surfElem Z b') (VecWallDistanceBoundaryFaces Z b') /\
          exact_tiling Z wallDistance (surf_nInt Z Toy.square)
            (surfElem Z b') (VecWallDistanceBoundaryFaces Z b')).
Proof.
  split; [reflexivity|].
  apply (distance_buffers_tiled Z 0%Z Z.add Z.mul Toy.BC_HEAT_FLUX Toy.BC_ISOTHERMAL
           Toy.tree Toy.tree_new Toy.tree_IsEmpty
           Toy.tree_nearest Toy.walls Toy.square).
  reflexivity.
Defined.

(** C4 as stated fails for a periodic marker: marker 1 of the square has one
    face with two integration points, and after the routine its result
    vector is still empty and the pointer of the face is still unset. *)
Lemma periodic_marker_not_sized :
  exists m' trace b',
    Toy.run Toy.walls Toy.square = Some (m', trace) /\
    boundaries Z Toy.square !! 1%nat = Some Toy.periodic_side /\
    boundaries Z m' !! 1%nat = Some b' /\
    total_nInt (surf_nInt Z Toy.square) (surfElem Z Toy.periodic_side) = 2 /\
    length (VecWallDistanceBoundaryFaces Z b') = 0%nat /\
    Forall (fun s' => wallDistance s' = None) (surfElem Z b') /\
    ~ assigned_ranges Z wallDistance (surf_nInt Z Toy.square)
        (surfElem Z Toy.periodic_side) (surfElem Z b')
        (VecWallDistanceBoundaryFaces Z b').
Proof.
  eexists _, _, Toy.periodic_side.
  split; [vm_compute; reflexivity|].
  split; [reflexivity|]. split; [reflexivity|]. split; [reflexivity|].
  split; [reflexivity|]. split; [by repeat constructor|].
  intros (Hlen & _). vm_compute in Hlen. discriminate.
Qed.

(** The hypothesis of C5 holds of the square. *)
Lemma surfaceConn_valid_square :
  wall_faces_ok Z Toy.BC_HEAT_FLUX Toy.BC_ISOTHERMAL Toy.walls Toy.square = true /\
  Forall (fun v => v < nVertex_SolidWall Z (locals Z (Toy.extract Toy.walls Toy.square)))
    (surfaceConn Z (locals Z (Toy.extract Toy.walls Toy.square))) /\
  N.of_nat (length (surfaceCoor Z (locals Z (Toy.extract Toy.walls Toy.square))))
  = nVertex_SolidWall Z (locals Z (Toy.extract Toy.walls Toy.square)) * nDim Z Toy.square.
Proof.
  split; [reflexivity|].
  apply (surfaceConn_valid Z 0%Z Toy.BC_HEAT_FLUX Toy.BC_ISOTHERMAL Toy.walls Toy.square).
  reflexivity.
Defined.

(** The hypotheses of C10 hold of marker 1 of the square. *)
Lemma periodic_marker_skipped_square :
  N.of_nat (length (boundaries Z Toy.square)) < USHRT_RANGE /\
  boundaries Z Toy.square !! 1%nat = Some Toy.periodic_side /\
  periodicBoundary Z Toy.periodic_side = true /\
  exists m' trace,
    Toy.run Toy.walls Toy.square = Some (m', trace) /\
    boundaries Z m' !! 1%nat = Some Toy.periodic_side /\
    forall ev l, ev ∈ trace -> event_consumer Z ev <> BoundaryFace (N.of_nat 1) l.
Proof.
  split; [reflexivity|]. split; [reflexivity|]. split; [reflexivity|].
  apply (periodic_marker_skipped Z 0%Z Z.add Z.mul Toy.BC_HEAT_FLUX Toy.BC_ISOTHERMAL
           Toy.tree Toy.tree_new Toy.tree_IsEmpty
           Toy.tree_nearest Toy.walls Toy.square 1%nat Toy.periodic_side);
    reflexivity.
Defined.

(** C7 on the brick: for integration point 304 of the hexahedron,
    [304 * 216 = 65664] does not fit [unsigned short] and [jj] becomes 128.
    The table says that the point lies on node [304 mod 216 = 88], at
    (4, 2, 2); the routine reads the table from index 128 on, finds the 1 of
    row 1 at its position 89, and queries the tree at node 89, at (5, 2, 2). *)
Lemma query_coordinate_wraps :
  ushort (304 * 216) = 128 /\
  interpolated_coor Z 0%Z Z.add Z.mul Toy.brick
    (GetBasisFunctionsIntegration Z Toy.hexa) 216 (Nseq 216) 304 = [4; 2; 2]%Z /\
  integration_point_coor Z 0%Z Z.add Z.mul Toy.brick
    (GetBasisFunctionsIntegration Z Toy.hexa) 216 (Nseq 216) 304 = [5; 2; 2]%Z /\
  exists m' trace,
    Toy.run Toy.all_walls Toy.brick = Some (m', trace) /\
    Query Z (VolumeElement 0) 304 [5; 2; 2]%Z ∈ trace.
Proof.
  split; [reflexivity|].
  split; [vm_compute; reflexivity|].
  assert (integration_point_coor Z 0%Z Z.add Z.mul Toy.brick
            (GetBasisFunctionsIntegration Z Toy.hexa) 216 (Nseq 216) 304
          = [5; 2; 2]%Z) as Hcoor by (vm_compute; reflexivity).
  split; [exact Hcoor|].
  unfold Toy.run.
  rewrite ComputeWall_Distance_runs by reflexivity.
  set (WallADT := build_WallADT Z Toy.tree Toy.tree_new
                    Toy.brick _).
  assert (Toy.tree_IsEmpty WallADT = false) as Hwalls by (vm_compute; reflexivity).
  clearbody WallADT.
  match goal with |- context [Some ?p] => exists (fst p), (snd p) end.
  split; [f_equal; apply surjective_pairing|].
  apply populate_trace; [exact Toy.tree_new|].
  left. exists 0%nat, {| vol_indStandardElement := 0; vol_nDOFsGrid := 216;
                         nodeIDsGrid := Nseq 216; vol_wallDistance := None |}.
  split; [reflexivity|].
  unfold vol_events, entity_events. rewrite Hwalls.
  apply list_elem_of_In, in_flat_map. exists 304. split.
  - apply list_elem_of_In, elem_of_Nseq; reflexivity.
  - left. f_equal; exact Hcoor.
Qed.


(** The hypotheses of C2 hold of marker 0 of the square. *)
Lemma viscous_wall_faces_zero_square :
  N.of_nat (length (boundaries Z Toy.square)) < USHRT_RANGE /\
  boundaries Z Toy.square !! 0%nat = Some Toy.heat_flux_side /\
  periodicBoundary Z Toy.heat_flux_side = false /\
  GetMarker_All_KindBC Toy.walls (N.of_nat 0) = Toy.BC_HEAT_FLUX /\
  exists m' trace b',
    Toy.run Toy.walls Toy.square = Some (m', trace) /\
    boundaries Z m' !! 0%nat = Some b' /\
    (forall ev l, ev ∈ trace ->
       event_consumer Z ev = BoundaryFace (N.of_nat 0) l ->
       exists i, ev = Store Z (BoundaryFace (N.of_nat 0) l) i 0%Z) /\
    (forall l i coor_, Query Z (BoundaryFace (N.of_nat 0) l) i coor_ ∉ trace) /\
    (forall (l : nat) s i,
        surfElem Z Toy.heat_flux_side !! l = Some s -> i < surf_nInt Z Toy.square s ->
        exists! k : nat,
          trace !! k
          = Some (Store Z (BoundaryFace (N.of_nat 0) (N.of_nat l)) i 0%Z)) /\
    Forall (fun x => x = 0%Z) (VecWallDistanceBoundaryFaces Z b') /\
    (total_nInt (surf_nInt Z Toy.square) (surfElem Z Toy.heat_flux_side) < ULONG_RANGE ->
     N.of_nat (length (VecWallDistanceBoundaryFaces Z b'))
     = total_nInt (surf_nInt Z Toy.square) (surfElem Z Toy.heat_flux_side) /\
     forall (l : nat) s,
       surfElem Z Toy.heat_flux_side !! l = Some s ->
       exists s' p,
         surfElem Z b' !! l = Some s' /\ wallDistance s' = Some p /\
         forall i, i < surf_nInt Z Toy.square s ->
           VecWallDistanceBoundaryFaces Z b' !! N.to_nat (p + i) = Some 0%Z).
Proof.
  split; [reflexivity|]. split; [reflexivity|]. split; [reflexivity|].
  split; [reflexivity|].
  apply (viscous_wall_faces_zero Z 0%Z Z.add Z.mul Toy.BC_HEAT_FLUX Toy.BC_ISOTHERMAL
           Toy.tree Toy.tree_new Toy.tree_IsEmpty
           Toy.tree_nearest Toy.walls Toy.square 0%nat Toy.heat_flux_side);
    [reflexivity|reflexivity|reflexivity|left; reflexivity].
Defined.

(** C2 as stated fails for a periodic marker: marker 3 of the square is
    tagged as a heat-flux wall and is periodic, and its face has two
    integration points.  The routine stores nothing for them, and after it
    the marker and the pointer of the face are as they were: the distance read
    through the pointer is the old 7 for both points, not 0. *)
Lemma periodic_wall_marker_keeps_old_distances :
  boundaries Z Toy.old_square !! 3%nat = Some Toy.old_periodic_heat_flux_side /\
  GetMarker_All_KindBC Toy.walls 3 = Toy.BC_HEAT_FLUX /\
  surfElem Z Toy.old_periodic_heat_flux_side !! 0%nat = Some (Toy.old_side 3 0) /\
  surf_nInt Z Toy.old_square (Toy.old_side 3 0) = 2 /\
  exists m' trace b',
    Toy.run Toy.walls Toy.old_square = Some (m', trace) /\
    boundaries Z m' !! 3%nat = Some b' /\
    surfElem Z b' !! 0%nat = Some (Toy.old_side 3 0) /\
    wallDistance (Toy.old_side 3 0) = Some 0 /\
    VecWallDistanceBoundaryFaces Z b' !! N.to_nat (0 + 0) = Some 7%Z /\
    VecWallDistanceBoundaryFaces Z b' !! N.to_nat (0 + 1) = Some 7%Z /\
    (forall (k : nat) l i dist,
        trace !! k <> Some (Store Z (BoundaryFace 3 l) i dist)) /\
    ~ Forall (fun x => x = 0%Z) (VecWallDistanceBoundaryFaces Z b').
Proof.
  split; [reflexivity|]. split; [reflexivity|]. split; [reflexivity|].
  split; [reflexivity|].
  eexists _, _, Toy.old_periodic_heat_flux_side.
  split; [vm_compute; reflexivity|].
  split; [reflexivity|]. split; [reflexivity|]. split; [reflexivity|].
  split; [reflexivity|]. split; [reflexivity|]. split.
  - intros k l i dist Hk. apply list_elem_of_lookup_2 in Hk.
    repeat (apply elem_of_cons in Hk as [Hk|Hk]; [discriminate|]).
    by apply elem_of_nil in Hk.
  - intros H. apply (Forall_lookup_1 _ _ 0%nat 7%Z) in H; [discriminate|reflexivity].
Qed.

(** The hypothesis of C6 holds of the bent wall. *)
Lemma surfaceCoor_one_entry_per_wall_point_bent :
  wall_faces_ok Z Toy.BC_HEAT_FLUX Toy.BC_ISOTHERMAL Toy.all_walls Toy.bent = true /\
  let loc := locals Z (Toy.extract Toy.all_walls Toy.bent) in
  let nodes :=
    wall_surfElem_nodes Z Toy.BC_HEAT_FLUX Toy.BC_ISOTHERMAL Toy.all_walls Toy.bent in
  NoDup nodes /\
  (forall g : nat,
      g ∈ nodes <->
      (g < length (meshPoints Z Toy.bent))%nat /\
      N.of_nat g
      ∈ markers_flagged Z Toy.BC_HEAT_FLUX Toy.BC_ISOTHERMAL Toy.all_walls 0
          (boundaries Z Toy.bent)) /\
  nVertex_SolidWall Z loc = N.of_nat (length nodes) /\
  surfaceCoor Z loc
  = flat_map
      (fun g => point_coor Z 0%Z (nDim Z Toy.bent)
                  (nth g (meshPoints Z Toy.bent) (noPoint Z)))
      nodes /\
  (forall k g : nat,
      nodes !! k = Some g -> at_ (meshToSurface Z loc) (N.of_nat g) 0 = N.of_nat k) /\
  (forall g : nat,
      g ∈ nodes -> at_ (meshToSurface Z loc) (N.of_nat g) 0 < nVertex_SolidWall Z loc) /\
  (forall v, v < nVertex_SolidWall Z loc ->
      exists g : nat, g ∈ nodes /\ at_ (meshToSurface Z loc) (N.of_nat g) 0 = v) /\
  (forall g1 g2 : nat, g1 ∈ nodes -> g2 ∈ nodes ->
      at_ (meshToSurface Z loc) (N.of_nat g1) 0
      = at_ (meshToSurface Z loc) (N.of_nat g2) 0 ->
      g1 = g2) /\
  (forall g,
      g ∈ markers_conn Z Toy.BC_HEAT_FLUX Toy.BC_ISOTHERMAL Toy.all_walls Toy.bent 0
            (boundaries Z Toy.bent) ->
      N.to_nat g ∈ nodes) /\
  (wall_faces_covered Z Toy.BC_HEAT_FLUX Toy.BC_ISOTHERMAL Toy.all_walls Toy.bent = true ->
   forall g : nat,
     g ∈ nodes <->
     N.of_nat g
     ∈ markers_conn Z Toy.BC_HEAT_FLUX Toy.BC_ISOTHERMAL Toy.all_walls Toy.bent 0
         (boundaries Z Toy.bent)).
Proof.
  split; [reflexivity|].
  apply (surfaceCoor_one_entry_per_wall_point Z 0%Z Toy.BC_HEAT_FLUX Toy.BC_ISOTHERMAL
           Toy.all_walls Toy.bent); reflexivity.
Defined.

(** C6 as stated fails when a grid DOF of a wall surface element is a corner
    of none of its sub-faces.  The surface element of the bent wall is
    consistent with its standard element and with the mesh; its one
    sub-element has the corners 0 and 2, so that mesh point 1 takes part in no
    wall sub-element.  Lines 76-77 flag it all the same: it gets the local
    number 1 and its coordinates (1, 1) are stored, so that the buffer has
    three entries for two participating points, and the numbers of the
    participating points are 0 and 2, not 0 and 1. *)
Lemma unused_node_gets_an_entry :
  wall_faces_ok Z Toy.BC_HEAT_FLUX Toy.BC_ISOTHERMAL Toy.all_walls Toy.bent = true /\
  wall_faces_covered Z Toy.BC_HEAT_FLUX Toy.BC_ISOTHERMAL Toy.all_walls Toy.bent
  = false /\
  markers_conn Z Toy.BC_HEAT_FLUX Toy.BC_ISOTHERMAL Toy.all_walls Toy.bent 0
    (boundaries Z Toy.bent) = [0; 2] /\
  raw_surfaceConn Z Toy.BC_HEAT_FLUX Toy.BC_ISOTHERMAL Toy.all_walls Toy.bent = [0; 2] /\
  (1 ∉ raw_surfaceConn Z Toy.BC_HEAT_FLUX Toy.BC_ISOTHERMAL Toy.all_walls Toy.bent) /\
  nVertex_SolidWall Z (locals Z (Toy.extract Toy.all_walls Toy.bent)) = 3 /\
  surfaceCoor Z (locals Z (Toy.extract Toy.all_walls Toy.bent))
  = [0; 0; 1; 1; 2; 0]%Z /\
  at_ (meshToSurface Z (locals Z (Toy.extract Toy.all_walls Toy.bent))) 1 0 = 1 /\
  surfaceConn Z (locals Z (Toy.extract Toy.all_walls Toy.bent)) = [0; 2] /\
  map (fun g => at_ (meshToSurface Z (locals Z (Toy.extract Toy.all_walls Toy.bent))) g 0)
    (raw_surfaceConn Z Toy.BC_HEAT_FLUX Toy.BC_ISOTHERMAL Toy.all_walls Toy.bent)
  = [0; 2].
Proof.
  split; [reflexivity|]. split; [reflexivity|]. split; [reflexivity|].
  split; [reflexivity|]. split.
  - intros H. vm_compute in H.
    repeat (apply elem_of_cons in H as [H|H]; [discriminate|]).
    by apply elem_of_nil in H.
  - repeat split; reflexivity.
Qed.

(** * The further properties on the concrete meshes *)

(** The hypotheses of X1 hold of the square. *)
Lemma wall_distance_read_back_square :
  N.of_nat (length (boundaries Z Toy.square)) < USHRT_RANGE /\
  counts_fit Z Toy.square = true /\
  exists m' trace,
    Toy.run Toy.walls Toy.square = Some (m', trace) /\
    let WallADT := Toy.wall_tree Toy.walls Toy.square in
    (forall (l : nat) e' p i,
        ownedVolElem Z m' !! l = Some e' -> vol_wallDistance e' = Some p ->
        i < vol_nInt Z Toy.square e' ->
        VecWallDistanceElements Z m' !! N.to_nat (p + i)
        = Some (vol_value Z 0%Z Z.add Z.mul Toy.tree Toy.tree_IsEmpty Toy.tree_nearest
                  WallADT Toy.square e' i)) /\
    (forall (l : nat) f' p i,
        matchingFaces Z m' !! l = Some f' -> face_wallDistance f' = Some p ->
        i < face_nInt Z Toy.square f' ->
        VecWallDistanceInternalMatchingFaces Z m' !! N.to_nat (p + i)
        = Some (face_value Z 0%Z Z.add Z.mul Toy.tree Toy.tree_IsEmpty Toy.tree_nearest
                  WallADT Toy.square f' i)) /\
    (forall (iMarker l : nat) b' s' p i,
        boundaries Z m' !! iMarker = Some b' -> periodicBoundary Z b' = false ->
        surfElem Z b' !! l = Some s' -> wallDistance s' = Some p ->
        i < surf_nInt Z Toy.square s' ->
        VecWallDistanceBoundaryFaces Z b' !! N.to_nat (p + i)
        = Some (surf_value Z 0%Z Z.add Z.mul Toy.tree Toy.tree_IsEmpty Toy.tree_nearest
                  WallADT Toy.square
                  (viscousWall Toy.BC_HEAT_FLUX Toy.BC_ISOTHERMAL Toy.walls
                     (N.of_nat iMarker)) s' i)).
Proof.
  split; [reflexivity|]. split; [reflexivity|].
  apply (wall_distance_read_back Z 0%Z Z.add Z.mul Toy.BC_HEAT_FLUX Toy.BC_ISOTHERMAL
           Toy.tree Toy.tree_new Toy.tree_IsEmpty Toy.tree_nearest
           Toy.walls Toy.square); reflexivity.
Defined.

(** The hypothesis of X2 holds of the square. *)
Lemma every_answer_is_stored_square :
  N.of_nat (length (boundaries Z Toy.square)) < USHRT_RANGE /\
  exists m' trace,
    Toy.run Toy.walls Toy.square = Some (m', trace) /\
    let WallADT := Toy.wall_tree Toy.walls Toy.square in
    (forall (k : nat) who i coor_,
        trace !! k = Some (Query Z who i coor_) ->
        trace !! S k = Some (Store Z who i (Toy.tree_nearest WallADT coor_))) /\
    (forall (k : nat) who i dist,
        trace !! k = Some (Store Z who i dist) ->
        dist = 0%Z \/
        exists (k' : nat) coor_,
          k = S k' /\ trace !! k' = Some (Query Z who i coor_) /\
          dist = Toy.tree_nearest WallADT coor_).
Proof.
  split; [reflexivity|].
  apply (every_answer_is_stored Z 0%Z Z.add Z.mul Toy.BC_HEAT_FLUX Toy.BC_ISOTHERMAL
           Toy.tree Toy.tree_new Toy.tree_IsEmpty Toy.tree_nearest
           Toy.walls Toy.square); reflexivity.
Defined.

(** The hypothesis of X3 holds of the square. *)
Lemma one_search_per_integration_point_square :
  N.of_nat (length (boundaries Z Toy.square)) < USHRT_RANGE /\
  exists m' trace,
    Toy.run Toy.walls Toy.square = Some (m', trace) /\
    let WallADT := Toy.wall_tree Toy.walls Toy.square in
    (Toy.tree_IsEmpty WallADT = false ->
     forall who i,
       searched_point Z Toy.BC_HEAT_FLUX Toy.BC_ISOTHERMAL Toy.walls Toy.square who i ->
       exists! k : nat, exists coor_, trace !! k = Some (Query Z who i coor_)) /\
    (forall who i coor_,
        Query Z who i coor_ ∈ trace ->
        Toy.tree_IsEmpty WallADT = false /\
        searched_point Z Toy.BC_HEAT_FLUX Toy.BC_ISOTHERMAL Toy.walls Toy.square who i) /\
    (forall who i, handled_point Z Toy.square who i ->
       exists! k : nat, exists dist, trace !! k = Some (Store Z who i dist)) /\
    (forall who i dist, Store Z who i dist ∈ trace -> handled_point Z Toy.square who i) /\
    count_queries Z trace
    = queried_points Z Toy.BC_HEAT_FLUX Toy.BC_ISOTHERMAL Toy.tree Toy.tree_IsEmpty
        WallADT Toy.walls Toy.square /\
    count_stores Z trace = handled_points Z Toy.square.
Proof.
  split; [reflexivity|].
  apply (one_search_per_integration_point Z 0%Z Z.add Z.mul
           Toy.BC_HEAT_FLUX Toy.BC_ISOTHERMAL
           Toy.tree Toy.tree_new Toy.tree_IsEmpty Toy.tree_nearest
           Toy.walls Toy.square); reflexivity.
Defined.

(** The hypothesis of X4 holds of the square. *)
Lemma routine_changes_only_distances_square :
  N.of_nat (length (boundaries Z Toy.square)) < USHRT_RANGE /\
  exists m' trace,
    Toy.run Toy.walls Toy.square = Some (m', trace) /\
    nDim Z m' = nDim Z Toy.square /\
    meshPoints Z m' = meshPoints Z Toy.square /\
    standardElementsGrid Z m' = standardElementsGrid Z Toy.square /\
    standardMatchingFacesGrid Z m' = standardMatchingFacesGrid Z Toy.square /\
    standardBoundaryFacesGrid Z m' = standardBoundaryFacesGrid Z Toy.square /\
    nVolElemOwned Z m' = nVolElemOwned Z Toy.square /\
    map vol_data (volElem Z m') = map vol_data (volElem Z Toy.square) /\
    drop (N.to_nat (nVolElemOwned Z Toy.square)) (volElem Z m')
    = drop (N.to_nat (nVolElemOwned Z Toy.square)) (volElem Z Toy.square) /\
    map face_data (matchingFaces Z m') = map face_data (matchingFaces Z Toy.square) /\
    map (marker_data Z) (boundaries Z m') = map (marker_data Z) (boundaries Z Toy.square).
Proof.
  split; [reflexivity|].
  apply (routine_changes_only_distances Z 0%Z Z.add Z.mul
           Toy.BC_HEAT_FLUX Toy.BC_ISOTHERMAL
           Toy.tree Toy.tree_new Toy.tree_IsEmpty Toy.tree_nearest
           Toy.walls Toy.square); reflexivity.
Defined.

(** The hypothesis of X5 holds of the square. *)
Lemma query_coordinates_interpolated_square :
  N.of_nat (length (boundaries Z Toy.square)) < USHRT_RANGE /\
  exists m' trace,
    Toy.run Toy.walls Toy.square = Some (m', trace) /\
    (forall (l : nat) e i coor_,
        ownedVolElem Z Toy.square !! l = Some e ->
        Query Z (VolumeElement (N.of_nat l)) i coor_ ∈ trace ->
        i < vol_nInt Z Toy.square e /\ length coor_ = N.to_nat (nDim Z Toy.square) /\
        (i * vol_nDOFsGrid e < USHRT_RANGE ->
         coor_ = interpolated_coor Z 0%Z Z.add Z.mul Toy.square
                   (GetBasisFunctionsIntegration Z (vol_standardElement Z Toy.square e))
                   (vol_nDOFsGrid e) (nodeIDsGrid e) i)) /\
    (forall (l : nat) f i coor_,
        matchingFaces Z Toy.square !! l = Some f ->
        Query Z (MatchingFace (N.of_nat l)) i coor_ ∈ trace ->
        i < face_nInt Z Toy.square f /\ length coor_ = N.to_nat (nDim Z Toy.square) /\
        (i * GetNDOFsFaceSide0 Z (face_standardElement Z Toy.square f) < USHRT_RANGE ->
         coor_ = interpolated_coor Z 0%Z Z.add Z.mul Toy.square
                   (GetBasisFaceIntegrationSide0 Z (face_standardElement Z Toy.square f))
                   (GetNDOFsFaceSide0 Z (face_standardElement Z Toy.square f))
                   (DOFsGridFaceSide0 f) i)) /\
    (forall (iMarker l : nat) b s i coor_,
        boundaries Z Toy.square !! iMarker = Some b -> surfElem Z b !! l = Some s ->
        Query Z (BoundaryFace (N.of_nat iMarker) (N.of_nat l)) i coor_ ∈ trace ->
        i < surf_nInt Z Toy.square s /\ length coor_ = N.to_nat (nDim Z Toy.square) /\
        (i * nDOFsGrid s < USHRT_RANGE ->
         coor_ = interpolated_coor Z 0%Z Z.add Z.mul Toy.square
                   (GetBasisFaceIntegration Z (surf_standardElement Z Toy.square s))
                   (nDOFsGrid s) (DOFsGridFace s) i)).
Proof.
  split; [reflexivity|].
  apply (query_coordinates_interpolated Z 0%Z Z.add Z.mul
           Toy.BC_HEAT_FLUX Toy.BC_ISOTHERMAL
           Toy.tree Toy.tree_new Toy.tree_IsEmpty Toy.tree_nearest
           Toy.walls Toy.square); reflexivity.
Defined.

(** The hypotheses of X6 hold of the square without walls. *)
Lemma no_viscous_wall_zero_distance_square :
  N.of_nat (length (boundaries Z Toy.square)) < USHRT_RANGE /\
  no_wall_marker Z Toy.BC_HEAT_FLUX Toy.BC_ISOTHERMAL Toy.no_walls 0
    (boundaries Z Toy.square) = true /\
  Toy.tree_IsEmpty (Toy.tree_new (nDim Z Toy.square) [] [] [] [] []) = true /\
  locals Z (Toy.extract Toy.no_walls Toy.square) = init_locals Z Toy.square /\
  exists m' trace,
    Toy.run Toy.no_walls Toy.square = Some (m', trace) /\
    (forall ev, ev ∈ trace -> exists who i, ev = Store Z who i 0%Z) /\
    Forall (fun x => x = 0%Z) (VecWallDistanceElements Z m') /\
    Forall (fun x => x = 0%Z) (VecWallDistanceInternalMatchingFaces Z m') /\
    (forall (iMarker : nat) b',
        boundaries Z m' !! iMarker = Some b' -> periodicBoundary Z b' = false ->
        Forall (fun x => x = 0%Z) (VecWallDistanceBoundaryFaces Z b')).
Proof.
  split; [reflexivity|]. split; [reflexivity|]. split; [reflexivity|].
  apply (no_viscous_wall_zero_distance Z 0%Z Z.add Z.mul
           Toy.BC_HEAT_FLUX Toy.BC_ISOTHERMAL
           Toy.tree Toy.tree_new Toy.tree_IsEmpty Toy.tree_nearest
           Toy.no_walls Toy.square); reflexivity.
Defined.

(** The hypotheses of X9 hold of the second entry of the connectivity of the
    square, which names mesh point 1. *)
Lemma remap_keeps_coordinates_square :
  wall_faces_ok Z Toy.BC_HEAT_FLUX Toy.BC_ISOTHERMAL Toy.walls Toy.square = true /\
  raw_surfaceConn Z Toy.BC_HEAT_FLUX Toy.BC_ISOTHERMAL Toy.walls Toy.square !! 1%nat
  = Some 1 /\
  exists v,
    surfaceConn Z (locals Z (Toy.extract Toy.walls Toy.square)) !! 1%nat = Some v /\
    v < nVertex_SolidWall Z (locals Z (Toy.extract Toy.walls Toy.square)) /\
    forall d, d < nDim Z Toy.square ->
      surfaceCoor Z (locals Z (Toy.extract Toy.walls Toy.square))
        !! N.to_nat (v * nDim Z Toy.square + d)
      = Some (at_ (coor Z (at_ (meshPoints Z Toy.square) 1 (noPoint Z))) d 0%Z).
Proof.
  split; [reflexivity|]. split; [reflexivity|].
  apply (remap_keeps_coordinates Z 0%Z Toy.BC_HEAT_FLUX Toy.BC_ISOTHERMAL
           Toy.walls Toy.square); reflexivity.
Defined.

(** The hypothesis of X10 holds of the square. *)
Lemma local_numbering_monotone_square :
  wall_faces_ok Z Toy.BC_HEAT_FLUX Toy.BC_ISOTHERMAL Toy.walls Toy.square = true /\
  nVertex_SolidWall Z (locals Z (Toy.extract Toy.walls Toy.square))
  <= N.of_nat (length (meshPoints Z Toy.square)) /\
  forall g1 g2,
    g1 ∈ raw_surfaceConn Z Toy.BC_HEAT_FLUX Toy.BC_ISOTHERMAL Toy.walls Toy.square ->
    g2 ∈ raw_surfaceConn Z Toy.BC_HEAT_FLUX Toy.BC_ISOTHERMAL Toy.walls Toy.square ->
    g1 < g2 ->
    at_ (meshToSurface Z (locals Z (Toy.extract Toy.walls Toy.square))) g1 0
    < at_ (meshToSurface Z (locals Z (Toy.extract Toy.walls Toy.square))) g2 0.
Proof.
  split; [reflexivity|].
  apply (local_numbering_monotone Z 0%Z Toy.BC_HEAT_FLUX Toy.BC_ISOTHERMAL
           Toy.walls Toy.square); reflexivity.
Defined.

(** The hypotheses of X11 hold of the square and the square with old
    wall-distance data. *)
Lemma result_independent_of_old_distances_square :
  N.of_nat (length (boundaries Z Toy.square)) < USHRT_RANGE /\
  same_data Z Toy.square Toy.stale_square /\
  counts_fit Z Toy.square = true /\
  exists m1' m2' trace,
    Toy.run Toy.walls Toy.square = Some (m1', trace) /\
    Toy.run Toy.walls Toy.stale_square = Some (m2', trace) /\
    VecWallDistanceElements Z m1' = VecWallDistanceElements Z m2' /\
    ownedVolElem Z m1' = ownedVolElem Z m2' /\
    VecWallDistanceInternalMatchingFaces Z m1'
    = VecWallDistanceInternalMatchingFaces Z m2' /\
    matchingFaces Z m1' = matchingFaces Z m2' /\
    forall (iMarker : nat) b1' b2',
      boundaries Z m1' !! iMarker = Some b1' -> boundaries Z m2' !! iMarker = Some b2' ->
      periodicBoundary Z b1' = false -> b1' = b2'.
Proof.
  split; [reflexivity|].
  split; [repeat split; reflexivity|].
  split; [reflexivity|].
  apply (result_independent_of_old_distances Z 0%Z Z.add Z.mul
           Toy.BC_HEAT_FLUX Toy.BC_ISOTHERMAL
           Toy.tree Toy.tree_new Toy.tree_IsEmpty Toy.tree_nearest
           Toy.walls Toy.square Toy.stale_square);
    [reflexivity|repeat split; reflexivity|reflexivity].
Defined.

(** The hypotheses of X12 hold of the square. *)
Lemma routine_idempotent_square :
  N.of_nat (length (boundaries Z Toy.square)) < USHRT_RANGE /\
  counts_fit Z Toy.square = true /\
  exists m' trace,
    Toy.run Toy.walls Toy.square = Some (m', trace) /\
    Toy.run Toy.walls m' = Some (m', trace).
Proof.
  split; [reflexivity|]. split; [reflexivity|].
  apply (routine_idempotent Z 0%Z Z.add Z.mul Toy.BC_HEAT_FLUX Toy.BC_ISOTHERMAL
           Toy.tree Toy.tree_new Toy.tree_IsEmpty Toy.tree_nearest
           Toy.walls Toy.square); reflexivity.
Defined.

(** The hypothesis of X13 holds of the square. *)
Lemma numbered_points_are_wall_nodes_square :
  wall_faces_ok Z Toy.BC_HEAT_FLUX Toy.BC_ISOTHERMAL Toy.walls Toy.square = true /\
  nVertex_SolidWall Z (locals Z (Toy.extract Toy.walls Toy.square))
  = N.of_nat
      (length (wall_surfElem_nodes Z Toy.BC_HEAT_FLUX Toy.BC_ISOTHERMAL
                 Toy.walls Toy.square)) /\
  surfaceCoor Z (locals Z (Toy.extract Toy.walls Toy.square))
  = flat_map
      (fun g => point_coor Z 0%Z (nDim Z Toy.square)
                  (nth g (meshPoints Z Toy.square) (noPoint Z)))
      (wall_surfElem_nodes Z Toy.BC_HEAT_FLUX Toy.BC_ISOTHERMAL Toy.walls Toy.square) /\
  (forall k g : nat,
      wall_surfElem_nodes Z Toy.BC_HEAT_FLUX Toy.BC_ISOTHERMAL Toy.walls Toy.square !! k
      = Some g ->
      at_ (meshToSurface Z (locals Z (Toy.extract Toy.walls Toy.square))) (N.of_nat g) 0
      = N.of_nat k) /\
  (forall g,
      g ∈ raw_surfaceConn Z Toy.BC_HEAT_FLUX Toy.BC_ISOTHERMAL Toy.walls Toy.square ->
      N.to_nat g
      ∈ wall_surfElem_nodes Z Toy.BC_HEAT_FLUX Toy.BC_ISOTHERMAL Toy.walls Toy.square).
Proof.
  split; [reflexivity|].
  apply (numbered_points_are_wall_nodes Z 0%Z Toy.BC_HEAT_FLUX Toy.BC_ISOTHERMAL
           Toy.walls Toy.square); reflexivity.
Defined.
